(** * Packed ABI codec: a shallow embedding of [encode_packed.go] and
    [decode_packed.go] of package [abi], and the properties its
    specification states about them.

    The encoder maps a Go value (seen through [reflect]) and a type
    descriptor to bytes; the decoder maps a descriptor and a buffer to a
    value and the unconsumed remainder.  Go's three outcomes of a call (a
    value, a returned error, a run-time panic) are kept apart. *)

From Stdlib Require Import ZArith Lia List String Ascii.
From Stdlib.Strings Require Import Byte.
From stdpp Require Import base option list gmap strings pretty.

Set Warnings "-register-all".
#[local] Open Scope Z_scope.

(* ================================================================== *)
(** * Outcomes of a call *)

(** Kinds of the type descriptor ([Kind()]), the closed set of the
    descriptor contract. *)
Inductive Kind : Set :=
| KindBool | KindUInt | KindInt | KindString | KindArray | KindSlice
| KindAddress | KindBytes | KindFixedBytes | KindTuple | KindFunction.

(** The errors the two files return, one constructor per [fmt.Errorf] or
    [encodeErr] site (the payload is what the message is built from).  The
    two "not available" errors are those of the [default] branches, which
    no kind of the closed set reaches. *)
Inductive error : Set :=
| ErrEncode (expected : string)        (* encodeErr(v, expected) *)
| ErrEncodeKind (k : Kind)             (* encodeErr(v, t.Kind().String()) *)
| ErrEncodingNotAvailable (k : Kind)   (* "encoding not available for type" *)
| ErrExpectedArray                     (* "expected array" *)
| ErrExpectedSlice                     (* "expected slice" *)
| ErrArrayLen                          (* "array len incompatible" *)
| ErrTupleLen                          (* "expected at least the same length" *)
| ErrCannotGetKey (name : string)      (* "cannot get key %s" *)
| ErrHex                               (* decodeHex failed *)
| ErrAddressText                       (* Address.UnmarshalText failed *)
| ErrEmptyInput                        (* "empty input" *)
| ErrRequiresLength (k : Kind) (need have : Z)
                                       (* "Input kind '%s' requires length %d, but input has %d" *)
| ErrAddrLen                           (* "len is not correct" *)
| ErrRepeated                          (* "tuple with repeated values" *)
| ErrSizeNegative                      (* "size is lower than zero" *)
| ErrSizeTooBig                        (* "size is too big" *)
| ErrBadBoolean                        (* "bad boolean" *)
| ErrDecodingNotAvailable (k : Kind).  (* "decoding not available for type" *)

(** Run-time panics of the Go code. *)
Inductive panic : Set :=
| PanicIndex          (* index out of range *)
| PanicSliceBounds    (* slice bounds out of range *)
| PanicNilDeref       (* method call through a nil *Type *)
| PanicDivideByZero   (* integer divide by zero *)
| PanicReflect.       (* reflect: call of a method on the wrong Kind *)

Inductive result (A : Type) : Type :=
| Ok (a : A)
| Err (e : error)
| Panic (p : panic).
Arguments Ok {A} a.
Arguments Err {A} e.
Arguments Panic {A} p.

#[global] Instance result_bind : MBind result :=
  fun A B (k : A -> result B) (r : result A) =>
    match r with
    | Ok a => k a
    | Err e => Err e
    | Panic p => Panic p
    end.

Definition isOk {A : Type} (r : result A) : bool :=
  match r with Ok _ => true | _ => false end.

(* ================================================================== *)
(** * Bytes and math/big *)

Definition byte_to_Z (b : byte) : Z := Z.of_N (Byte.to_N b).

Definition byte_of_Z (z : Z) : byte :=
  match Byte.of_N (Z.to_N (z mod 256)) with
  | Some b => b
  | None => x00
  end.

(** The [len] low-order bytes of [n], most significant first. *)
Fixpoint be_digits (len : nat) (n : Z) : list byte :=
  match len with
  | O => []
  | S k => be_digits k (n / 256) ++ [byte_of_Z n]
  end.

(** [big.Int.BitLen]: the length of the absolute value in bits, 0 for 0. *)
Definition BitLen (n : Z) : Z :=
  if n =? 0 then 0 else Z.log2 (Z.abs n) + 1.

(** [big.Int.Bytes]: the absolute value as a big-endian byte slice with no
    leading zero byte; the empty slice for 0. *)
Definition Bytes (n : Z) : list byte :=
  be_digits (Z.to_nat ((BitLen n + 7) / 8)) (Z.abs n).

(** [big.Int.SetBytes]: a big-endian unsigned integer. *)
Definition SetBytes (b : list byte) : Z :=
  fold_left (fun acc x => acc * 256 + byte_to_Z x) b 0.

(** [binary.BigEndian.Uint16/32/64]: the first [n] bytes, big-endian; the
    bounds check of the library panics on a shorter slice. *)
Definition BigEndian_Uint (n : nat) (b : list byte) : result Z :=
  if (length b <? n)%nat then Panic PanicIndex else Ok (SetBytes (take n b)).

(** Conversion of an integer to a Go signed type of [w] bits. *)
Definition to_signed (w : Z) (n : Z) : Z :=
  let m := n mod 2 ^ w in
  if m <? 2 ^ (w - 1) then m else m - 2 ^ w.

(** Digits of [big.Int.SetString]: 0-9, a-z and A-Z stand for 0..35, and a
    digit is valid when below the base. *)
Definition digit_val (base : Z) (c : ascii) : option Z :=
  let n := Z.of_nat (nat_of_ascii c) in
  let d :=
    if (48 <=? n) && (n <=? 57) then n - 48
    else if (97 <=? n) && (n <=? 122) then n - 97 + 10
    else if (65 <=? n) && (n <=? 90) then n - 65 + 10
    else base in
  if d <? base then Some d else None.

Fixpoint parse_digits (base : Z) (acc : Z) (s : string) : option Z :=
  match s with
  | EmptyString => Some acc
  | String c rest =>
      match digit_val base c with
      | Some d => parse_digits base (acc * base + d) rest
      | None => None
      end
  end.

Definition parse_unsigned (base : Z) (s : string) : option Z :=
  match s with
  | EmptyString => None
  | _ => parse_digits base 0 s
  end.

(** [new(big.Int).SetString(s, base)] for an explicit base (10 or 16
    here): an optional sign, then at least one digit, and nothing else;
    with an explicit base no prefix and no underscore is accepted. *)
Definition SetString (s : string) (base : Z) : option Z :=
  match s with
  | String "+" rest => parse_unsigned base rest
  | String "-" rest => Z.opp <$> parse_unsigned base rest
  | _ => parse_unsigned base s
  end.

(** [[]byte(s)]: a Go string is its bytes. *)
Definition bytes_of_string (s : string) : list byte := list_byte_of_string s.

(** [s[2:]] on a Go string; panics when the string has fewer than two
    bytes. *)
Definition string_from2 (s : string) : result string :=
  match s with
  | String _ (String _ rest) => Ok rest
  | _ => Panic PanicSliceBounds
  end.

(* ================================================================== *)
(** * Helpers of package [abi] declared outside the two files *)

(** Modelled from the spec: [zero] and [one], the package-level
    [*big.Int] constants whose [Bytes()] the boolean encoder returns; the
    declaration is in a file of the package that is not at hand, and they
    are taken at the values they are named after. *)
Definition zero : Z := 0.
Definition one : Z := 1.

(** Modelled from the spec: [maxUint256] and [maxInt256], package-level
    [*big.Int] constants of the decoder declared in a file that is not at
    hand, taken at the values they are named after: the largest unsigned
    and the largest signed 256-bit integers. *)
Definition maxUint256 : Z := 2 ^ 256 - 1.
Definition maxInt256 : Z := 2 ^ 255 - 1.

(** Modelled from the spec: [leftPad(b, size)], declared outside the two
    files: "left-pad with zero bytes" to [size] bytes.  The spec fixes the
    result for inputs of at most [size] bytes only; a longer input is
    returned as it is here, and no statement below rests on that case. *)
Definition leftPad (b : list byte) (size : Z) : list byte :=
  replicate (Z.to_nat size - length b) x00 ++ b.

(** Modelled from the spec: [rightPad(b, size)], declared outside the two
    files: "right-padded with zero bytes to the declared byte length".  As
    for [leftPad], inputs longer than [size] are outside what the spec
    fixes. *)
Definition rightPad (b : list byte) (size : Z) : list byte :=
  b ++ replicate (Z.to_nat size - length b) x00.

Definition hex_val (c : ascii) : option Z := digit_val 16 c.

Fixpoint hex_pairs (s : string) : option (list byte) :=
  match s with
  | EmptyString => Some []
  | String a (String b rest) =>
      match hex_val a, hex_val b, hex_pairs rest with
      | Some x, Some y, Some bs => Some (byte_of_Z (16 * x + y) :: bs)
      | _, _, _ => None
      end
  | String _ EmptyString => None
  end.

(** Modelled from the spec: [decodeHex], declared outside the two files:
    the "hex-decoding utility [that] accepts an optional 0x prefix". *)
Definition decodeHex (s : string) : result (list byte) :=
  let body := match s with String "0" (String "x" rest) => rest | _ => s end in
  match hex_pairs body with
  | Some bs => Ok bs
  | None => Err ErrHex
  end.

(** Modelled from the spec: [ethgo.Address.UnmarshalText], of the
    imported address type: the "construction of 20-byte address values
    from text", a hex text of exactly 20 bytes. *)
Definition Address_UnmarshalText (s : string) : result (list byte) :=
  bs ← decodeHex s;
  if (length bs =? 20)%nat then Ok bs else Err ErrAddressText.

(* ================================================================== *)
(** * Go values as [reflect] sees them *)

(** The sized integer kinds of [reflect]: [SzNative] is [int]/[uint]. *)
Inductive IntSize : Set := SzNative | Sz8 | Sz16 | Sz32 | Sz64.

(** A [reflect.Value], by [Kind()].  An interface-typed element (of a
    [[]interface{}] or a [map[string]interface{}]) is represented by the
    value it holds, which is what [encodePacked] unwraps it to.  A byte
    slice is a [VSlice] of [VUint Sz8], a byte array (an address, a
    [[N]byte]) a [VArray] of them.  A finite [float64] is the dyadic
    [m * 2^e]. *)
Inductive Value : Type :=
| VBool (b : bool)
| VUint (sz : IntSize) (n : Z)        (* Uint, Uint8 .. Uint64; n = v.Uint() *)
| VInt (sz : IntSize) (n : Z)         (* Int, Int8 .. Int64; n = v.Int() *)
| VBigInt (n : Z)                     (* Ptr, of type *big.Int *)
| VPtr (p : Value)                    (* Ptr, of another type *)
| VFloat64 (m e : Z)
| VString (s : string)
| VSlice (l : list Value)
| VArray (l : list Value)
| VMap (m : gmap string Value)        (* Map, keyed by strings *)
| VStruct (fields : list (string * Value)).  (* Struct, its named fields *)

(** [int64(f)] for the float [m * 2^e]: truncation toward zero.  Outside
    the range of [int64] Go leaves the result to the implementation; the
    smallest [int64], the result on amd64, is taken. *)
Definition float_to_int64 (m e : Z) : Z :=
  let z := if 0 <=? e then m * 2 ^ e else Z.quot m (2 ^ (- e)) in
  if (- 2 ^ 63 <=? z) && (z <? 2 ^ 63) then z else - 2 ^ 63.

(** [v.Bytes()]: the bytes of a byte slice; [reflect] panics on any other
    value. *)
Fixpoint bytes_of_values (l : list Value) : result (list byte) :=
  match l with
  | [] => Ok []
  | VUint Sz8 n :: rest => bs ← bytes_of_values rest; Ok (byte_of_Z n :: bs)
  | _ :: _ => Panic PanicReflect
  end.

Definition Value_Bytes (v : Value) : result (list byte) :=
  match v with
  | VSlice l => bytes_of_values l
  | _ => Panic PanicReflect
  end.

Definition values_of_bytes (b : list byte) : list Value :=
  map (fun x => VUint Sz8 (byte_to_Z x)) b.

(** Modelled from the spec: [convertArrayToBytes], declared outside the
    two files: the byte slice holding the elements of a byte array. *)
Definition convertArrayToBytes (v : Value) : Value :=
  match v with
  | VArray l => VSlice l
  | _ => v
  end.

(** Modelled from the spec: [mapFromStruct], declared outside the two
    files: a record is "converted to a keyed collection by field name". *)
Definition mapFromStruct (fields : list (string * Value)) : result Value :=
  Ok (VMap (list_to_map fields)).

(* ================================================================== *)
(** * Type descriptors *)

(** [t.GoType().Kind()], as far as [readIntegerPacked] tells kinds apart. *)
Inductive GoKind : Set :=
| GoUint8 | GoUint16 | GoUint32 | GoUint64
| GoInt8 | GoInt16 | GoInt32 | GoInt64
| GoOther.

(** The descriptor [*Type]: [Kind()], [Size()], [Elem()] (nil for a
    descriptor without element), [TupleElems()] as (Name, Elem) pairs and
    the kind of [GoType()].  Sizes are Go [int]s; they and the buffer
    lengths are taken in [Z], the code never getting near 2^63 with them.
    For the containers and the fixed byte arrays the native type is the
    one of the same length the descriptor stands for. *)
Inductive Type_ : Type :=
  mkType {
    TKind : Kind;
    TSize : Z;
    TElem : option Type_;
    TTupleElems : list (string * Type_);
    TGoKind : GoKind
  }.

(** Modelled from the spec: the native representation of an integer
    descriptor, built by the descriptor's constructor outside the two
    files: "for bit-widths matching a native fixed width (8/16/32/64) ...
    the native representation; otherwise ... an arbitrary-precision
    integer". *)
Definition goKindOf (k : Kind) (w : Z) : GoKind :=
  match k with
  | KindUInt =>
      if w =? 8 then GoUint8 else if w =? 16 then GoUint16
      else if w =? 32 then GoUint32 else if w =? 64 then GoUint64 else GoOther
  | KindInt =>
      if w =? 8 then GoInt8 else if w =? 16 then GoInt16
      else if w =? 32 then GoInt32 else if w =? 64 then GoInt64 else GoOther
  | _ => GoOther
  end.

Definition Kind_eqb (a b : Kind) : bool :=
  match a, b with
  | KindBool, KindBool | KindUInt, KindUInt | KindInt, KindInt
  | KindString, KindString | KindArray, KindArray | KindSlice, KindSlice
  | KindAddress, KindAddress | KindBytes, KindBytes
  | KindFixedBytes, KindFixedBytes | KindTuple, KindTuple
  | KindFunction, KindFunction => true
  | _, _ => false
  end.

(* ================================================================== *)
(** * The encoder ([encode_packed.go]) *)

(** [size] is a bit width, not negative ([Lsh] takes it as a [uint]). *)
Definition toUSize (n : Z) (size : Z) : list byte :=
  let b :=
    if (n <? 0) || (size <? BitLen n)
    then Z.land n (Z.shiftl 1 size - 1)
    else n in
  leftPad (Bytes b) (Z.quot size 8).

Definition encodeBoolPacked (v : Value) : result (list byte) :=
  match v with
  | VBool b => if b then Ok (Bytes one) else Ok (Bytes zero)
  | _ => Err (ErrEncode "bool")
  end.

(** The branches of [encodeNumPacked] that return at once. *)
Definition encodeNumPacked_direct (v : Value) (t : Type_) : result (list byte) :=
  match v with
  | VUint _ n => Ok (toUSize n (TSize t))
  | VInt _ n => Ok (toUSize n (TSize t))
  | VBigInt n => Ok (toUSize n 256)
  | VPtr _ => Err (ErrEncode "number")
  | _ => Err (ErrEncode "number")
  end.

(** [encodeNumPacked]: the float and the text branch call the function
    again, on an [int64] and on a [*big.Int]. *)
Definition encodeNumPacked (v : Value) (t : Type_) : result (list byte) :=
  match v with
  | VFloat64 m e => encodeNumPacked_direct (VInt Sz64 (float_to_int64 m e)) t
  | VString s =>
      match SetString s 10 with
      | Some n => encodeNumPacked_direct (VBigInt n) t
      | None =>
          s2 ← string_from2 s;
          match SetString s2 16 with
          | Some n => encodeNumPacked_direct (VBigInt n) t
          | None => Err (ErrEncode "number")
          end
      end
  | _ => encodeNumPacked_direct v t
  end.

Definition encodeStringPacked (v : Value) : result (list byte) :=
  match v with
  | VString s => Ok (bytes_of_string s)
  | _ => Err (ErrEncode "string")
  end.

(** The common head of the three byte encoders: a byte array becomes a
    byte slice, a text is decoded from hex by [fromText]. *)
Definition bytes_or_text (fromText : string -> result (list byte)) (v : Value)
  : result (list byte) :=
  match convertArrayToBytes v with
  | VString s => fromText s
  | v' => Value_Bytes v'
  end.

Definition encodeBytesPacked (v : Value) : result (list byte) :=
  bytes_or_text decodeHex v.

Definition encodeAddressPacked (v : Value) : result (list byte) :=
  bytes_or_text Address_UnmarshalText v.

Definition encodeFixedBytesPacked (v : Value) (t : Type_) : result (list byte) :=
  b ← bytes_or_text decodeHex v;
  Ok (rightPad b (TSize t)).

(** The loop of [encodeSliceAndArrayPacked]: the elements in order, each
    appended to the output, the first failure ending the call. *)
Fixpoint encodeElems (enc : Value -> result (list byte)) (l : list Value)
  : result (list byte) :=
  match l with
  | [] => Ok []
  | x :: rest =>
      val ← enc x;
      ret ← encodeElems enc rest;
      Ok (val ++ ret)
  end.

Definition encodeSliceAndArrayPacked
    (encElem : Value -> result (list byte)) (v : Value) (t : Type_)
  : result (list byte) :=
  match v with
  | VArray l =>
      if negb (Kind_eqb (TKind t) KindArray) then Err ErrExpectedArray
      else if negb (TSize t =? Z.of_nat (length l)) then Err ErrArrayLen
      else encodeElems encElem l
  | VSlice l =>
      if negb (Kind_eqb (TKind t) KindSlice) then Err ErrExpectedSlice
      else encodeElems encElem l
  | _ => Err (ErrEncodeKind (TKind t))
  end.

(** [v.Len()] and the two ways [encodeTuplePacked] reads an entry. *)
Definition Value_Len (v : Value) : Z :=
  match v with
  | VSlice l | VArray l => Z.of_nat (length l)
  | VMap m => Z.of_nat (size m)
  | _ => 0
  end.

Definition fieldName (i : nat) (name : string) : string :=
  if String.eqb name EmptyString then pretty i else name.

Definition tupleEntry (v : Value) (i : nat) (name : string) : option Value :=
  match v with
  | VSlice l | VArray l => l !! i
  | VMap m => m !! fieldName i name
  | _ => None
  end.

(** The loop of [encodeTuplePacked] over [t.TupleElems()], from index [i]. *)
Fixpoint encodeFields (enc : Value -> Type_ -> result (list byte))
    (v : Value) (i : nat) (elems : list (string * Type_))
  : result (list byte) :=
  match elems with
  | [] => Ok []
  | (name, et) :: rest =>
      match tupleEntry v i name with
      | None => Err (ErrCannotGetKey name)
      | Some aux =>
          val ← enc aux et;
          ret ← encodeFields enc v (S i) rest;
          Ok (val ++ ret)
      end
  end.

Definition encodeTuplePacked (enc : Value -> Type_ -> result (list byte))
    (v : Value) (t : Type_) : result (list byte) :=
  let v := match v with
           | VPtr p => p
           | VBigInt _ => VStruct []   (* points to a struct, no exported field *)
           | _ => v
           end in
  v ← match v with
      | VSlice _ | VArray _ | VMap _ => Ok v
      | VStruct fields => mapFromStruct fields
      | _ => Err (ErrEncode "tuple")
      end;
  if Value_Len v <? Z.of_nat (length (TTupleElems t)) then Err ErrTupleLen
  else encodeFields enc v 0 (TTupleElems t).

Fixpoint encodePacked (v : Value) (t : Type_) {struct t} : result (list byte) :=
  match TKind t with
  | KindSlice | KindArray =>
      encodeSliceAndArrayPacked
        (fun x => match TElem t with
                  | Some et => encodePacked x et
                  | None => Panic PanicNilDeref
                  end) v t
  | KindTuple => encodeTuplePacked encodePacked v t
  | KindString => encodeStringPacked v
  | KindBool => encodeBoolPacked v
  | KindAddress => encodeAddressPacked v
  | KindInt | KindUInt => encodeNumPacked v t
  | KindBytes => encodeBytesPacked v
  | KindFixedBytes | KindFunction => encodeFixedBytesPacked v t
  end.

Definition EncodePacked (v : Value) (t : Type_) : result (list byte) :=
  encodePacked v t.

(* ================================================================== *)
(** * The decoder ([decode_packed.go]) *)

Definition readAddrPacked (b : list byte) : result Value :=
  if negb (length b =? 20)%nat then Err ErrAddrLen
  else Ok (VArray (values_of_bytes (take 20 b))).

(** [b[0]] *)
Definition first_byte (b : list byte) : result Z :=
  match b with
  | x :: _ => Ok (byte_to_Z x)
  | [] => Panic PanicIndex
  end.

Definition readIntegerPacked (t : Type_) (b : list byte) : result Value :=
  match TGoKind t with
  | GoUint8 => n ← first_byte b; Ok (VUint Sz8 n)
  | GoUint16 => n ← BigEndian_Uint 2 b; Ok (VUint Sz16 n)
  | GoUint32 => n ← BigEndian_Uint 4 b; Ok (VUint Sz32 n)
  | GoUint64 => n ← BigEndian_Uint 8 b; Ok (VUint Sz64 n)
  | GoInt8 => n ← first_byte b; Ok (VInt Sz8 (to_signed 8 n))
  | GoInt16 => n ← BigEndian_Uint 2 b; Ok (VInt Sz16 (to_signed 16 n))
  | GoInt32 => n ← BigEndian_Uint 4 b; Ok (VInt Sz32 (to_signed 32 n))
  | GoInt64 => n ← BigEndian_Uint 8 b; Ok (VInt Sz64 (to_signed 64 n))
  | GoOther =>
      let ret := SetBytes b in
      if Kind_eqb (TKind t) KindUInt then Ok (VBigInt ret)
      else if maxInt256 <? ret
           then Ok (VBigInt (- (maxUint256 + - ret + 1)))
           else Ok (VBigInt ret)
  end.

(** [word] is [input[:length]] and shares the backing array of [input]:
    [word[0:24]] reslices it up to the capacity, which is taken to be the
    length of [input], so the function is given [input]. *)
Definition readFunctionTypePacked (t : Type_) (input : list byte) : result Value :=
  if (length input <? 24)%nat then Panic PanicSliceBounds
  else Ok (VArray (values_of_bytes (take 24 input))).

(** The array of [t.GoType()] is the [[Size]byte] the descriptor stands
    for; [word] has [t.Size()] bytes. *)
Definition readFixedBytesPacked (t : Type_) (word : list byte) : result Value :=
  Ok (VArray (values_of_bytes word)).

Definition decodeBoolPacked (data : list byte) : result Value :=
  match data with
  | [] => Panic PanicIndex
  | x :: _ =>
      if byte_to_Z x =? 0 then Ok (VBool false)
      else if byte_to_Z x =? 1 then Ok (VBool true)
      else Err ErrBadBoolean
  end.

(** The length [decodePacked] requires of its input. *)
Definition requiredLength (t : Type_) (input : list byte) : Z :=
  match TKind t with
  | KindSlice | KindBytes | KindString => Z.of_nat (length input)
  | KindBool => 1
  | KindInt | KindUInt => Z.quot (TSize t) 8
  | _ => TSize t
  end.

(** [input[:length]] and [input[length:]] for [length <= len(input)]. *)
Definition slice_to (input : list byte) (length : Z) : result (list byte) :=
  if length <? 0 then Panic PanicSliceBounds else Ok (take (Z.to_nat length) input).

Definition slice_from (input : list byte) (length : Z) : list byte :=
  drop (Z.to_nat length) input.

(** The loop of [decodeArraySlicePacked]: [n] elements, each decoded from
    what the one before left. *)
Fixpoint decodeElems (dec : list byte -> result (Value * list byte))
    (n : nat) (data : list byte) : result (list Value * list byte) :=
  match n with
  | O => Ok ([], data)
  | S k =>
      '(val, tail) ← dec data;
      '(vals, rest) ← decodeElems dec k tail;
      Ok (val :: vals, rest)
  end.

Definition decodeArraySlicePacked
    (decElem : list byte -> result (Value * list byte))
    (t : Type_) (data : list byte) (size : Z) : result (Value * list byte) :=
  if size <? 0 then Err ErrSizeNegative
  else
    match TElem t with
    | None => Panic PanicNilDeref
    | Some et =>
        if Z.of_nat (length data) <? Z.quot (TSize et) 8 * size
        then Err ErrSizeTooBig
        else
          '(vals, rest) ← decodeElems decElem (Z.to_nat size) data;
          Ok (match TKind t with
              | KindSlice => VSlice vals
              | _ => VArray vals
              end, rest)
    end.

(** The loop of [decodeTuplePacked] over [t.TupleElems()], from index
    [indx], with the map [res] built so far. *)
Fixpoint decodeFields (dec : Type_ -> list byte -> result (Value * list byte))
    (indx : nat) (elems : list (string * Type_))
    (res : gmap string Value) (data : list byte)
  : result (Value * list byte) :=
  match elems with
  | [] => Ok (VMap res, data)
  | (name, et) :: rest =>
      '(val, tail) ← dec et data;
      let name := fieldName indx name in
      match res !! name with
      | None => decodeFields dec (S indx) rest (<[name := val]> res) tail
      | Some _ => Err ErrRepeated
      end
  end.

Definition decodeTuplePacked (dec : Type_ -> list byte -> result (Value * list byte))
    (t : Type_) (data : list byte) : result (Value * list byte) :=
  decodeFields dec 0 (TTupleElems t) ∅ data.

(** The element size [decodePacked] divides a slice's input by. *)
Definition sliceElemSize (et : Type_) (length : Z) : Z :=
  let eSize := TSize et in
  let eSize := if eSize =? 0 then length else eSize in
  match TKind et with
  | KindInt | KindUInt => Z.quot eSize 8
  | _ => eSize
  end.

Fixpoint decodePacked (t : Type_) (input : list byte) {struct t}
  : result (Value * list byte) :=
  let length := requiredLength t input in
  if Z.of_nat (List.length input) <? length
  then Err (ErrRequiresLength (TKind t) length (Z.of_nat (List.length input)))
  else
    let decElem := fun data =>
      match TElem t with
      | Some et => decodePacked et data
      | None => Panic PanicNilDeref
      end in
    match TKind t with
    | KindTuple => decodeTuplePacked decodePacked t input
    | KindSlice =>
        match TElem t with
        | None => Panic PanicNilDeref
        | Some et =>
            let eSize := sliceElemSize et length in
            if eSize =? 0 then Panic PanicDivideByZero
            else decodeArraySlicePacked decElem t input (Z.quot length eSize)
        end
    | KindArray => decodeArraySlicePacked decElem t input (TSize t)
    | KindBool =>
        word ← slice_to input length;
        val ← decodeBoolPacked word;
        Ok (val, slice_from input length)
    | KindInt | KindUInt =>
        word ← slice_to input length;
        val ← readIntegerPacked t word;
        Ok (val, slice_from input length)
    | KindString =>
        Ok (VString (string_of_list_byte input), slice_from input length)
    | KindBytes =>
        Ok (VSlice (values_of_bytes input), slice_from input length)
    | KindAddress =>
        word ← slice_to input length;
        val ← readAddrPacked word;
        Ok (val, slice_from input length)
    | KindFixedBytes =>
        word ← slice_to input length;
        val ← readFixedBytesPacked t word;
        Ok (val, slice_from input length)
    | KindFunction =>
        _ ← slice_to input length;
        val ← readFunctionTypePacked t input;
        Ok (val, slice_from input length)
    end.

Definition DecodePacked (t : Type_) (input : list byte) : result Value :=
  if (List.length input =? 0)%nat then Err ErrEmptyInput
  else
    '(val, _) ← decodePacked t input;
    Ok val.

(* ================================================================== *)
(** * Descriptors used in the statements *)

Definition scalarType (k : Kind) (sz : Z) : Type_ :=
  mkType k sz None [] (goKindOf k sz).

Definition uintT (w : Z) : Type_ := scalarType KindUInt w.
Definition intT (w : Z) : Type_ := scalarType KindInt w.
Definition boolT : Type_ := scalarType KindBool 0.
Definition addressT : Type_ := scalarType KindAddress 20.
Definition functionT : Type_ := scalarType KindFunction 24.
Definition fixedBytesT (n : Z) : Type_ := scalarType KindFixedBytes n.
Definition sliceT (et : Type_) : Type_ := mkType KindSlice 0 (Some et) [] GoOther.
Definition arrayT (n : Z) (et : Type_) : Type_ := mkType KindArray n (Some et) [] GoOther.
Definition tupleT (elems : list (string * Type_)) : Type_ :=
  mkType KindTuple 0 None elems GoOther.

(* ================================================================== *)
(** * Notions used in the statements *)

(** The native integer sizes, by bit width. *)
Definition nativeWidth (w : Z) : option IntSize :=
  if w =? 8 then Some Sz8 else if w =? 16 then Some Sz16
  else if w =? 32 then Some Sz32 else if w =? 64 then Some Sz64 else None.

(** The three shapes the byte encoders accept for the bytes [bs]: a byte
    slice, a byte array, a hexadecimal text. *)
Definition holdsBytes (v : Value) (bs : list byte) : Prop :=
  v = VSlice (values_of_bytes bs)
  \/ v = VArray (values_of_bytes bs)
  \/ exists s, v = VString s /\ decodeHex s = Ok bs.

Definition GoKind_eqb (a b : GoKind) : bool :=
  match a, b with
  | GoUint8, GoUint8 | GoUint16, GoUint16 | GoUint32, GoUint32
  | GoUint64, GoUint64 | GoInt8, GoInt8 | GoInt16, GoInt16
  | GoInt32, GoInt32 | GoInt64, GoInt64 | GoOther, GoOther => true
  | _, _ => false
  end.

(** A descriptor as its constructor builds it: integer widths are
    positive multiples of 8 and come with the native type of that width;
    an address has 20 bytes and a function value 24; a fixed byte
    sequence is not empty; an array has a count and an element, a slice an
    element; the kinds without a declared size have [Size() = 0] (which is
    how [decodePacked] recognises them). *)
Fixpoint wellFormed (t : Type_) : bool :=
  match TKind t with
  | KindInt | KindUInt =>
      (0 <? TSize t) && (TSize t mod 8 =? 0)
      && GoKind_eqb (TGoKind t) (goKindOf (TKind t) (TSize t))
  | KindAddress => TSize t =? 20
  | KindFunction => TSize t =? 24
  | KindFixedBytes => 0 <? TSize t
  | KindBool | KindString | KindBytes => TSize t =? 0
  | KindSlice =>
      (TSize t =? 0)
      && match TElem t with Some et => wellFormed et | None => false end
  | KindArray =>
      (0 <=? TSize t)
      && match TElem t with Some et => wellFormed et | None => false end
  | KindTuple =>
      (TSize t =? 0)
      && forallb (fun p => wellFormed (snd p)) (TTupleElems t)
  end.

(** A descriptor with no dynamic kind (slice, bytes, string) in it. *)
Fixpoint static (t : Type_) : bool :=
  match TKind t with
  | KindSlice | KindBytes | KindString => false
  | KindArray => match TElem t with Some et => static et | None => false end
  | KindTuple => forallb (fun p => static (snd p)) (TTupleElems t)
  | _ => true
  end.

(** The "required prefix length by kind" of the specification: Bool 1,
    Int/UInt W/8, Address 20, Function 24, FixedBytes the declared byte
    length, Array the element count times the element's prefix length,
    Tuple the sum over the fields; a dynamic kind takes whatever is left
    and asks for no minimum. *)
Fixpoint prefixLength (t : Type_) : Z :=
  match TKind t with
  | KindBool => 1
  | KindInt | KindUInt => Z.quot (TSize t) 8
  | KindAddress => 20
  | KindFunction => 24
  | KindFixedBytes => TSize t
  | KindArray =>
      match TElem t with
      | Some et => TSize t * prefixLength et
      | None => 0
      end
  | KindTuple =>
      fold_right (fun p acc => prefixLength (snd p) + acc) 0 (TTupleElems t)
  | KindSlice | KindBytes | KindString => 0
  end.

(** The element kinds with a declared size, whose elements take a fixed
    number of bytes (their required prefix length). *)
Definition fixedSizeElem (et : Type_) : bool :=
  match TKind et with
  | KindInt | KindUInt | KindAddress | KindFixedBytes | KindFunction => true
  | _ => false
  end.

(** The five-byte buffer of the slice examples. *)
Definition buffer5 : list byte := [x01; x02; x03; x04; x05].

(** The input shapes of a tuple the statements speak of: ordered (a slice
    or an array) and keyed (a map). *)
Definition tupleInput (v : Value) : bool :=
  match v with
  | VSlice _ | VArray _ | VMap _ => true
  | _ => false
  end.

(** The descriptor and the two keyed inputs of the tuple example, the
    entries inserted in either order. *)
Definition tupleAB : Type_ := tupleT [("a"%string, uintT 8); ("b"%string, boolT)].
Definition keyedAB : Value :=
  VMap (<["b"%string := VBool true]> (<["a"%string := VUint Sz64 1]> ∅)).
Definition keyedBA : Value :=
  VMap (<["a"%string := VUint Sz64 1]> (<["b"%string := VBool true]> ∅)).

(* ================================================================== *)
(** * Normal forms of values *)

(** The integer an accepted numeric input stands for: a native integer,
    a float truncated to [int64], an arbitrary-precision integer, a
    decimal text, or a text whose characters after the first two are
    hexadecimal digits. *)
Definition numericValue (v : Value) : option Z :=
  match v with
  | VUint _ n | VInt _ n | VBigInt n => Some n
  | VFloat64 m e => Some (float_to_int64 m e)
  | VString s =>
      match SetString s 10 with
      | Some n => Some n
      | None =>
          match string_from2 s with
          | Ok s2 => SetString s2 16
          | _ => None
          end
      end
  | _ => None
  end.

Definition arbitraryPrecision (v : Value) : bool :=
  match v with
  | VBigInt _ | VString _ => true
  | _ => false
  end.

(** An integer input at its canonical width and sign: modulo [2^w],
    signed by two's complement for a signed descriptor, as the native
    integer of that width or as an arbitrary-precision integer.  The inputs
    left out are the ones the round trip does not cover: an
    arbitrary-precision input against a width other than 256, and a
    negative result against a signed width that is neither native nor
    256. *)
Definition normalizeInt (t : Type_) (v : Value) : option Value :=
  let w := TSize t in
  n ← numericValue v;
  if arbitraryPrecision v && negb (w =? 256) then None
  else
    match TKind t, nativeWidth w with
    | KindUInt, Some sz => Some (VUint sz (n mod 2 ^ w))
    | KindUInt, None => Some (VBigInt (n mod 2 ^ w))
    | _, Some sz => Some (VInt sz (to_signed w n))
    | _, None =>
        if (w =? 256) || ((w <? 256) && (0 <=? to_signed w n))
        then Some (VBigInt (to_signed w n))
        else None
    end.

(** The fields of a tuple input, resolved in descriptor order and
    normalised, under the names the decoder gives them. *)
Fixpoint normalizeFields (norm : Type_ -> Value -> option Value)
    (v : Value) (i : nat) (elems : list (string * Type_))
  : option (list (string * Value)) :=
  match elems with
  | [] => Some []
  | (name, ft) :: rest =>
      x ← tupleEntry v i name;
      y ← norm ft x;
      kvs ← normalizeFields norm v (S i) rest;
      Some ((fieldName i name, y) :: kvs)
  end.

(** The value a static descriptor gives an input, when the round trip
    covers the input: [true]; an integer at its canonical width and sign;
    the 20 bytes of an address; the bytes of a fixed byte sequence
    followed by zero bytes up to the declared length; the array of the
    normal forms of the elements; the map from the field names, which do
    not collide, to the normal forms of the fields. *)
Fixpoint normalize (t : Type_) (v : Value) {struct t} : option Value :=
  match TKind t with
  | KindBool =>
      match v with
      | VBool true => Some (VBool true)
      | _ => None
      end
  | KindInt | KindUInt => normalizeInt t v
  | KindAddress =>
      match bytes_or_text Address_UnmarshalText v with
      | Ok bs =>
          if (length bs =? 20)%nat then Some (VArray (values_of_bytes bs))
          else None
      | _ => None
      end
  | KindFixedBytes | KindFunction =>
      match bytes_or_text decodeHex v with
      | Ok bs =>
          if Z.of_nat (length bs) <=? TSize t
          then Some (VArray (values_of_bytes (rightPad bs (TSize t))))
          else None
      | _ => None
      end
  | KindArray =>
      match v, TElem t with
      | VArray l, Some et =>
          if TSize t =? Z.of_nat (length l)
          then VArray <$> mapM (normalize et) l
          else None
      | _, _ => None
      end
  | KindTuple =>
      if tupleInput v && (Z.of_nat (length (TTupleElems t)) <=? Value_Len v)
      then
        kvs ← normalizeFields normalize v 0 (TTupleElems t);
        if bool_decide (NoDup kvs.*1) then Some (VMap (list_to_map kvs))
        else None
      else None
  | KindSlice | KindBytes | KindString => None
  end.

(** Every array in the descriptor has elements that take at least one
    byte. *)
Fixpoint positiveElems (t : Type_) : bool :=
  match TKind t with
  | KindArray =>
      match TElem t with
      | Some et => (0 <? prefixLength et) && positiveElems et
      | None => false
      end
  | KindTuple => forallb (fun p => positiveElems (snd p)) (TTupleElems t)
  | _ => true
  end.

(** A tuple descriptor whose second field is named as the first is by
    position. *)
Definition tupleCollision : Type_ :=
  tupleT [(EmptyString, uintT 8); ("0"%string, uintT 8)].

(* ================================================================== *)
(** * Notions used in the further properties *)

(** The slice descriptor with the element of [t]. *)
Definition asSlice (t : Type_) : Type_ :=
  mkType KindSlice (TSize t) (TElem t) (TTupleElems t) (TGoKind t).

(** The values that are neither a sequence nor a text: [v.Bytes()] is not
    defined on them. *)
Definition notByteLike (v : Value) : bool :=
  match v with
  | VSlice _ | VArray _ | VString _ => false
  | _ => true
  end.

(** The native integer values. *)
Definition nativeInteger (v : Value) : option Z :=
  match v with
  | VUint _ n | VInt _ n => Some n
  | _ => None
  end.

(** The names [decodeTuplePacked] files the fields under, from index
    [i]: the declared name, or the decimal index of an unnamed field. *)
Fixpoint fieldNamesFrom (i : nat) (elems : list (string * Type_)) : list string :=
  match elems with
  | [] => []
  | (name, _) :: rest => fieldName i name :: fieldNamesFrom (S i) rest
  end.

Definition fieldNames (t : Type_) : list string :=
  fieldNamesFrom 0 (TTupleElems t).

(** The kinds whose decoding takes the whole buffer as one text or byte
    sequence. *)
Definition takesAll (t : Type_) : bool :=
  match TKind t with
  | KindString | KindBytes => true
  | _ => false
  end.

(** The three kinds read as a fixed number of bytes from the front. *)
Definition fixedByteKind (t : Type_) : bool :=
  match TKind t with
  | KindAddress | KindFixedBytes | KindFunction => true
  | _ => false
  end.

(** The descriptors whose decoded values the encoder takes back at the
    width they were read at: integers of a native width or of 256 bits (an
    arbitrary-precision integer is always encoded on 256 bits), and no
    boolean (the encoder writes no byte for [false]). *)
Fixpoint reencodable (t : Type_) : bool :=
  match TKind t with
  | KindInt | KindUInt =>
      match nativeWidth (TSize t) with
      | Some _ => true
      | None => TSize t =? 256
      end
  | KindBool => false
  | KindSlice | KindArray =>
      match TElem t with Some et => reencodable et | None => false end
  | KindTuple => forallb (fun p => reencodable (snd p)) (TTupleElems t)
  | _ => true
  end.

(** Where field [j] of a tuple starts in the buffer: the sum of the
    required prefix lengths of the fields before it. *)
Definition fieldOffset (t : Type_) (j : nat) : Z :=
  fold_right (fun p acc => prefixLength (snd p) + acc) 0
    (take j (TTupleElems t)).

(* ================================================================== *)
(** * Bytes and big-endian numbers *)

Lemma byte_to_Z_range (b : byte) : 0 <= byte_to_Z b < 256.
Proof.
  unfold byte_to_Z. pose proof (Byte.to_N_bounded b) as H. lia.
Qed.

Lemma byte_of_to_Z (b : byte) : byte_of_Z (byte_to_Z b) = b.
Proof.
  unfold byte_of_Z. pose proof (byte_to_Z_range b) as H.
  rewrite Z.mod_small by lia. unfold byte_to_Z.
  rewrite N2Z.id, Byte.of_to_N. reflexivity.
Qed.

Lemma byte_to_of_Z (z : Z) : byte_to_Z (byte_of_Z z) = z mod 256.
Proof.
  unfold byte_of_Z, byte_to_Z.
  pose proof (Z.mod_pos_bound z 256 ltac:(lia)) as Hb.
  destruct (Byte.of_N (Z.to_N (z mod 256))) as [b|] eqn:E.
  - apply Byte.to_of_N in E. rewrite E. lia.
  - apply Byte.of_N_None_iff in E. lia.
Qed.

Lemma be_digits_length (len : nat) (n : Z) : length (be_digits len n) = len.
Proof.
  revert n. induction len as [|k IH]; intros n; simpl; [reflexivity|].
  rewrite length_app, IH. simpl. lia.
Qed.

Lemma SetBytes_app (a b : list byte) :
  SetBytes (a ++ b) = SetBytes a * 256 ^ Z.of_nat (length b) + SetBytes b.
Proof.
  unfold SetBytes. rewrite fold_left_app.
  generalize (fold_left (fun acc x => acc * 256 + byte_to_Z x) a 0) as hi.
  induction b as [|x b IH]; intros hi; simpl fold_left.
  - simpl. lia.
  - rewrite IH, (IH (0 * 256 + byte_to_Z x)).
    replace (Z.of_nat (length (x :: b))) with (Z.succ (Z.of_nat (length b)))
      by (simpl length; lia).
    rewrite Z.pow_succ_r by lia. lia.
Qed.

Lemma SetBytes_singleton (x : byte) : SetBytes [x] = byte_to_Z x.
Proof. unfold SetBytes. simpl. reflexivity. Qed.

Lemma SetBytes_snoc (b : list byte) (x : byte) :
  SetBytes (b ++ [x]) = SetBytes b * 256 + byte_to_Z x.
Proof.
  rewrite SetBytes_app, SetBytes_singleton. simpl length.
  change (256 ^ Z.of_nat 1) with 256. reflexivity.
Qed.

Lemma SetBytes_range (b : list byte) :
  0 <= SetBytes b < 256 ^ Z.of_nat (length b).
Proof.
  induction b as [|x b IH] using rev_ind.
  - unfold SetBytes. simpl. lia.
  - rewrite SetBytes_snoc, length_app. simpl length.
    replace (Z.of_nat (length b + 1)) with (Z.succ (Z.of_nat (length b))) by lia.
    rewrite Z.pow_succ_r by lia.
    pose proof (byte_to_Z_range x). nia.
Qed.

(** Reading back [len] big-endian digits gives the number modulo
    [256^len]. *)
Lemma SetBytes_be_digits (len : nat) (n : Z) :
  SetBytes (be_digits len n) = n mod 256 ^ Z.of_nat len.
Proof.
  revert n. induction len as [|k IH]; intros n.
  - simpl. unfold SetBytes. simpl. rewrite Z.mod_1_r. reflexivity.
  - simpl be_digits. rewrite SetBytes_snoc, IH, byte_to_of_Z.
    replace (Z.of_nat (S k)) with (Z.succ (Z.of_nat k)) by lia.
    rewrite Z.pow_succ_r by lia.
    rewrite Z.rem_mul_r by lia. lia.
Qed.

(** Digits beyond the size of the number are zero bytes in front. *)
Lemma be_digits_pad (k j : nat) (n : Z) :
  0 <= n < 256 ^ Z.of_nat k ->
  be_digits (j + k) n = replicate j x00 ++ be_digits k n.
Proof.
  revert n. induction k as [|k IH]; intros n Hn.
  - simpl in Hn. assert (n = 0) as -> by lia. rewrite Nat.add_0_r. simpl.
    rewrite app_nil_r. clear. induction j as [|j IH]; [reflexivity|].
    simpl be_digits. rewrite Zdiv_0_l, IH.
    change (byte_of_Z 0) with x00.
    change (replicate (S j) x00) with (x00 :: replicate j x00).
    clear. induction j; simpl; [reflexivity|]. f_equal. assumption.
  - replace (j + S k)%nat with (S (j + k)) by lia. simpl be_digits.
    rewrite IH, app_assoc; [reflexivity|].
    replace (Z.of_nat (S k)) with (Z.succ (Z.of_nat k)) in Hn by lia.
    rewrite Z.pow_succ_r in Hn by lia.
    split; [apply Z.div_pos; lia|].
    apply Z.div_lt_upper_bound; lia.
Qed.

Lemma BitLen_nonneg (n : Z) : 0 <= BitLen n.
Proof.
  unfold BitLen. destruct (n =? 0); [lia|].
  pose proof (Z.log2_nonneg (Z.abs n)). lia.
Qed.

Lemma BitLen_bound (n : Z) : Z.abs n < 2 ^ BitLen n.
Proof.
  unfold BitLen. destruct (Z.eqb_spec n 0) as [->|Hn]; [simpl; lia|].
  apply Z.log2_spec. lia.
Qed.

Lemma BitLen_lower (n : Z) : n <> 0 -> 2 ^ (BitLen n - 1) <= Z.abs n.
Proof.
  intros Hn. unfold BitLen. destruct (Z.eqb_spec n 0); [contradiction|].
  replace (Z.log2 (Z.abs n) + 1 - 1) with (Z.log2 (Z.abs n)) by lia.
  apply Z.log2_spec. lia.
Qed.

Lemma pow256 (k : Z) : 0 <= k -> 256 ^ k = 2 ^ (8 * k).
Proof. intros Hk. rewrite Z.pow_mul_r by lia. reflexivity. Qed.

(** [Bytes] is long enough for the absolute value. *)
Lemma Bytes_fits (n : Z) :
  Z.abs n < 256 ^ Z.of_nat (length (Bytes n)).
Proof.
  unfold Bytes. rewrite be_digits_length.
  pose proof (BitLen_nonneg n) as H0. pose proof (BitLen_bound n) as H1.
  rewrite Z2Nat.id by (apply Z.div_pos; lia).
  rewrite pow256 by (apply Z.div_pos; lia).
  eapply Z.lt_le_trans; [exact H1|].
  apply Z.pow_le_mono_r; [lia|].
  pose proof (Z.mul_div_le (BitLen n + 7) 8 ltac:(lia)).
  pose proof (Z.mod_pos_bound (BitLen n + 7) 8 ltac:(lia)).
  pose proof (Z.div_mod (BitLen n + 7) 8 ltac:(lia)). lia.
Qed.

Lemma SetBytes_Bytes (n : Z) : SetBytes (Bytes n) = Z.abs n.
Proof.
  pose proof (Bytes_fits n) as H. unfold Bytes in *.
  rewrite SetBytes_be_digits. rewrite be_digits_length in H.
  apply Z.mod_small. lia.
Qed.

(** [Bytes] never starts with a zero byte: for no integer is it the
    single byte 0x00. *)
Lemma Bytes_never_single_zero (n : Z) : Bytes n <> [x00].
Proof.
  intros H. pose proof (SetBytes_Bytes n) as Hs. rewrite H in Hs.
  rewrite SetBytes_singleton in Hs. change (byte_to_Z x00) with 0 in Hs.
  assert (n = 0) as -> by lia. discriminate H.
Qed.

(* ================================================================== *)
(** * Integers: [toUSize] *)

Lemma BitLen_le (b W : Z) : 0 <= b < 2 ^ W -> 0 <= W -> BitLen b <= W.
Proof.
  intros Hb HW. destruct (Z.eq_dec b 0) as [->|Hne]; [exact HW|].
  pose proof (BitLen_lower b Hne) as Hl. pose proof (BitLen_nonneg b).
  rewrite Z.abs_eq in Hl by lia.
  destruct (Z.le_gt_cases (BitLen b) W) as [|Hgt]; [assumption|].
  assert (2 ^ W <= 2 ^ (BitLen b - 1)) by (apply Z.pow_le_mono_r; lia). lia.
Qed.

(** The value [toUSize] writes is the input reduced modulo [2^size]. *)
Lemma toUSize_reduced (n size : Z) :
  0 <= size ->
  (if (n <? 0) || (size <? BitLen n)
   then Z.land n (Z.shiftl 1 size - 1) else n) = n mod 2 ^ size.
Proof.
  intros Hs.
  destruct ((n <? 0) || (size <? BitLen n)) eqn:E.
  - rewrite Z.shiftl_1_l, Z.sub_1_r, <- Z.ones_equiv. apply Z.land_ones; lia.
  - apply orb_false_iff in E as [E1 E2].
    apply Z.ltb_ge in E1, E2. pose proof (BitLen_bound n) as Hb.
    rewrite Z.abs_eq in Hb by lia. symmetry. apply Z.mod_small. split; [lia|].
    eapply Z.lt_le_trans; [exact Hb|]. apply Z.pow_le_mono_r; lia.
Qed.

(** For a width that is a multiple of 8, [toUSize n W] is [n mod 2^W] on
    exactly [W/8] bytes, big-endian, zero bytes in front. *)
Lemma toUSize_spec (n W : Z) :
  0 <= W -> W mod 8 = 0 ->
  toUSize n W = be_digits (Z.to_nat (W / 8)) (n mod 2 ^ W).
Proof.
  intros HW H8. unfold toUSize. rewrite toUSize_reduced by assumption.
  set (b := n mod 2 ^ W).
  assert (0 <= b < 2 ^ W) as Hb by (apply Z.mod_pos_bound; lia).
  rewrite Z.quot_div_nonneg by lia.
  pose proof (BitLen_le b W Hb HW) as Hle. pose proof (BitLen_nonneg b) as H0.
  pose proof (Bytes_fits b) as Hfit. unfold Bytes in *.
  rewrite be_digits_length in Hfit. rewrite Z.abs_eq in * by lia.
  set (k := Z.to_nat ((BitLen b + 7) / 8)) in *.
  assert (k <= Z.to_nat (W / 8))%nat as Hk.
  { subst k. apply Z2Nat.inj_le; [apply Z.div_pos; lia|apply Z.div_pos; lia|].
    pose proof (Z.div_mod W 8 ltac:(lia)).
    replace (W / 8) with ((W + 7) / 8).
    - apply Z.div_le_mono; lia.
    - replace (W + 7) with (7 + W / 8 * 8) by lia.
      rewrite Z.div_add by lia. reflexivity. }
  unfold leftPad. rewrite be_digits_length, <- be_digits_pad by lia.
  f_equal. lia.
Qed.

Lemma toUSize_length (n W : Z) :
  0 <= W -> W mod 8 = 0 -> Z.of_nat (length (toUSize n W)) = W / 8.
Proof.
  intros HW H8. rewrite toUSize_spec, be_digits_length by assumption.
  apply Z2Nat.id. apply Z.div_pos; lia.
Qed.

(** Read back as an unsigned number, the output of [toUSize] is the
    input modulo [2^W]. *)
Lemma SetBytes_toUSize (n W : Z) :
  0 <= W -> W mod 8 = 0 -> SetBytes (toUSize n W) = n mod 2 ^ W.
Proof.
  intros HW H8. rewrite toUSize_spec, SetBytes_be_digits by assumption.
  rewrite Z2Nat.id by (apply Z.div_pos; lia).
  rewrite pow256 by (apply Z.div_pos; lia).
  replace (8 * (W / 8)) with W
    by (pose proof (Z.div_mod W 8 ltac:(lia)); lia).
  apply Z.mod_mod. apply Z.pow_nonzero; lia.
Qed.

(** The native integer shapes and the float are encoded as the claim on
    integers says: modulo [2^W], on [W/8] bytes. *)
Lemma encodeNumPacked_native (v : Value) (t : Type_) (n : Z) :
  match v with
  | VUint _ x | VInt _ x => n = x
  | VFloat64 m e => n = float_to_int64 m e
  | _ => False
  end ->
  0 <= TSize t -> TSize t mod 8 = 0 ->
  encodeNumPacked v t
  = Ok (be_digits (Z.to_nat (TSize t / 8)) (n mod 2 ^ TSize t)).
Proof.
  intros Hv HW H8.
  destruct v; try contradiction; subst n; simpl;
    rewrite toUSize_spec by assumption; reflexivity.
Qed.

(** An arbitrary-precision integer, and a text (which is parsed to one),
    is encoded on the 256 bits the call site passes, whatever the width
    the descriptor declares. *)
Lemma encodeNumPacked_bigint (n : Z) (t : Type_) :
  encodeNumPacked (VBigInt n) t = Ok (be_digits 32 (n mod 2 ^ 256)).
Proof.
  unfold encodeNumPacked, encodeNumPacked_direct.
  rewrite toUSize_spec by (first [lia | reflexivity]). reflexivity.
Qed.

Lemma encodeNumPacked_decimal_text (s : string) (n : Z) (t : Type_) :
  SetString s 10 = Some n ->
  encodeNumPacked (VString s) t = Ok (be_digits 32 (n mod 2 ^ 256)).
Proof.
  intros Hs. unfold encodeNumPacked. rewrite Hs.
  exact (encodeNumPacked_bigint n t).
Qed.

(** C1. On an arbitrary-precision integer the encoder ignores the declared
    width: [big.NewInt(1)] against an unsigned 8-bit descriptor gives 32
    bytes, not the single byte 0x01 of the claim; the decimal text "1"
    gives the same 32 bytes, while the native integer 1 gives the one
    byte. *)
Theorem C1_bigint_ignores_declared_width :
  EncodePacked (VBigInt 1) (uintT 8) = Ok (replicate 31 x00 ++ [x01])
  /\ EncodePacked (VString "1") (uintT 8) = Ok (replicate 31 x00 ++ [x01])
  /\ EncodePacked (VUint Sz64 1) (uintT 8) = Ok [x01].
Proof. repeat split; vm_compute; reflexivity. Qed.

(* ================================================================== *)
(** * Booleans *)

(** C2. Encoding [true] gives the byte 0x01, but encoding [false] gives
    the empty byte sequence, not the byte 0x00: [Bytes()] of a big integer
    has no leading zero byte, so for zero it is empty. *)
Theorem C2_false_encodes_to_no_byte :
  EncodePacked (VBool true) boolT = Ok [x01]
  /\ EncodePacked (VBool false) boolT = Ok [].
Proof. split; vm_compute; reflexivity. Qed.

(** Whatever integer the package constant [zero] holds, its [Bytes()] is
    not the byte 0x00. *)
Lemma encodeBoolPacked_false_not_zero_byte :
  encodeBoolPacked (VBool false) <> Ok [x00].
Proof.
  simpl. intros H. injection H as H.
  exact (Bytes_never_single_zero zero H).
Qed.

(* ================================================================== *)
(** * Numeric text *)

(** C9. A text of fewer than two characters that is not a decimal number
    makes the encoder panic on [v.String()[2:]] (slice bounds out of
    range) instead of returning an error: the text "x" and the empty text
    do. *)
Theorem C9_short_text_panics :
  EncodePacked (VString "x") (uintT 8) = Panic PanicSliceBounds
  /\ EncodePacked (VString EmptyString) (uintT 8) = Panic PanicSliceBounds.
Proof. split; vm_compute; reflexivity. Qed.

(** The same for every descriptor and every such text. *)
Lemma encodeNumPacked_short_text (s : string) (t : Type_) :
  (String.length s < 2)%nat -> SetString s 10 = None ->
  encodeNumPacked (VString s) t = Panic PanicSliceBounds.
Proof.
  intros Hlen Hs. simpl. rewrite Hs.
  destruct s as [|a [|b s]]; simpl in *; [reflexivity|reflexivity|lia].
Qed.

(** With two characters or more the branch does return: an error exactly
    when what follows the first two characters is not a hexadecimal
    number, whatever these two characters are. *)
Lemma encodeNumPacked_long_text (a b : ascii) (s : string) (t : Type_) :
  SetString (String a (String b s)) 10 = None ->
  encodeNumPacked (VString (String a (String b s))) t
  = match SetString s 16 with
    | Some n => Ok (toUSize n 256)
    | None => Err (ErrEncode "number")
    end.
Proof. intros Hs. unfold encodeNumPacked. rewrite Hs. reflexivity. Qed.

(* ================================================================== *)
(** * Integers: [readIntegerPacked] *)

Lemma to_signed_spec (w m : Z) :
  0 < w -> 0 <= m < 2 ^ w ->
  to_signed w m = if 2 ^ (w - 1) - 1 <? m then m - 2 ^ w else m.
Proof.
  intros Hw Hm. unfold to_signed. rewrite Z.mod_small by lia.
  destruct (Z.ltb_spec m (2 ^ (w - 1))), (Z.ltb_spec (2 ^ (w - 1) - 1) m);
    lia.
Qed.

Lemma BigEndian_Uint_exact (n : nat) (b : list byte) :
  length b = n -> BigEndian_Uint n b = Ok (SetBytes b).
Proof.
  intros H. unfold BigEndian_Uint.
  destruct (Nat.ltb_spec (length b) n); [lia|].
  rewrite <- H, firstn_all. reflexivity.
Qed.

(** On the four native widths the decoder returns the fixed-width
    integer, negative by two's complement for a signed descriptor. *)
Lemma readIntegerPacked_native (w : Z) (sz : IntSize) (b : list byte) :
  nativeWidth w = Some sz -> Z.of_nat (length b) = w / 8 ->
  readIntegerPacked (scalarType KindUInt w) b = Ok (VUint sz (SetBytes b))
  /\ readIntegerPacked (scalarType KindInt w) b
     = Ok (VInt sz (if 2 ^ (w - 1) - 1 <? SetBytes b
                    then SetBytes b - 2 ^ w else SetBytes b)).
Proof.
  intros Hw Hlen. pose proof (SetBytes_range b) as Hr.
  assert (0 < w /\ w mod 8 = 0) as [Hpos H8].
  { unfold nativeWidth in Hw.
    destruct (Z.eqb_spec w 8) as [->|]; [split; [lia|reflexivity]|].
    destruct (Z.eqb_spec w 16) as [->|]; [split; [lia|reflexivity]|].
    destruct (Z.eqb_spec w 32) as [->|]; [split; [lia|reflexivity]|].
    destruct (Z.eqb_spec w 64) as [->|]; [split; [lia|reflexivity]|].
    discriminate. }
  assert (0 <= SetBytes b < 2 ^ w) as Hr'.
  { rewrite Hlen, pow256 in Hr by (apply Z.div_pos; lia).
    replace (8 * (w / 8)) with w in Hr
      by (pose proof (Z.div_mod w 8 ltac:(lia)); lia).
    exact Hr. }
  rewrite <- (to_signed_spec w) by assumption.
  unfold nativeWidth in Hw. unfold readIntegerPacked, scalarType, goKindOf.
  simpl TGoKind.
  destruct (Z.eqb_spec w 8) as [->|].
  { injection Hw as <-. change (8 / 8) with 1 in Hlen.
    destruct b as [|x [|y b]]; simpl length in Hlen; try lia.
    simpl first_byte. rewrite SetBytes_singleton. split; reflexivity. }
  destruct (Z.eqb_spec w 16) as [->|].
  { injection Hw as <-. change (16 / 8) with 2 in Hlen.
    rewrite (BigEndian_Uint_exact 2) by lia. split; reflexivity. }
  destruct (Z.eqb_spec w 32) as [->|].
  { injection Hw as <-. change (32 / 8) with 4 in Hlen.
    rewrite (BigEndian_Uint_exact 4) by lia. split; reflexivity. }
  destruct (Z.eqb_spec w 64) as [->|]; [|discriminate].
  injection Hw as <-. change (64 / 8) with 8 in Hlen.
  rewrite (BigEndian_Uint_exact 8) by lia. split; reflexivity.
Qed.

(** On every other width the decoder returns an arbitrary-precision
    integer; for a signed descriptor it is negated against 2^256, the
    constants of the comparison not depending on the width: below 32
    bytes the result is the unsigned magnitude itself. *)
Lemma readIntegerPacked_other (k : Kind) (w : Z) (b : list byte) :
  nativeWidth w = None -> (k = KindInt \/ k = KindUInt) ->
  readIntegerPacked (scalarType k w) b
  = Ok (VBigInt (if Kind_eqb k KindUInt then SetBytes b
                 else if 2 ^ 255 - 1 <? SetBytes b
                      then SetBytes b - 2 ^ 256 else SetBytes b)).
Proof.
  intros Hw Hk. unfold readIntegerPacked, scalarType, goKindOf; simpl TGoKind.
  unfold nativeWidth in Hw.
  destruct (w =? 8); [discriminate|]. destruct (w =? 16); [discriminate|].
  destruct (w =? 32); [discriminate|]. destruct (w =? 64); [discriminate|].
  destruct Hk as [-> | ->]; simpl; [|reflexivity].
  unfold maxInt256, maxUint256.
  destruct (2 ^ 255 - 1 <? SetBytes b); do 2 f_equal; lia.
Qed.

Lemma readIntegerPacked_signed_below_256 (w : Z) (b : list byte) :
  nativeWidth w = None -> (length b < 32)%nat ->
  readIntegerPacked (scalarType KindInt w) b = Ok (VBigInt (SetBytes b))
  /\ 0 <= SetBytes b.
Proof.
  intros Hw Hlen. rewrite (readIntegerPacked_other KindInt) by auto.
  pose proof (SetBytes_range b) as Hr. simpl Kind_eqb. cbv iota.
  assert (256 ^ Z.of_nat (length b) <= 256 ^ 31)
    by (apply Z.pow_le_mono_r; lia).
  assert (256 ^ 31 <= 2 ^ 255 - 1) by (vm_compute; discriminate).
  destruct (Z.ltb_spec (2 ^ 255 - 1) (SetBytes b)); [lia|]. split; [reflexivity|lia].
Qed.

(** C4. A signed descriptor of a width that is not native and not 256 is
    never decoded to a negative value: the three bytes 0xFF 0xFF 0xFF
    against a signed 24-bit descriptor give 16777215, not 16777215 - 2^24
    = -1, while 0xFF against a signed 8-bit descriptor gives -1. *)
Theorem C4_signed_int24_not_negative :
  decodePacked (intT 24) [xff; xff; xff] = Ok (VBigInt 16777215, [])
  /\ DecodePacked (intT 24) [xff; xff; xff] = Ok (VBigInt 16777215)
  /\ DecodePacked (intT 8) [xff] = Ok (VInt Sz8 (-1)).
Proof. repeat split; vm_compute; reflexivity. Qed.

(* ================================================================== *)
(** * Byte sequences of fixed length *)

Lemma bytes_of_values_of_bytes (bs : list byte) :
  bytes_of_values (values_of_bytes bs) = Ok bs.
Proof.
  induction bs as [|x bs IH]; [reflexivity|].
  change (values_of_bytes (x :: bs))
    with (VUint Sz8 (byte_to_Z x) :: values_of_bytes bs).
  cbn [bytes_of_values]. rewrite IH. simpl.
  rewrite byte_of_to_Z. reflexivity.
Qed.

Lemma bytes_or_text_holds (v : Value) (bs : list byte) :
  holdsBytes v bs -> bytes_or_text decodeHex v = Ok bs.
Proof.
  intros [-> | [-> | (s & -> & Hs)]]; unfold bytes_or_text; simpl.
  - apply bytes_of_values_of_bytes.
  - apply bytes_of_values_of_bytes.
  - exact Hs.
Qed.

(** C8. A fixed byte sequence and a function value are encoded as the
    input bytes followed by zero bytes up to the declared length (24 for
    the function descriptor); 0x01 0x02 on four bytes is 0x01 0x02 0x00
    0x00, while the integer 1 on two bytes has its zero byte in front. *)
Theorem C8_fixed_bytes_right_padded :
  (forall (t : Type_) (v : Value) (bs : list byte),
      TKind t = KindFixedBytes \/ TKind t = KindFunction ->
      holdsBytes v bs ->
      Z.of_nat (length bs) <= TSize t ->
      exists out,
        EncodePacked v t = Ok out
        /\ out = bs ++ replicate (Z.to_nat (TSize t) - length bs) x00
        /\ Z.of_nat (length out) = TSize t)
  /\ EncodePacked (VSlice [VUint Sz8 1; VUint Sz8 2]) functionT
     = Ok ([x01; x02] ++ replicate 22 x00)
  /\ EncodePacked (VSlice [VUint Sz8 1; VUint Sz8 2]) (fixedBytesT 4)
     = Ok [x01; x02; x00; x00]
  /\ EncodePacked (VUint Sz16 1) (uintT 16) = Ok [x00; x01].
Proof.
  split; [|repeat split; vm_compute; reflexivity].
  intros t v bs Hk Hv Hlen.
  exists (bs ++ replicate (Z.to_nat (TSize t) - length bs) x00).
  split; [|split; [reflexivity|]].
  - unfold EncodePacked. destruct t as [k sz el tup gk]. simpl in *.
    destruct Hk as [-> | ->]; simpl; unfold encodeFixedBytesPacked;
      rewrite (bytes_or_text_holds v bs Hv); reflexivity.
  - rewrite length_app, length_replicate. lia.
Qed.

Lemma C8_witness :
  exists out,
    EncodePacked (VString "0x0102") functionT = Ok out
    /\ out = [x01; x02] ++ replicate (Z.to_nat (TSize functionT) - 2) x00
    /\ Z.of_nat (length out) = TSize functionT.
Proof.
  apply (proj1 C8_fixed_bytes_right_padded functionT (VString "0x0102") [x01; x02]).
  - right. reflexivity.
  - right. right. exists "0x0102"%string. split; reflexivity.
  - vm_compute. discriminate.
Defined.

(* ================================================================== *)
(** * Induction on descriptors *)

Lemma Type_induction (P : Type_ -> Prop) :
  (forall k sz el tup gk,
      (forall et, el = Some et -> P et) ->
      Forall (fun p => P (snd p)) tup ->
      P (mkType k sz el tup gk)) ->
  forall t, P t.
Proof.
  intros H. fix IH 1. intros [k sz el tup gk]. apply H.
  - intros et Hel. destruct el as [et'|]; [|discriminate].
    injection Hel as <-. apply IH.
  - revert tup. fix IHl 1. intros [|[name ft] tup].
    + constructor.
    + constructor; [apply IH|apply IHl].
Qed.

Lemma decodePacked_eq (t : Type_) (input : list byte) :
  decodePacked t input =
  let length := requiredLength t input in
  if Z.of_nat (List.length input) <? length
  then Err (ErrRequiresLength (TKind t) length (Z.of_nat (List.length input)))
  else
    let decElem := fun data =>
      match TElem t with
      | Some et => decodePacked et data
      | None => Panic PanicNilDeref
      end in
    match TKind t with
    | KindTuple => decodeTuplePacked decodePacked t input
    | KindSlice =>
        match TElem t with
        | None => Panic PanicNilDeref
        | Some et =>
            let eSize := sliceElemSize et length in
            if eSize =? 0 then Panic PanicDivideByZero
            else decodeArraySlicePacked decElem t input (Z.quot length eSize)
        end
    | KindArray => decodeArraySlicePacked decElem t input (TSize t)
    | KindBool =>
        word ← slice_to input length;
        val ← decodeBoolPacked word;
        Ok (val, slice_from input length)
    | KindInt | KindUInt =>
        word ← slice_to input length;
        val ← readIntegerPacked t word;
        Ok (val, slice_from input length)
    | KindString =>
        Ok (VString (string_of_list_byte input), slice_from input length)
    | KindBytes =>
        Ok (VSlice (values_of_bytes input), slice_from input length)
    | KindAddress =>
        word ← slice_to input length;
        val ← readAddrPacked word;
        Ok (val, slice_from input length)
    | KindFixedBytes =>
        word ← slice_to input length;
        val ← readFixedBytesPacked t word;
        Ok (val, slice_from input length)
    | KindFunction =>
        _ ← slice_to input length;
        val ← readFunctionTypePacked t input;
        Ok (val, slice_from input length)
    end.
Proof. destruct t; reflexivity. Qed.

Lemma encodePacked_eq (v : Value) (t : Type_) :
  encodePacked v t =
  match TKind t with
  | KindSlice | KindArray =>
      encodeSliceAndArrayPacked
        (fun x => match TElem t with
                  | Some et => encodePacked x et
                  | None => Panic PanicNilDeref
                  end) v t
  | KindTuple => encodeTuplePacked encodePacked v t
  | KindString => encodeStringPacked v
  | KindBool => encodeBoolPacked v
  | KindAddress => encodeAddressPacked v
  | KindInt | KindUInt => encodeNumPacked v t
  | KindBytes => encodeBytesPacked v
  | KindFixedBytes | KindFunction => encodeFixedBytesPacked v t
  end.
Proof. destruct t; reflexivity. Qed.

(** Inversion of a successful bind. *)
Lemma bind_Ok {A B : Type} (r : result A) (k : A -> result B) (b : B) :
  r ≫= k = Ok b -> exists a, r = Ok a /\ k a = Ok b.
Proof. destruct r as [a| |]; simpl; intros H; [eauto|discriminate..]. Qed.

Ltac inv_bind H :=
  let a := fresh "a" in
  let Ha := fresh "Ha" in
  apply bind_Ok in H; destruct H as (a & Ha & H).

Lemma slice_to_Ok (input word : list byte) (n : Z) :
  slice_to input n = Ok word -> 0 <= n /\ word = take (Z.to_nat n) input.
Proof.
  unfold slice_to. destruct (Z.ltb_spec n 0); [discriminate|].
  intros E. injection E as <-. split; [lia|reflexivity].
Qed.

(* ================================================================== *)
(** * How much a successful decoding consumes *)

Lemma wellFormed_eq (t : Type_) :
  wellFormed t =
  match TKind t with
  | KindInt | KindUInt =>
      (0 <? TSize t) && (TSize t mod 8 =? 0)
      && GoKind_eqb (TGoKind t) (goKindOf (TKind t) (TSize t))
  | KindAddress => TSize t =? 20
  | KindFunction => TSize t =? 24
  | KindFixedBytes => 0 <? TSize t
  | KindBool | KindString | KindBytes => TSize t =? 0
  | KindSlice =>
      (TSize t =? 0)
      && match TElem t with Some et => wellFormed et | None => false end
  | KindArray =>
      (0 <=? TSize t)
      && match TElem t with Some et => wellFormed et | None => false end
  | KindTuple =>
      (TSize t =? 0)
      && forallb (fun p => wellFormed (snd p)) (TTupleElems t)
  end.
Proof. destruct t; reflexivity. Qed.

Lemma static_eq (t : Type_) :
  static t =
  match TKind t with
  | KindSlice | KindBytes | KindString => false
  | KindArray => match TElem t with Some et => static et | None => false end
  | KindTuple => forallb (fun p => static (snd p)) (TTupleElems t)
  | _ => true
  end.
Proof. destruct t; reflexivity. Qed.

Lemma prefixLength_eq (t : Type_) :
  prefixLength t =
  match TKind t with
  | KindBool => 1
  | KindInt | KindUInt => Z.quot (TSize t) 8
  | KindAddress => 20
  | KindFunction => 24
  | KindFixedBytes => TSize t
  | KindArray =>
      match TElem t with
      | Some et => TSize t * prefixLength et
      | None => 0
      end
  | KindTuple =>
      fold_right (fun p acc => prefixLength (snd p) + acc) 0 (TTupleElems t)
  | KindSlice | KindBytes | KindString => 0
  end.
Proof. destruct t; reflexivity. Qed.

Lemma slice_from_length (input : list byte) (n : Z) :
  0 <= n <= Z.of_nat (length input) ->
  Z.of_nat (length (slice_from input n)) = Z.of_nat (length input) - n.
Proof. intros H. unfold slice_from. rewrite length_drop. lia. Qed.

Section ElementLoop.

(** The loop over the elements of an array or slice, for an element
    decoder [dec] that takes at least [p] bytes whenever it succeeds. *)
Variable dec : list byte -> result (Value * list byte).
Variable p : Z.
Hypothesis dec_min :
  forall data v rest, dec data = Ok (v, rest) ->
    0 <= p /\ Z.of_nat (length rest) + p <= Z.of_nat (length data).

Lemma decodeElems_min (n : nat) (data : list byte) (vals : list Value)
    (rest : list byte) :
  decodeElems dec n data = Ok (vals, rest) ->
  0 <= Z.of_nat n * p
  /\ Z.of_nat (length rest) + Z.of_nat n * p <= Z.of_nat (length data)
  /\ length vals = n.
Proof.
  revert data vals rest. induction n as [|k IH]; intros data vals rest H.
  - simpl in H. injection H as <- <-. simpl. lia.
  - simpl in H. inv_bind H. destruct a as [val tail].
    inv_bind H. destruct a as [vals' rest']. injection H as <- <-.
    apply dec_min in Ha. apply IH in Ha0. simpl length. nia.
Qed.

End ElementLoop.

Lemma decodeFields_min (dec : Type_ -> list byte -> result (Value * list byte))
    (elems : list (string * Type_)) :
  Forall (fun p => forall data v rest, dec (snd p) data = Ok (v, rest) ->
            0 <= prefixLength (snd p)
            /\ Z.of_nat (length rest) + prefixLength (snd p)
               <= Z.of_nat (length data)) elems ->
  forall indx res data v rest,
    decodeFields dec indx elems res data = Ok (v, rest) ->
    let total := fold_right (fun p acc => prefixLength (snd p) + acc) 0 elems in
    0 <= total /\ Z.of_nat (length rest) + total <= Z.of_nat (length data).
Proof.
  induction 1 as [|[name ft] elems Hft _ IH]; intros indx res data v rest H.
  - simpl in H. injection H as <- <-. simpl. lia.
  - simpl in H. inv_bind H. destruct a as [val tail].
    destruct (res !! fieldName indx name); [discriminate|].
    apply Hft in Ha. apply IH in H. simpl in *. lia.
Qed.

(** A successful decoding against a well-formed descriptor leaves at
    least the required prefix length less than it was given. *)
Lemma decodePacked_min_length (t : Type_) :
  wellFormed t = true ->
  forall input v rest,
    decodePacked t input = Ok (v, rest) ->
    0 <= prefixLength t
    /\ Z.of_nat (length rest) + prefixLength t <= Z.of_nat (length input).
Proof.
  induction t as [k sz el tup gk IHel IHtup] using Type_induction.
  intros Hwf input v rest H.
  rewrite wellFormed_eq in Hwf. rewrite prefixLength_eq.
  rewrite decodePacked_eq in H. cbv zeta in H.
  unfold requiredLength in H. simpl TKind in *. simpl TSize in *.
  simpl TElem in *. simpl TTupleElems in *.
  destruct (Z.ltb_spec (Z.of_nat (length input))
              (match k with
               | KindString | KindSlice | KindBytes => Z.of_nat (length input)
               | KindBool => 1
               | KindUInt | KindInt => Z.quot sz 8
               | _ => sz
               end)) as [|Hlen]; [discriminate|].
  destruct k.
  - (* Bool *)
    inv_bind H. inv_bind H. injection H as <- <-.
    rewrite slice_from_length by lia. lia.
  - (* UInt *)
    inv_bind H. apply slice_to_Ok in Ha as [H0 ->].
    inv_bind H. injection H as <- <-. rewrite slice_from_length by lia. lia.
  - (* Int *)
    inv_bind H. apply slice_to_Ok in Ha as [H0 ->].
    inv_bind H. injection H as <- <-. rewrite slice_from_length by lia. lia.
  - (* String *)
    injection H as <- <-. pose proof (Nat2Z.is_nonneg (length (slice_from input (Z.of_nat (length input))))).
    rewrite slice_from_length by lia. lia.
  - (* Array *)
    apply andb_true_iff in Hwf as [Hsz Hwf]. apply Z.leb_le in Hsz.
    destruct el as [et|]; [|discriminate].
    unfold decodeArraySlicePacked in H. simpl TElem in H.
    destruct (Z.ltb_spec sz 0); [discriminate|].
    destruct (Z.of_nat (length input) <? Z.quot (TSize et) 8 * sz); [discriminate|].
    inv_bind H. destruct a as [vals rest']. injection H as <- <-.
    apply (decodeElems_min _ (prefixLength et)) in Ha;
      [|intros data v rest; apply (IHel et eq_refl Hwf)].
    rewrite Z2Nat.id in Ha by lia. lia.
  - (* Slice *)
    apply andb_true_iff in Hwf as [Hsz Hwf].
    destruct el as [et|]; [|discriminate].
    destruct (sliceElemSize et (Z.of_nat (length input)) =? 0); [discriminate|].
    unfold decodeArraySlicePacked in H. simpl TElem in H.
    destruct (Z.ltb_spec (Z.quot (Z.of_nat (length input))
                (sliceElemSize et (Z.of_nat (length input)))) 0); [discriminate|].
    destruct (Z.of_nat (length input) <? _); [discriminate|].
    inv_bind H. destruct a as [vals rest']. injection H as <- <-.
    apply (decodeElems_min _ (prefixLength et)) in Ha;
      [|intros data v rest; apply (IHel et eq_refl Hwf)].
    lia.
  - (* Address *)
    apply Z.eqb_eq in Hwf as ->.
    inv_bind H. inv_bind H. injection H as <- <-.
    rewrite slice_from_length by lia. lia.
  - (* Bytes *)
    injection H as <- <-. rewrite slice_from_length by lia. lia.
  - (* FixedBytes *)
    apply Z.ltb_lt in Hwf.
    inv_bind H. inv_bind H. injection H as <- <-.
    rewrite slice_from_length by lia. lia.
  - (* Tuple *)
    apply andb_true_iff in Hwf as [Hsz Hwf].
    unfold decodeTuplePacked in H. simpl TTupleElems in H.
    apply (decodeFields_min decodePacked tup) in H; [exact H|].
    rewrite forallb_forall in Hwf. rewrite Forall_forall in IHtup |- *.
    intros p Hp. apply IHtup; [exact Hp|]. apply Hwf.
    apply list_elem_of_In. exact Hp.
  - (* Function *)
    apply Z.eqb_eq in Hwf as ->.
    inv_bind H. inv_bind H. injection H as <- <-.
    rewrite slice_from_length by lia. lia.
Qed.

Lemma prefixLength_nonneg (t : Type_) :
  wellFormed t = true -> 0 <= prefixLength t.
Proof.
  induction t as [k sz el tup gk IHel IHtup] using Type_induction.
  intros Hwf. rewrite wellFormed_eq in Hwf. rewrite prefixLength_eq.
  simpl TKind in *. simpl TSize in *. simpl TElem in *. simpl TTupleElems in *.
  destruct k; try lia.
  - apply andb_true_iff in Hwf as [Hwf _]. apply andb_true_iff in Hwf as [Hwf _].
    apply Z.ltb_lt in Hwf. apply Z.quot_pos; lia.
  - apply andb_true_iff in Hwf as [Hwf _]. apply andb_true_iff in Hwf as [Hwf _].
    apply Z.ltb_lt in Hwf. apply Z.quot_pos; lia.
  - apply andb_true_iff in Hwf as [Hsz Hwf]. apply Z.leb_le in Hsz.
    destruct el as [et|]; [|discriminate].
    specialize (IHel et eq_refl Hwf). nia.
  - apply andb_true_iff in Hwf as [_ Hwf].
    induction IHtup as [|[name ft] tup Hft _ IH]; simpl in *; [lia|].
    apply andb_true_iff in Hwf as [Hw1 Hw2].
    specialize (Hft Hw1). specialize (IH Hw2). lia.
Qed.

(** The loop over the elements of an array, for an element decoder that
    consumes exactly [p] bytes and looks at nothing else. *)
Lemma decodeElems_exact (dec : list byte -> result (Value * list byte)) (p : nat) :
  (forall data v rest, dec data = Ok (v, rest) ->
     (p <= length data)%nat /\ rest = drop p data
     /\ forall data', take p data' = take p data ->
                      (length data <= length data')%nat ->
                      dec data' = Ok (v, drop p data')) ->
  forall n data vals rest,
    decodeElems dec n data = Ok (vals, rest) ->
    (n * p <= length data)%nat /\ rest = drop (n * p) data
    /\ forall data', take (n * p) data' = take (n * p) data ->
                     (length data <= length data')%nat ->
                     decodeElems dec n data' = Ok (vals, drop (n * p) data').
Proof.
  intros Hdec. induction n as [|n IH]; intros data vals rest H.
  - simpl in H. injection H as <- <-. simpl.
    split; [lia|split; [reflexivity|intros; reflexivity]].
  - simpl in H. inv_bind H. destruct a as [val tail].
    inv_bind H. destruct a as [vals' rest']. injection H as <- <-.
    apply Hdec in Ha as (Hp & -> & Hframe).
    apply IH in Ha0 as (Hn & -> & Hframe').
    rewrite length_drop in Hn.
    split; [simpl; lia|split; [rewrite drop_drop; f_equal; simpl; lia|]].
    intros data' Htake Hlen. simpl decodeElems.
    rewrite (Hframe data'); [|
      |exact Hlen].
    + simpl. rewrite (Hframe' (drop p data')).
      * simpl. rewrite drop_drop. reflexivity.
      * rewrite !take_drop_commute.
        change (p + n * p)%nat with (S n * p)%nat.
        rewrite Htake. reflexivity.
      * rewrite !length_drop. lia.
    + apply (f_equal (take p)) in Htake.
      rewrite !take_take in Htake.
      replace (p `min` (S n * p))%nat with p in Htake by (simpl; lia).
      exact Htake.
Qed.

Lemma decodeFields_exact (dec : Type_ -> list byte -> result (Value * list byte))
    (elems : list (string * Type_)) :
  Forall (fun f => 0 <= prefixLength (snd f) /\
            forall data v rest, dec (snd f) data = Ok (v, rest) ->
              let p := Z.to_nat (prefixLength (snd f)) in
              (p <= length data)%nat /\ rest = drop p data
              /\ forall data', take p data' = take p data ->
                               (length data <= length data')%nat ->
                               dec (snd f) data' = Ok (v, drop p data')) elems ->
  forall indx res data v rest,
    decodeFields dec indx elems res data = Ok (v, rest) ->
    let total :=
      Z.to_nat (fold_right (fun f acc => prefixLength (snd f) + acc) 0 elems) in
    (total <= length data)%nat /\ rest = drop total data
    /\ forall data', take total data' = take total data ->
                     (length data <= length data')%nat ->
                     decodeFields dec indx elems res data' = Ok (v, drop total data').
Proof.
  induction 1 as [|[name ft] elems [Hnn Hft] Hall IH];
    intros indx res data v rest H.
  - simpl in H. injection H as <- <-. simpl.
    split; [lia|split; [reflexivity|intros; reflexivity]].
  - simpl in H. inv_bind H. destruct a as [val tail].
    destruct (res !! fieldName indx name) eqn:Hres; [discriminate|].
    apply Hft in Ha as (Hp & -> & Hframe).
    apply IH in H as (Hn & -> & Hframe').
    rewrite length_drop in Hn. simpl snd in *.
    assert (0 <= fold_right (fun f acc => prefixLength (snd f) + acc) 0 elems)
      as Hsum.
    { clear -Hall. induction Hall as [|f l [Hf _] _ IHl]; simpl; lia. }
    set (p := Z.to_nat (prefixLength ft)) in *.
    set (q := Z.to_nat (fold_right (fun f acc => prefixLength (snd f) + acc) 0 elems)) in *.
    assert (Z.to_nat (fold_right (fun f acc => prefixLength (snd f) + acc) 0
                        ((name, ft) :: elems)) = (p + q)%nat) as Htot.
    { simpl. subst p q. lia. }
    cbv zeta. rewrite Htot.
    split; [lia|split; [rewrite drop_drop; reflexivity|]].
    intros data' Htake Hlen. simpl decodeFields.
    rewrite (Hframe data'); [| |exact Hlen].
    + simpl. rewrite Hres. rewrite (Hframe' (drop p data')).
      * rewrite drop_drop. reflexivity.
      * rewrite !take_drop_commute. rewrite Htake. reflexivity.
      * rewrite !length_drop. lia.
    + apply (f_equal (take p)) in Htake.
      rewrite !take_take in Htake.
      replace (p `min` (p + q))%nat with p in Htake by lia.
      exact Htake.
Qed.

Lemma slice_to_frame (input input' : list byte) (n : Z) :
  take (Z.to_nat n) input' = take (Z.to_nat n) input ->
  slice_to input' n = slice_to input n.
Proof. intros H. unfold slice_to. rewrite H. reflexivity. Qed.

(** The scalar branches of [decodePacked]: a reader applied to the first
    [n] bytes. *)
Lemma scalar_branch_exact (read : list byte -> result Value)
    (n : Z) (input : list byte) (v : Value) (rest : list byte) :
  n <= Z.of_nat (length input) ->
  (word ← slice_to input n; val ← read word; Ok (val, slice_from input n))
  = Ok (v, rest) ->
  (Z.to_nat n <= length input)%nat /\ rest = drop (Z.to_nat n) input
  /\ forall input', take (Z.to_nat n) input' = take (Z.to_nat n) input ->
       (word ← slice_to input' n; val ← read word; Ok (val, slice_from input' n))
       = Ok (v, drop (Z.to_nat n) input').
Proof.
  intros Hn H. inv_bind H. inv_bind H. injection H as <- <-.
  pose proof (slice_to_Ok _ _ _ Ha) as [H0 ->].
  split; [lia|split; [reflexivity|]].
  intros input' Htake. rewrite (slice_to_frame input input' n Htake), Ha.
  simpl. rewrite <- Htake in Ha0.
  rewrite Htake in Ha0. rewrite Ha0. reflexivity.
Qed.

(** The scalar cases of the next proof: the branch reads the first bytes
    and hands the others on, on [input] and on any longer [input']. *)
Ltac scalar_case H Hreq :=
  let Hp := fresh "Hp" in
  let Hrest := fresh "Hrest" in
  let Hframe := fresh "Hframe" in
  let input' := fresh "input'" in
  let Htake := fresh "Htake" in
  let Hlen := fresh "Hlen" in
  apply scalar_branch_exact in H; [|lia];
  destruct H as (Hp & Hrest & Hframe);
  split; [exact Hp|split; [exact Hrest|]];
  intros input' Htake Hlen; rewrite decodePacked_eq; cbv zeta;
  rewrite Hreq by exact Hlen; simpl TKind; cbv iota;
  apply Hframe; exact Htake.

(** Against a well-formed descriptor without dynamic kind, a successful
    decoding consumes exactly the required prefix length, and its value
    depends on these bytes only: any buffer at least as long that starts
    with them decodes to the same value. *)
Lemma decodePacked_static (t : Type_) :
  wellFormed t = true -> static t = true ->
  forall input v rest,
    decodePacked t input = Ok (v, rest) ->
    let p := Z.to_nat (prefixLength t) in
    (p <= length input)%nat /\ rest = drop p input
    /\ forall input', take p input' = take p input ->
                      (length input <= length input')%nat ->
                      decodePacked t input' = Ok (v, drop p input').
Proof.
  induction t as [k sz el tup gk IHel IHtup] using Type_induction.
  intros Hwf Hst input v rest H.
  pose proof (prefixLength_nonneg _ Hwf) as Hnn.
  pose proof (decodePacked_min_length _ Hwf _ _ _ H) as [_ Hmin].
  cbv zeta.
  assert (forall input', (length input <= length input')%nat ->
            (Z.of_nat (length input') <? requiredLength (mkType k sz el tup gk) input')
            = false) as Hreq.
  { intros input' Hlen. rewrite decodePacked_eq in H. cbv zeta in H.
    destruct (Z.ltb_spec (Z.of_nat (length input))
                (requiredLength (mkType k sz el tup gk) input)); [discriminate|].
    apply Z.ltb_ge. unfold requiredLength in *. simpl TKind in *.
    destruct k; simpl TSize in *; lia. }
  rewrite wellFormed_eq in Hwf. rewrite static_eq in Hst.
  rewrite prefixLength_eq in *.
  rewrite decodePacked_eq in H. cbv zeta in H.
  rewrite (Hreq input) in H by lia.
  simpl TKind in *. simpl TSize in *. simpl TElem in *. simpl TTupleElems in *.
  destruct k; try discriminate Hst; unfold requiredLength in H; simpl TKind in H;
    simpl TSize in H.
  - (* Bool *)
    scalar_case H Hreq.
  - (* UInt *)
    scalar_case H Hreq.
  - (* Int *)
    scalar_case H Hreq.
  - (* Array *)
    apply andb_true_iff in Hwf as [Hsz Hwf]. apply Z.leb_le in Hsz.
    destruct el as [et|]; [|discriminate].
    pose proof (prefixLength_nonneg _ Hwf) as Hnne.
    unfold decodeArraySlicePacked in H. simpl TElem in H. simpl TKind in H.
    destruct (Z.ltb_spec sz 0) as [|_]; [lia|].
    destruct (Z.ltb_spec (Z.of_nat (length input)) (Z.quot (TSize et) 8 * sz))
      as [|Hbig]; [discriminate|].
    inv_bind H. destruct a as [vals rest']. injection H as <- <-.
    apply (decodeElems_exact _ (Z.to_nat (prefixLength et))) in Ha
      as (Hp & Hrest & Hframe);
      [|intros data v rest Hd; apply (IHel et eq_refl Hwf Hst _ _ _ Hd)].
    replace (Z.to_nat (sz * prefixLength et))
      with (Z.to_nat sz * Z.to_nat (prefixLength et))%nat by nia.
    split; [exact Hp|split; [exact Hrest|]].
    intros input' Htake Hlen. rewrite decodePacked_eq. cbv zeta.
    rewrite Hreq by exact Hlen. simpl TKind. cbv iota.
    unfold decodeArraySlicePacked. simpl TElem. simpl TKind. simpl TSize.
    destruct (Z.ltb_spec sz 0) as [|_]; [lia|].
    destruct (Z.ltb_spec (Z.of_nat (length input')) (Z.quot (TSize et) 8 * sz));
      [lia|].
    rewrite (Hframe input' Htake Hlen). reflexivity.
  - (* Address *)
    apply Z.eqb_eq in Hwf. subst sz.
    scalar_case H Hreq.
  - (* FixedBytes *)
    scalar_case H Hreq.
  - (* Tuple *)
    apply andb_true_iff in Hwf as [Hsz Hwf].
    unfold decodeTuplePacked in H. simpl TTupleElems in H.
    apply (decodeFields_exact decodePacked tup) in H as (Hp & Hrest & Hframe).
    + split; [exact Hp|split; [exact Hrest|]].
      intros input' Htake Hlen. rewrite decodePacked_eq. cbv zeta.
      rewrite Hreq by exact Hlen. simpl TKind. cbv iota.
      unfold decodeTuplePacked. simpl TTupleElems.
      apply Hframe; assumption.
    + rewrite forallb_forall in Hwf, Hst. rewrite Forall_forall in IHtup |- *.
      intros f Hf. apply list_elem_of_In in Hf as Hf'.
      split; [apply prefixLength_nonneg, Hwf, Hf'|].
      intros data v0 rest0 Hd.
      apply (IHtup f Hf (Hwf f Hf') (Hst f Hf') _ _ _ Hd).
  - (* Function *)
    apply Z.eqb_eq in Hwf. subst sz.
    inv_bind H. inv_bind H. injection H as <- <-.
    apply slice_to_Ok in Ha as [_ ->].
    unfold readFunctionTypePacked in Ha0.
    destruct (Nat.ltb_spec (length input) 24) as [|H24]; [discriminate|].
    injection Ha0 as <-.
    split; [exact H24|split; [reflexivity|]].
    intros input' Htake Hlen. rewrite decodePacked_eq. cbv zeta.
    rewrite Hreq by exact Hlen. simpl TKind. cbv iota.
    unfold requiredLength, slice_to, readFunctionTypePacked. simpl.
    destruct (Nat.ltb_spec (length input') 24); [lia|].
    change (Z.to_nat 24) with 24%nat in *. rewrite Htake. reflexivity.
Qed.

(* ================================================================== *)
(** * Decoding never panics on a well-formed static descriptor *)

Lemma decodeElems_no_panic (dec : list byte -> result (Value * list byte)) :
  (forall data p, dec data <> Panic p) ->
  forall n data p, decodeElems dec n data <> Panic p.
Proof.
  intros Hdec. induction n as [|n IH]; intros data p; simpl; [discriminate|].
  destruct (dec data) as [[val tail]| |q] eqn:E; simpl; [|discriminate|].
  - destruct (decodeElems dec n tail) as [[vals rest]| |q] eqn:E'; simpl;
      [discriminate|discriminate|].
    exfalso. exact (IH tail q E').
  - exfalso. exact (Hdec data q E).
Qed.

Lemma decodeFields_no_panic (dec : Type_ -> list byte -> result (Value * list byte))
    (elems : list (string * Type_)) :
  Forall (fun f => forall data p, dec (snd f) data <> Panic p) elems ->
  forall indx res data p, decodeFields dec indx elems res data <> Panic p.
Proof.
  induction 1 as [|[name ft] elems Hft _ IH]; intros indx res data p; simpl;
    [discriminate|].
  destruct (dec ft data) as [[val tail]| |q] eqn:E; simpl; [|discriminate|].
  - destruct (res !! fieldName indx name); [discriminate|]. apply IH.
  - exfalso. exact (Hft data q E).
Qed.

Lemma readIntegerPacked_no_panic (t : Type_) (b : list byte) :
  (TKind t = KindInt \/ TKind t = KindUInt) ->
  TGoKind t = goKindOf (TKind t) (TSize t) ->
  Z.of_nat (length b) = TSize t / 8 ->
  forall p, readIntegerPacked t b <> Panic p.
Proof.
  intros Hk Hgo Hlen p. unfold readIntegerPacked. rewrite Hgo.
  unfold goKindOf.
  assert (forall n, Z.of_nat (length b) = Z.of_nat n ->
            forall f : Z -> result Value,
              BigEndian_Uint n b ≫= f = f (SetBytes b)) as Hbe.
  { intros n Hn f. rewrite BigEndian_Uint_exact by lia. reflexivity. }
  destruct Hk as [-> | ->].
  - destruct (Z.eqb_spec (TSize t) 8) as [E|].
    { rewrite E in Hlen. change (8 / 8) with 1 in Hlen.
      destruct b; simpl in *; [lia|discriminate]. }
    destruct (Z.eqb_spec (TSize t) 16) as [E|].
    { rewrite E in Hlen. rewrite (Hbe 2%nat) by exact Hlen. discriminate. }
    destruct (Z.eqb_spec (TSize t) 32) as [E|].
    { rewrite E in Hlen. rewrite (Hbe 4%nat) by exact Hlen. discriminate. }
    destruct (Z.eqb_spec (TSize t) 64) as [E|].
    { rewrite E in Hlen. rewrite (Hbe 8%nat) by exact Hlen. discriminate. }
    repeat match goal with
           | |- context [if ?c then _ else _] => destruct c
           end; discriminate.
  - destruct (Z.eqb_spec (TSize t) 8) as [E|].
    { rewrite E in Hlen. change (8 / 8) with 1 in Hlen.
      destruct b; simpl in *; [lia|discriminate]. }
    destruct (Z.eqb_spec (TSize t) 16) as [E|].
    { rewrite E in Hlen. rewrite (Hbe 2%nat) by exact Hlen. discriminate. }
    destruct (Z.eqb_spec (TSize t) 32) as [E|].
    { rewrite E in Hlen. rewrite (Hbe 4%nat) by exact Hlen. discriminate. }
    destruct (Z.eqb_spec (TSize t) 64) as [E|].
    { rewrite E in Hlen. rewrite (Hbe 8%nat) by exact Hlen. discriminate. }
    repeat match goal with
           | |- context [if ?c then _ else _] => destruct c
           end; discriminate.
Qed.

Lemma GoKind_eqb_eq (a b : GoKind) : GoKind_eqb a b = true -> a = b.
Proof. destruct a, b; simpl; intros H; (reflexivity || discriminate). Qed.

Lemma decodePacked_static_no_panic (t : Type_) :
  wellFormed t = true -> static t = true ->
  forall input p, decodePacked t input <> Panic p.
Proof.
  induction t as [k sz el tup gk IHel IHtup] using Type_induction.
  intros Hwf Hst input p.
  rewrite wellFormed_eq in Hwf. rewrite static_eq in Hst.
  rewrite decodePacked_eq. cbv zeta. unfold requiredLength.
  simpl TKind in *. simpl TSize in *. simpl TElem in *. simpl TTupleElems in *.
  destruct k; try discriminate Hst;
    match goal with
    | |- context [Z.of_nat (length input) <? ?n] =>
        destruct (Z.ltb_spec (Z.of_nat (length input)) n) as [|Hlen];
        [discriminate|]
    end.
  - (* Bool *)
    unfold slice_to. simpl. destruct input as [|x input]; [simpl in Hlen; lia|].
    simpl. destruct (byte_to_Z x =? 0); [discriminate|].
    destruct (byte_to_Z x =? 1); discriminate.
  - (* UInt *)
    apply andb_true_iff in Hwf as [Hwf Hgo]. apply andb_true_iff in Hwf as [H0 H8].
    apply GoKind_eqb_eq in Hgo. rewrite Z.quot_div_nonneg in * by lia.
    unfold slice_to. destruct (Z.ltb_spec (sz / 8) 0) as [Hneg|_].
    { pose proof (Z.div_pos sz 8). lia. }
    simpl.
    destruct (readIntegerPacked (mkType KindUInt sz el tup gk)
                (take (Z.to_nat (sz / 8)) input)) as [val| |q] eqn:E;
      simpl; [discriminate|discriminate|].
    exfalso. revert E. apply readIntegerPacked_no_panic; simpl; auto.
    rewrite length_take. pose proof (Z.div_pos sz 8). lia.
  - (* Int *)
    apply andb_true_iff in Hwf as [Hwf Hgo]. apply andb_true_iff in Hwf as [H0 H8].
    apply GoKind_eqb_eq in Hgo. rewrite Z.quot_div_nonneg in * by lia.
    unfold slice_to. destruct (Z.ltb_spec (sz / 8) 0) as [Hneg|_].
    { pose proof (Z.div_pos sz 8). lia. }
    simpl.
    destruct (readIntegerPacked (mkType KindInt sz el tup gk)
                (take (Z.to_nat (sz / 8)) input)) as [val| |q] eqn:E;
      simpl; [discriminate|discriminate|].
    exfalso. revert E. apply readIntegerPacked_no_panic; simpl; auto.
    rewrite length_take. pose proof (Z.div_pos sz 8). lia.
  - (* Array *)
    apply andb_true_iff in Hwf as [Hsz Hwf]. apply Z.leb_le in Hsz.
    destruct el as [et|]; [|discriminate].
    unfold decodeArraySlicePacked. simpl TElem. simpl TKind.
    destruct (sz <? 0); [discriminate|].
    destruct (Z.of_nat (length input) <? Z.quot (TSize et) 8 * sz);
      [discriminate|].
    destruct (decodeElems _ (Z.to_nat sz) input) as [[vals rest]| |q] eqn:E;
      simpl; [discriminate|discriminate|].
    exfalso. revert E. apply decodeElems_no_panic.
    intros data q'. apply (IHel et eq_refl Hwf Hst).
  - (* Address *)
    apply Z.eqb_eq in Hwf. subst sz. unfold slice_to. simpl.
    unfold readAddrPacked.
    destruct (negb (length (take (Z.to_nat 20) input) =? 20)%nat);
      simpl; discriminate.
  - (* FixedBytes *)
    unfold slice_to. destruct (Z.ltb_spec sz 0); [lia|]. simpl. discriminate.
  - (* Tuple *)
    apply andb_true_iff in Hwf as [Hsz Hwf].
    unfold decodeTuplePacked. simpl TTupleElems.
    apply decodeFields_no_panic.
    rewrite forallb_forall in Hwf, Hst. rewrite Forall_forall in IHtup |- *.
    intros f Hf. apply list_elem_of_In in Hf as Hf'.
    intros data q. apply (IHtup f Hf (Hwf f Hf') (Hst f Hf')).
  - (* Function *)
    apply Z.eqb_eq in Hwf. subst sz. unfold slice_to. simpl.
    unfold readFunctionTypePacked.
    destruct (Nat.ltb_spec (length input) 24); [lia|]. simpl. discriminate.
Qed.

(* ================================================================== *)
(** * Buffers that are too short *)

(** C7. A buffer shorter than the length a kind requires makes
    [decodePacked] return an error, for every kind (first part: the length
    the function computes for the kind; second and third part: the
    required prefix length of the specification, containers included,
    where the call produces no value, and returns an error when no dynamic
    kind is involved); [DecodePacked] rejects the empty buffer; an address
    is not decoded from the empty buffer. *)
Theorem C7_short_buffer_fails :
  (forall t input,
      Z.of_nat (length input) < requiredLength t input ->
      decodePacked t input
      = Err (ErrRequiresLength (TKind t) (requiredLength t input)
               (Z.of_nat (length input))))
  /\ (forall t input,
        wellFormed t = true ->
        Z.of_nat (length input) < prefixLength t ->
        isOk (decodePacked t input) = false
        /\ isOk (DecodePacked t input) = false)
  /\ (forall t input,
        wellFormed t = true -> static t = true ->
        Z.of_nat (length input) < prefixLength t ->
        exists e, decodePacked t input = Err e)
  /\ (forall t, DecodePacked t [] = Err ErrEmptyInput)
  /\ decodePacked addressT [] = Err (ErrRequiresLength KindAddress 20 0).
Proof.
  assert (forall t input,
             wellFormed t = true ->
             Z.of_nat (length input) < prefixLength t ->
             isOk (decodePacked t input) = false) as Hshort.
  { intros t input Hwf Hlen.
    destruct (decodePacked t input) as [[v rest]| |] eqn:E; try reflexivity.
    apply (decodePacked_min_length t Hwf) in E. lia. }
  split; [|split; [|split; [|split]]].
  - intros t input Hlen. rewrite decodePacked_eq. cbv zeta.
    destruct (Z.ltb_spec (Z.of_nat (length input)) (requiredLength t input));
      [reflexivity|lia].
  - intros t input Hwf Hlen. split; [apply Hshort; assumption|].
    unfold DecodePacked. destruct (length input =? 0)%nat; [reflexivity|].
    pose proof (Hshort t input Hwf Hlen) as H.
    destruct (decodePacked t input) as [[v rest]| |]; simpl in *;
      [discriminate|reflexivity|reflexivity].
  - intros t input Hwf Hst Hlen.
    pose proof (Hshort t input Hwf Hlen) as H.
    pose proof (decodePacked_static_no_panic t Hwf Hst input) as Hnp.
    destruct (decodePacked t input) as [[v rest]|e|p]; simpl in H;
      [discriminate|eauto|].
    exfalso. exact (Hnp p eq_refl).
  - intros t. reflexivity.
  - reflexivity.
Qed.

Lemma C7_witness :
  exists e, decodePacked (arrayT 2 (uintT 16)) [x01; x02; x03] = Err e.
Proof.
  apply (proj1 (proj2 (proj2 C7_short_buffer_fails))).
  - reflexivity.
  - reflexivity.
  - vm_compute. reflexivity.
Defined.

(* ================================================================== *)
(** * Slices of elements of fixed size *)

Lemma slice_to_not_Err (input : list byte) (n : Z) (e : error) :
  slice_to input n <> Err e.
Proof. unfold slice_to. destruct (n <? 0); discriminate. Qed.

Lemma readIntegerPacked_not_Err (t : Type_) (b : list byte) (e : error) :
  readIntegerPacked t b <> Err e.
Proof.
  unfold readIntegerPacked, BigEndian_Uint, first_byte.
  destruct (TGoKind t); destruct b as [|x b]; simpl;
    repeat match goal with
           | |- context [if ?c then _ else _] => destruct c; simpl
           end; discriminate.
Qed.

Lemma integer_branch_not_Err (t : Type_) (data : list byte) (n : Z) (e : error) :
  (word ← slice_to data n; val ← readIntegerPacked t word;
   Ok (val, slice_from data n)) <> Err e.
Proof.
  destruct (slice_to data n) as [word|e'|] eqn:Es; simpl; [| |discriminate].
  - destruct (readIntegerPacked t word) as [val|e'|] eqn:Er; simpl;
      [discriminate| |discriminate].
    exfalso. exact (readIntegerPacked_not_Err _ _ _ Er).
  - exfalso. exact (slice_to_not_Err _ _ _ Es).
Qed.

(** An element of fixed size is decoded from any buffer that holds its
    bytes. *)
Lemma decodePacked_fixedSizeElem (et : Type_) (data : list byte) :
  wellFormed et = true -> fixedSizeElem et = true ->
  prefixLength et <= Z.of_nat (length data) ->
  exists v, decodePacked et data = Ok (v, drop (Z.to_nat (prefixLength et)) data).
Proof.
  intros Hwf Hfix Hlen.
  assert (static et = true) as Hst
    by (rewrite static_eq; unfold fixedSizeElem in Hfix;
        destruct (TKind et); (reflexivity || discriminate)).
  pose proof (decodePacked_static_no_panic et Hwf Hst data) as Hnp.
  destruct (decodePacked et data) as [[v rest]|e|p] eqn:E.
  - destruct (decodePacked_static et Hwf Hst _ _ _ E) as (_ & -> & _). eauto.
  - exfalso. rewrite decodePacked_eq in E. cbv zeta in E.
    rewrite wellFormed_eq in Hwf. rewrite prefixLength_eq in Hlen.
    unfold fixedSizeElem in Hfix. unfold requiredLength in E.
    destruct (TKind et) eqn:Hk; try discriminate Hfix;
      match type of E with
      | context [Z.of_nat (length data) <? ?n] =>
          destruct (Z.ltb_spec (Z.of_nat (length data)) n); [lia|]
      end.
    + exact (integer_branch_not_Err _ _ _ _ E).
    + exact (integer_branch_not_Err _ _ _ _ E).
    + apply Z.eqb_eq in Hwf. rewrite Hwf in *.
      unfold slice_to, readAddrPacked in E. simpl in E.
      rewrite length_take in E.
      replace (Z.to_nat 20 `min` length data)%nat with 20%nat in E by lia.
      simpl in E. discriminate.
    + unfold slice_to in E. destruct (TSize et <? 0); simpl in E; discriminate.
    + apply Z.eqb_eq in Hwf. rewrite Hwf in *.
      unfold slice_to, readFunctionTypePacked in E. simpl in E.
      destruct (Nat.ltb_spec (length data) 24); [lia|]. simpl in E. discriminate.
  - exfalso. exact (Hnp p eq_refl).
Qed.

Lemma decodeElems_fixedSizeElem (et : Type_) (n : nat) (data : list byte) :
  wellFormed et = true -> fixedSizeElem et = true ->
  Z.of_nat n * prefixLength et <= Z.of_nat (length data) ->
  exists vals,
    decodeElems (decodePacked et) n data
    = Ok (vals, drop (Z.to_nat (Z.of_nat n * prefixLength et)) data)
    /\ length vals = n.
Proof.
  intros Hwf Hfix. pose proof (prefixLength_nonneg et Hwf) as Hnn.
  revert data. induction n as [|n IH]; intros data Hlen.
  - exists []. simpl. split; reflexivity.
  - destruct (decodePacked_fixedSizeElem et data Hwf Hfix ltac:(nia)) as [v Hv].
    destruct (IH (drop (Z.to_nat (prefixLength et)) data)) as (vals & Hvals & Hn).
    { rewrite length_drop. nia. }
    exists (v :: vals). simpl decodeElems. rewrite Hv. simpl.
    rewrite Hvals. simpl. rewrite drop_drop. split; [|simpl; lia].
    do 3 f_equal. nia.
Qed.

Lemma sliceElemSize_fixed (et : Type_) (len : Z) :
  wellFormed et = true -> fixedSizeElem et = true ->
  sliceElemSize et len = prefixLength et
  /\ 0 < prefixLength et
  /\ Z.quot (TSize et) 8 <= prefixLength et.
Proof.
  intros Hwf Hfix. rewrite wellFormed_eq in Hwf. rewrite prefixLength_eq.
  unfold sliceElemSize, fixedSizeElem in *.
  destruct (TKind et); try discriminate Hfix.
  - apply andb_true_iff in Hwf as [Hwf _]. apply andb_true_iff in Hwf as [H0 H8].
    destruct (Z.eqb_spec (TSize et) 0); [lia|].
    rewrite Z.quot_div_nonneg by lia.
    pose proof (Z.div_mod (TSize et) 8 ltac:(lia)). lia.
  - apply andb_true_iff in Hwf as [Hwf _]. apply andb_true_iff in Hwf as [H0 H8].
    destruct (Z.eqb_spec (TSize et) 0); [lia|].
    rewrite Z.quot_div_nonneg by lia.
    pose proof (Z.div_mod (TSize et) 8 ltac:(lia)). lia.
  - apply Z.eqb_eq in Hwf. rewrite Hwf. simpl. repeat split; vm_compute; congruence.
  - destruct (Z.eqb_spec (TSize et) 0); [lia|].
    rewrite Z.quot_div_nonneg by lia.
    pose proof (Z.div_mod (TSize et) 8 ltac:(lia)).
    pose proof (Z.mod_pos_bound (TSize et) 8 ltac:(lia)). lia.
  - apply Z.eqb_eq in Hwf. rewrite Hwf. simpl. repeat split; vm_compute; congruence.
Qed.

(** C3, as the code has it.  A slice whose elements have a fixed byte size
    [k] is decoded to [len / k] elements, rounded down; a length that is
    not a multiple of [k] is no error: the [len mod k] bytes left over are
    returned as the remainder.  Against the five-byte buffer an unsigned
    8-bit slice has 5 elements and an unsigned 16-bit slice has 2, one
    byte being left. *)
Theorem C3_slice_count_rounds_down :
  (forall (t et : Type_) (input : list byte),
      TKind t = KindSlice -> TElem t = Some et ->
      wellFormed et = true -> fixedSizeElem et = true ->
      let k := prefixLength et in
      let len := Z.of_nat (length input) in
      exists vals rest,
        decodePacked t input = Ok (VSlice vals, rest)
        /\ Z.of_nat (length vals) = len / k
        /\ rest = drop (Z.to_nat (k * (len / k))) input
        /\ Z.of_nat (length rest) = len mod k)
  /\ (exists vals, DecodePacked (sliceT (uintT 8)) buffer5 = Ok (VSlice vals)
                   /\ length vals = 5%nat)
  /\ DecodePacked (sliceT (uintT 16)) buffer5
     = Ok (VSlice [VUint Sz16 258; VUint Sz16 772])
  /\ decodePacked (sliceT (uintT 16)) buffer5
     = Ok (VSlice [VUint Sz16 258; VUint Sz16 772], [x05]).
Proof.
  split; [|split; [eexists; split; vm_compute; reflexivity
                  |split; vm_compute; reflexivity]].
  intros t et input Hk Hel Hwf Hfix k len.
  destruct (sliceElemSize_fixed et len Hwf Hfix) as (Hes & Hpos & Hq).
  fold k in Hes, Hpos, Hq.
  assert (0 <= len) as Hlen0 by (subst len; lia).
  pose proof (Z.div_mod len k ltac:(lia)) as Hdm.
  pose proof (Z.mod_pos_bound len k Hpos) as Hmod.
  assert (0 <= len / k) as Hdiv0 by (apply Z.div_pos; lia).
  destruct (decodeElems_fixedSizeElem et (Z.to_nat (len / k)) input Hwf Hfix)
    as (vals & Hvals & Hn).
  { fold k len. rewrite Z2Nat.id by lia. lia. }
  rewrite Z2Nat.id in Hvals by lia. fold k in Hvals.
  exists vals, (drop (Z.to_nat (len / k * k)) input).
  split; [|split; [lia|split; [f_equal; f_equal; lia|]]].
  - rewrite decodePacked_eq. cbv zeta. unfold requiredLength. rewrite Hk, Hel.
    fold len. rewrite Z.ltb_irrefl, Hes.
    destruct (Z.eqb_spec k 0); [lia|].
    unfold decodeArraySlicePacked. rewrite Hel, Hk.
    rewrite Z.quot_div_nonneg by lia.
    destruct (Z.ltb_spec (len / k) 0); [lia|].
    fold len. destruct (Z.ltb_spec len (Z.quot (TSize et) 8 * (len / k))); [nia|].
    replace (fun data => decodePacked et data) with (decodePacked et)
      by reflexivity.
    rewrite Hvals. reflexivity.
  - rewrite length_drop. fold len. lia.
Qed.

Lemma C3_witness :
  exists vals rest,
    decodePacked (sliceT (intT 24)) buffer5 = Ok (VSlice vals, rest)
    /\ Z.of_nat (length vals) = 5 / 3
    /\ rest = drop (Z.to_nat (3 * (5 / 3))) buffer5
    /\ Z.of_nat (length rest) = 5 mod 3.
Proof.
  apply (proj1 C3_slice_count_rounds_down (sliceT (intT 24)) (intT 24) buffer5);
    reflexivity.
Defined.

(** C3, as stated, fails: the unsigned 16-bit slice is decoded from the
    five-byte buffer although 5 is not divisible by 2. *)
Lemma C3_counterexample :
  DecodePacked (sliceT (uintT 16)) buffer5
  = Ok (VSlice [VUint Sz16 258; VUint Sz16 772])
  /\ ~ (exists e, DecodePacked (sliceT (uintT 16)) buffer5 = Err e).
Proof.
  split; [vm_compute; reflexivity|].
  intros [e He]. vm_compute in He. discriminate He.
Qed.

(* ================================================================== *)
(** * Tuples *)

Lemma encodePacked_tuple (v : Value) (t : Type_) :
  TKind t = KindTuple -> tupleInput v = true ->
  encodePacked v t =
  if Value_Len v <? Z.of_nat (length (TTupleElems t)) then Err ErrTupleLen
  else encodeFields encodePacked v 0 (TTupleElems t).
Proof.
  intros Hk Hv. rewrite encodePacked_eq, Hk. unfold encodeTuplePacked.
  destruct v; try discriminate Hv; reflexivity.
Qed.

(** The loop over the fields, when every field resolves and encodes. *)
Lemma encodeFields_Ok (enc : Value -> Type_ -> result (list byte)) (v : Value)
    (elems : list (string * Type_)) :
  forall (i : nat) (outs : list (list byte)),
    length outs = length elems ->
    (forall j name ft, elems !! j = Some (name, ft) ->
       exists x o, tupleEntry v (i + j) name = Some x
                   /\ enc x ft = Ok o /\ outs !! j = Some o) ->
    encodeFields enc v i elems = Ok (concat outs).
Proof.
  induction elems as [|[name ft] elems IH]; intros i outs Hlen H.
  - destruct outs; [reflexivity|discriminate].
  - destruct outs as [|o outs]; [discriminate|].
    destruct (H 0%nat name ft eq_refl) as (x & o' & Hx & Ho & Hout).
    injection Hout as <-. rewrite Nat.add_0_r in Hx.
    simpl. rewrite Hx, Ho. simpl.
    rewrite (IH (S i) outs); [reflexivity|simpl in Hlen; lia|].
    intros j name' ft' Hj. specialize (H (S j) name' ft' Hj).
    replace (S i + j)%nat with (i + S j)%nat by lia. exact H.
Qed.

(** The loop over the fields, when a field does not resolve and the ones
    before it resolve and encode. *)
Lemma encodeFields_missing (enc : Value -> Type_ -> result (list byte)) (v : Value)
    (elems : list (string * Type_)) :
  forall (i k : nat) (name : string) (ft : Type_),
    elems !! k = Some (name, ft) ->
    tupleEntry v (i + k) name = None ->
    (forall j name' ft', (j < k)%nat -> elems !! j = Some (name', ft') ->
       exists x o, tupleEntry v (i + j) name' = Some x /\ enc x ft' = Ok o) ->
    encodeFields enc v i elems = Err (ErrCannotGetKey name).
Proof.
  induction elems as [|[name0 ft0] elems IH]; intros i k name ft Hk Hnone Hbefore.
  - discriminate.
  - destruct k as [|k].
    + injection Hk as -> ->. rewrite Nat.add_0_r in Hnone.
      simpl. rewrite Hnone. reflexivity.
    + destruct (Hbefore 0%nat name0 ft0 ltac:(lia) eq_refl) as (x & o & Hx & Ho).
      rewrite Nat.add_0_r in Hx. simpl. rewrite Hx, Ho. simpl.
      rewrite (IH (S i) k name ft Hk); [reflexivity| |].
      * replace (S i + k)%nat with (i + S k)%nat by lia. exact Hnone.
      * intros j name' ft' Hj Hl.
        replace (S i + j)%nat with (i + S j)%nat by lia.
        apply (Hbefore (S j) name' ft'); [lia|exact Hl].
Qed.

(** The loop looks at the entries the fields resolve to, and at no other. *)
Lemma encodeFields_ext (enc : Value -> Type_ -> result (list byte)) (v v' : Value)
    (elems : list (string * Type_)) :
  forall i : nat,
    (forall j name ft, elems !! j = Some (name, ft) ->
       tupleEntry v (i + j) name = tupleEntry v' (i + j) name) ->
    encodeFields enc v i elems = encodeFields enc v' i elems.
Proof.
  induction elems as [|[name ft] elems IH]; intros i H; [reflexivity|].
  simpl. pose proof (H 0%nat name ft eq_refl) as H0.
  rewrite Nat.add_0_r in H0. rewrite H0.
  rewrite (IH (S i)); [reflexivity|].
  intros j name' ft' Hj. replace (S i + j)%nat with (i + S j)%nat by lia.
  apply (H (S j) name' ft'). exact Hj.
Qed.

(** C6. Encoding a tuple from an ordered or a keyed input: an input with
    fewer entries than the descriptor has fields is an error; each field
    is resolved in descriptor order, by position in an ordered input, by
    name (by the decimal index when the name is empty) in a keyed one; a
    field that does not resolve, the ones before it being encoded, is the
    error of a missing key; when all resolve and encode, the output is the
    concatenation of the encodings in descriptor order.  Entries beyond the
    fields are not looked at, and a keyed input has no order that could
    matter: the association lists of one map, in any order, give the same
    output. *)
Theorem C6_tuple_encoding :
  (forall t : Type_,
      TKind t = KindTuple ->
      let fields := TTupleElems t in
      (forall l i name,
          tupleEntry (VSlice l) i name = l !! i
          /\ tupleEntry (VArray l) i name = l !! i)
      /\ (forall (m : gmap string Value) i name,
             tupleEntry (VMap m) i name
             = if decide (name = EmptyString) then m !! pretty i else m !! name)
      /\ (forall v,
             tupleInput v = true ->
             Value_Len v < Z.of_nat (length fields) ->
             EncodePacked v t = Err ErrTupleLen)
      /\ (forall v (outs : list (list byte)),
             tupleInput v = true ->
             Z.of_nat (length fields) <= Value_Len v ->
             length outs = length fields ->
             (forall i name ft, fields !! i = Some (name, ft) ->
                exists x o, tupleEntry v i name = Some x
                            /\ EncodePacked x ft = Ok o /\ outs !! i = Some o) ->
             EncodePacked v t = Ok (concat outs))
      /\ (forall v k name ft,
             tupleInput v = true ->
             Z.of_nat (length fields) <= Value_Len v ->
             fields !! k = Some (name, ft) ->
             tupleEntry v k name = None ->
             (forall j name' ft', (j < k)%nat -> fields !! j = Some (name', ft') ->
                exists x o, tupleEntry v j name' = Some x
                            /\ EncodePacked x ft' = Ok o) ->
             EncodePacked v t = Err (ErrCannotGetKey name))
      /\ (forall l extra,
             (length fields <= length l)%nat ->
             EncodePacked (VSlice (l ++ extra)) t = EncodePacked (VSlice l) t
             /\ EncodePacked (VArray (l ++ extra)) t = EncodePacked (VArray l) t)
      /\ (forall m m' : gmap string Value,
             (length fields <= size m)%nat -> (length fields <= size m')%nat ->
             (forall i name ft, fields !! i = Some (name, ft) ->
                tupleEntry (VMap m') i name = tupleEntry (VMap m) i name) ->
             EncodePacked (VMap m') t = EncodePacked (VMap m) t)
      /\ (forall kvs kvs' : list (string * Value),
             NoDup kvs.*1 -> kvs ≡ₚ kvs' ->
             EncodePacked (VMap (list_to_map kvs')) t
             = EncodePacked (VMap (list_to_map kvs)) t))
  /\ EncodePacked keyedAB tupleAB = Ok [x01; x01]
  /\ EncodePacked keyedBA tupleAB = Ok [x01; x01]
  /\ EncodePacked (VSlice [VUint Sz64 1; VBool true; VString "extra"]) tupleAB
     = Ok [x01; x01]
  /\ EncodePacked (VSlice [VUint Sz64 1]) tupleAB = Err ErrTupleLen
  /\ EncodePacked (VMap (<["a"%string := VUint Sz64 1]>
                          (<["c"%string := VBool true]> ∅))) tupleAB
     = Err (ErrCannotGetKey "b").
Proof.
  split; [|repeat split; vm_compute; reflexivity].
  intros t Hk fields. unfold EncodePacked.
  split; [|split; [|split; [|split; [|split; [|split; [|split]]]]]].
  - intros l i name. split; reflexivity.
  - intros m i name. unfold tupleEntry, fieldName.
    destruct (String.eqb_spec name EmptyString);
      destruct (decide (name = EmptyString));
      congruence.
  - intros v Hv Hlen. rewrite encodePacked_tuple by assumption. fold fields.
    destruct (Z.ltb_spec (Value_Len v) (Z.of_nat (length fields))); [reflexivity|lia].
  - intros v outs Hv Hlen Houts H. rewrite encodePacked_tuple by assumption.
    fold fields.
    destruct (Z.ltb_spec (Value_Len v) (Z.of_nat (length fields))); [lia|].
    apply encodeFields_Ok; assumption.
  - intros v k name ft Hv Hlen Hfk Hnone Hbefore.
    rewrite encodePacked_tuple by assumption. fold fields.
    destruct (Z.ltb_spec (Value_Len v) (Z.of_nat (length fields))); [lia|].
    apply (encodeFields_missing _ _ _ 0%nat k name ft); assumption.
  - intros l extra Hlen.
    rewrite !encodePacked_tuple by (assumption || reflexivity). fold fields.
    simpl Value_Len. rewrite length_app.
    destruct (Z.ltb_spec (Z.of_nat (length l + length extra))
                (Z.of_nat (length fields))); [lia|].
    destruct (Z.ltb_spec (Z.of_nat (length l)) (Z.of_nat (length fields))); [lia|].
    split; apply encodeFields_ext; intros j name ft Hj; simpl;
      apply lookup_app_l; apply lookup_lt_Some in Hj; lia.
  - intros m m' Hm Hm' Hagree.
    rewrite !encodePacked_tuple by (assumption || reflexivity). fold fields.
    simpl Value_Len.
    destruct (Z.ltb_spec (Z.of_nat (size m')) (Z.of_nat (length fields))); [lia|].
    destruct (Z.ltb_spec (Z.of_nat (size m)) (Z.of_nat (length fields))); [lia|].
    apply encodeFields_ext. intros j name ft Hj. apply (Hagree j name ft Hj).
  - intros kvs kvs' Hnd Hperm.
    rewrite (list_to_map_proper kvs kvs' Hnd Hperm). reflexivity.
Qed.

Lemma C6_witness :
  EncodePacked (VSlice [VUint Sz64 1]) tupleAB = Err ErrTupleLen
  /\ EncodePacked keyedAB tupleAB = Ok (concat [[x01]; [x01]]).
Proof.
  split.
  - apply (proj1 (proj2 (proj2 (proj1 C6_tuple_encoding tupleAB eq_refl)))).
    + reflexivity.
    + vm_compute. reflexivity.
  - apply (proj1 (proj2 (proj2 (proj2 (proj1 C6_tuple_encoding tupleAB eq_refl))))).
    + reflexivity.
    + vm_compute. discriminate.
    + reflexivity.
    + intros i name ft Hi. destruct i as [|[|i]]; simpl in Hi.
      * injection Hi as <- <-.
        exists (VUint Sz64 1), [x01]. repeat split; vm_compute; reflexivity.
      * injection Hi as <- <-.
        exists (VBool true), [x01]. repeat split; vm_compute; reflexivity.
      * discriminate Hi.
Defined.

(* ================================================================== *)
(** * The round trip *)

Lemma readIntegerPacked_congr (t t' : Type_) (b : list byte) :
  TKind t = TKind t' -> TGoKind t = TGoKind t' ->
  readIntegerPacked t b = readIntegerPacked t' b.
Proof. intros Hk Hg. unfold readIntegerPacked. rewrite Hk, Hg. reflexivity. Qed.

Lemma encodeNumPacked_numericValue (v : Value) (t : Type_) (n : Z) :
  numericValue v = Some n ->
  arbitraryPrecision v && negb (TSize t =? 256) = false ->
  encodeNumPacked v t = Ok (toUSize n (TSize t)).
Proof.
  intros Hn Hap. destruct v; try discriminate Hn; simpl in *.
  - injection Hn as <-. reflexivity.
  - injection Hn as <-. reflexivity.
  - injection Hn as <-. destruct (Z.eqb_spec (TSize t) 256) as [->|];
      [reflexivity|discriminate].
  - injection Hn as <-. reflexivity.
  - destruct (Z.eqb_spec (TSize t) 256) as [->|]; [|discriminate].
    destruct (SetString s 10) as [m|].
    + injection Hn as <-. reflexivity.
    + destruct (string_from2 s) as [s2| |]; try discriminate Hn. simpl.
      rewrite Hn. reflexivity.
Qed.

Lemma to_signed_mod (w n : Z) :
  0 < w ->
  to_signed w n
  = if 2 ^ (w - 1) - 1 <? n mod 2 ^ w then n mod 2 ^ w - 2 ^ w else n mod 2 ^ w.
Proof.
  intros Hw. unfold to_signed.
  destruct (Z.ltb_spec (n mod 2 ^ w) (2 ^ (w - 1))),
    (Z.ltb_spec (2 ^ (w - 1) - 1) (n mod 2 ^ w)); lia.
Qed.

(** Integers: what the encoder writes, the reader reads back at the
    canonical width and sign. *)
Lemma roundtrip_integer (t : Type_) (v v' : Value) :
  TKind t = KindInt \/ TKind t = KindUInt ->
  wellFormed t = true ->
  normalizeInt t v = Some v' ->
  exists bs,
    encodeNumPacked v t = Ok bs
    /\ Z.of_nat (length bs) = Z.quot (TSize t) 8
    /\ readIntegerPacked t bs = Ok v'.
Proof.
  intros Hk Hwf Hnorm. rewrite wellFormed_eq in Hwf.
  assert ((0 <? TSize t) && (TSize t mod 8 =? 0)
          && GoKind_eqb (TGoKind t) (goKindOf (TKind t) (TSize t)) = true) as Hwf'
    by (destruct Hk as [Hk|Hk]; rewrite Hk in Hwf; rewrite Hk; exact Hwf).
  clear Hwf. apply andb_true_iff in Hwf' as [Hwf Hgo].
  apply andb_true_iff in Hwf as [H0 H8].
  apply Z.ltb_lt in H0. apply Z.eqb_eq in H8. apply GoKind_eqb_eq in Hgo.
  unfold normalizeInt in Hnorm. cbv zeta in Hnorm.
  destruct (numericValue v) as [n|] eqn:Hn; [|discriminate]. simpl in Hnorm.
  destruct (arbitraryPrecision v && negb (TSize t =? 256)) eqn:Hap;
    [discriminate|].
  exists (toUSize n (TSize t)).
  split; [apply encodeNumPacked_numericValue; assumption|].
  rewrite Z.quot_div_nonneg by lia.
  split; [apply toUSize_length; lia|].
  pose proof (toUSize_length n (TSize t) ltac:(lia) H8) as Hlen.
  pose proof (SetBytes_toUSize n (TSize t) ltac:(lia) H8) as Hset.
  rewrite (readIntegerPacked_congr t (scalarType (TKind t) (TSize t)))
    by (simpl; auto).
  destruct (nativeWidth (TSize t)) as [sz|] eqn:Hnw.
  - destruct (readIntegerPacked_native (TSize t) sz _ Hnw Hlen) as [Hu Hs].
    rewrite Hset in Hu, Hs. rewrite <- to_signed_mod in Hs by lia.
    destruct Hk as [Hk|Hk]; rewrite Hk in *; congruence.
  - rewrite (readIntegerPacked_other _ _ _ Hnw) by tauto. rewrite Hset.
    destruct Hk as [Hk|Hk]; rewrite Hk in *; simpl Kind_eqb; cbv iota;
      [|congruence].
    pose proof (Z.mod_pos_bound n (2 ^ TSize t) ltac:(lia)) as Hm.
    rewrite to_signed_mod in Hnorm by lia.
    destruct (Z.eqb_spec (TSize t) 256) as [E|NE]; simpl in Hnorm.
    + injection Hnorm as <-. rewrite E. reflexivity.
    + destruct (Z.ltb_spec (TSize t) 256) as [Hlt|]; simpl in Hnorm;
        [|discriminate].
      assert (2 ^ TSize t <= 2 ^ 255) as Hpow
        by (apply Z.pow_le_mono_r; lia).
      assert (2 ^ (TSize t - 1) < 2 ^ TSize t)
        by (apply Z.pow_lt_mono_r; lia).
      destruct (Z.ltb_spec (2 ^ (TSize t - 1) - 1) (n mod 2 ^ TSize t)).
      * destruct (Z.leb_spec 0 (n mod 2 ^ TSize t - 2 ^ TSize t));
          [lia|discriminate].
      * destruct (Z.leb_spec 0 (n mod 2 ^ TSize t)); [|discriminate].
        injection Hnorm as <-.
        destruct (Z.ltb_spec (2 ^ 255 - 1) (n mod 2 ^ TSize t)); [lia|].
        reflexivity.
Qed.

Lemma positiveElems_eq (t : Type_) :
  positiveElems t =
  match TKind t with
  | KindArray =>
      match TElem t with
      | Some et => (0 <? prefixLength et) && positiveElems et
      | None => false
      end
  | KindTuple => forallb (fun p => positiveElems (snd p)) (TTupleElems t)
  | _ => true
  end.
Proof. destruct t; reflexivity. Qed.

Lemma normalize_eq (t : Type_) (v : Value) :
  normalize t v =
  match TKind t with
  | KindBool =>
      match v with
      | VBool true => Some (VBool true)
      | _ => None
      end
  | KindInt | KindUInt => normalizeInt t v
  | KindAddress =>
      match bytes_or_text Address_UnmarshalText v with
      | Ok bs =>
          if (length bs =? 20)%nat then Some (VArray (values_of_bytes bs))
          else None
      | _ => None
      end
  | KindFixedBytes | KindFunction =>
      match bytes_or_text decodeHex v with
      | Ok bs =>
          if Z.of_nat (length bs) <=? TSize t
          then Some (VArray (values_of_bytes (rightPad bs (TSize t))))
          else None
      | _ => None
      end
  | KindArray =>
      match v, TElem t with
      | VArray l, Some et =>
          if TSize t =? Z.of_nat (length l)
          then VArray <$> mapM (normalize et) l
          else None
      | _, _ => None
      end
  | KindTuple =>
      if tupleInput v && (Z.of_nat (length (TTupleElems t)) <=? Value_Len v)
      then
        kvs ← normalizeFields normalize v 0 (TTupleElems t);
        if bool_decide (NoDup kvs.*1) then Some (VMap (list_to_map kvs))
        else None
      else None
  | KindSlice | KindBytes | KindString => None
  end.
Proof. destruct t; reflexivity. Qed.

(** A scalar branch of [decodePacked] on a buffer that starts with the
    bytes the kind requires. *)
Lemma scalar_branch_app (read : list byte -> result Value)
    (bs suffix : list byte) (n : Z) (v : Value) :
  Z.of_nat (length bs) = n -> read bs = Ok v ->
  (word ← slice_to (bs ++ suffix) n; val ← read word;
   Ok (val, slice_from (bs ++ suffix) n)) = Ok (v, suffix).
Proof.
  intros <- Hr. unfold slice_to, slice_from.
  destruct (Z.ltb_spec (Z.of_nat (length bs)) 0); [lia|].
  rewrite Nat2Z.id, take_app_length, drop_app_length. simpl.
  rewrite Hr. reflexivity.
Qed.

Lemma requiredLength_passes (t : Type_) (bs suffix : list byte) :
  requiredLength t (bs ++ suffix) <= Z.of_nat (length (bs ++ suffix)) ->
  forall (X : Type) (a b : X),
    (if Z.of_nat (length (bs ++ suffix)) <? requiredLength t (bs ++ suffix)
     then a else b) = b.
Proof.
  intros H X a b.
  destruct (Z.ltb_spec (Z.of_nat (length (bs ++ suffix)))
              (requiredLength t (bs ++ suffix))); [lia|reflexivity].
Qed.

(** The loop over the elements of an array, encoded then decoded. *)
Lemma roundtrip_elems (enc : Value -> result (list byte))
    (dec : list byte -> result (Value * list byte))
    (norm : Value -> option Value) (p : Z) :
  (forall x x', norm x = Some x' ->
     exists bs, enc x = Ok bs /\ Z.of_nat (length bs) = p
                /\ forall suffix, dec (bs ++ suffix) = Ok (x', suffix)) ->
  forall l l',
    mapM norm l = Some l' ->
    exists bs,
      encodeElems enc l = Ok bs
      /\ Z.of_nat (length bs) = Z.of_nat (length l) * p
      /\ forall suffix,
           decodeElems dec (length l) (bs ++ suffix) = Ok (l', suffix).
Proof.
  intros Helem l l' Hl. apply mapM_Some_1 in Hl.
  induction Hl as [|x x' l l' Hx _ IH].
  - exists []. simpl. repeat split.
  - destruct (Helem x x' Hx) as (b & Hb & Hlen & Hdec).
    destruct IH as (bs & Hbs & Hlens & Hdecs).
    exists (b ++ bs). simpl encodeElems. rewrite Hb. simpl. rewrite Hbs. simpl.
    split; [reflexivity|split].
    + rewrite length_app. simpl length. lia.
    + intros suffix. simpl decodeElems. rewrite <- app_assoc, Hdec. simpl.
      rewrite Hdecs. reflexivity.
Qed.

(** The loop over the fields of a tuple, encoded then decoded into a map
    that has none of the field names yet. *)
Lemma roundtrip_fields (v : Value) (elems : list (string * Type_)) :
  Forall (fun f => forall x x', normalize (snd f) x = Some x' ->
            exists bs, encodePacked x (snd f) = Ok bs
                       /\ Z.of_nat (length bs) = prefixLength (snd f)
                       /\ forall suffix,
                            decodePacked (snd f) (bs ++ suffix)
                            = Ok (x', suffix)) elems ->
  forall i kvs,
    normalizeFields normalize v i elems = Some kvs ->
    exists bs,
      encodeFields encodePacked v i elems = Ok bs
      /\ Z.of_nat (length bs)
         = fold_right (fun f acc => prefixLength (snd f) + acc) 0 elems
      /\ forall (res : gmap string Value) suffix,
           NoDup kvs.*1 ->
           (forall k, k ∈ kvs.*1 -> res !! k = None) ->
           decodeFields decodePacked i elems res (bs ++ suffix)
           = Ok (VMap (list_to_map kvs ∪ res), suffix).
Proof.
  induction 1 as [|[name ft] elems Hft _ IH]; intros i kvs Hn.
  - simpl in Hn. injection Hn as <-. exists []. simpl.
    split; [reflexivity|split; [reflexivity|]].
    intros res suffix _ _. rewrite (left_id ∅ (∪)). reflexivity.
  - simpl in Hn.
    destruct (tupleEntry v i name) as [x|] eqn:Hx; [|discriminate]. simpl in Hn.
    destruct (normalize ft x) as [y|] eqn:Hy; [|discriminate]. simpl in Hn.
    destruct (normalizeFields normalize v (S i) elems) as [kvs'|] eqn:Hk;
      [|discriminate].
    simpl in Hn. injection Hn as <-.
    destruct (Hft x y Hy) as (b & Hb & Hlen & Hdec). simpl snd in *.
    destruct (IH (S i) kvs' Hk) as (bs & Hbs & Hlens & Hdecs).
    exists (b ++ bs). simpl encodeFields. rewrite Hx, Hb. simpl. rewrite Hbs.
    simpl. split; [reflexivity|split].
    + rewrite length_app. simpl in *. lia.
    + intros res suffix Hnd Hfresh. simpl decodeFields.
      rewrite <- app_assoc, Hdec. simpl.
      change (NoDup (fieldName i name :: kvs'.*1)) in Hnd.
      change (forall k, k ∈ fieldName i name :: kvs'.*1 -> res !! k = None)
        in Hfresh.
      apply NoDup_cons in Hnd as [Hnotin Hnd].
      rewrite (Hfresh (fieldName i name)) by (apply list_elem_of_here).
      rewrite Hdecs; [| exact Hnd |].
      * do 3 f_equal. simpl list_to_map.
        rewrite <- insert_union_l. symmetry. apply insert_union_r.
        apply not_elem_of_list_to_map_1. exact Hnotin.
      * intros k Hk'. rewrite lookup_insert_ne.
        -- apply Hfresh. apply list_elem_of_further. exact Hk'.
        -- intros <-. contradiction.
Qed.

Lemma elemSize_bound (t : Type_) :
  wellFormed t = true -> positiveElems t = true ->
  Z.quot (TSize t) 8 <= prefixLength t.
Proof.
  intros Hwf Hpos. pose proof (prefixLength_nonneg t Hwf) as Hnn.
  rewrite wellFormed_eq in Hwf. rewrite positiveElems_eq in Hpos.
  rewrite prefixLength_eq in *.
  assert (forall z, 0 <= z -> Z.quot z 8 <= z) as Hq.
  { intros z Hz. rewrite Z.quot_div_nonneg by lia.
    apply Z.div_le_upper_bound; lia. }
  destruct (TKind t).
  - apply Z.eqb_eq in Hwf. rewrite Hwf. vm_compute. discriminate.
  - lia.
  - lia.
  - apply Z.eqb_eq in Hwf. rewrite Hwf. vm_compute. discriminate.
  - apply andb_true_iff in Hwf as [Hsz Hwf]. apply Z.leb_le in Hsz.
    destruct (TElem t) as [et|]; [|discriminate].
    apply andb_true_iff in Hpos as [Hp _]. apply Z.ltb_lt in Hp.
    specialize (Hq (TSize t) Hsz). nia.
  - apply andb_true_iff in Hwf as [Hsz _]. apply Z.eqb_eq in Hsz.
    rewrite Hsz. vm_compute. discriminate.
  - apply Z.eqb_eq in Hwf. rewrite Hwf. vm_compute. discriminate.
  - apply Z.eqb_eq in Hwf. rewrite Hwf. vm_compute. discriminate.
  - apply Z.ltb_lt in Hwf. apply Hq. lia.
  - apply andb_true_iff in Hwf as [Hsz _]. apply Z.eqb_eq in Hsz.
    rewrite Hsz. exact Hnn.
  - apply Z.eqb_eq in Hwf. rewrite Hwf. vm_compute. discriminate.
Qed.

Lemma rightPad_length (bs : list byte) (n : Z) :
  Z.of_nat (length bs) <= n -> Z.of_nat (length (rightPad bs n)) = n.
Proof.
  intros H. unfold rightPad. rewrite length_app, length_replicate. lia.
Qed.

(** Encoding an input that has a normal form, then decoding the bytes
    (followed by any others), gives the normal form and leaves the
    others. *)
Lemma roundtrip_static (t : Type_) :
  wellFormed t = true -> static t = true -> positiveElems t = true ->
  forall v v',
    normalize t v = Some v' ->
    exists bs,
      encodePacked v t = Ok bs
      /\ Z.of_nat (length bs) = prefixLength t
      /\ forall suffix, decodePacked t (bs ++ suffix) = Ok (v', suffix).
Proof.
  induction t as [k sz el tup gk IHel IHtup] using Type_induction.
  intros Hwf Hst Hpos v v' Hnorm.
  pose proof (prefixLength_nonneg _ Hwf) as Hnn.
  set (t := mkType k sz el tup gk) in *.
  assert (forall bs suffix (X : Type) (a b : X),
             requiredLength t (bs ++ suffix) <= Z.of_nat (length bs) ->
             (if Z.of_nat (length (bs ++ suffix)) <? requiredLength t (bs ++ suffix)
              then a else b) = b) as Hpass.
  { intros bs suffix X a b H. apply requiredLength_passes.
    rewrite length_app. lia. }
  pose proof Hwf as Hwf0.
  rewrite wellFormed_eq in Hwf. rewrite static_eq in Hst.
  rewrite positiveElems_eq in Hpos. rewrite normalize_eq in Hnorm.
  rewrite prefixLength_eq in *. rewrite encodePacked_eq.
  assert (TKind t = k) as Hk by reflexivity.
  assert (TSize t = sz) as Hsz' by reflexivity.
  assert (TElem t = el) as Hel' by reflexivity.
  assert (TTupleElems t = tup) as Htup' by reflexivity.
  rewrite Hk in *. destruct k; try discriminate Hst.
  - (* Bool *)
    destruct v as [[|]| | | | | | | | | |]; try discriminate Hnorm.
    injection Hnorm as <-. exists [x01].
    split; [reflexivity|split; [reflexivity|]].
    intros suffix. rewrite decodePacked_eq. cbv zeta.
    rewrite Hpass by (unfold requiredLength; rewrite Hk; simpl; lia).
    rewrite Hk. unfold requiredLength. rewrite Hk.
    apply scalar_branch_app; reflexivity.
  - (* UInt *)
    destruct (roundtrip_integer t v v' (or_intror Hk) Hwf0 Hnorm)
      as (bs & Henc & Hlen & Hread).
    exists bs. split; [exact Henc|split; [exact Hlen|]].
    intros suffix. rewrite decodePacked_eq. cbv zeta.
    rewrite Hpass by (unfold requiredLength; rewrite Hk; lia).
    rewrite Hk. unfold requiredLength. rewrite Hk.
    apply scalar_branch_app; assumption.
  - (* Int *)
    destruct (roundtrip_integer t v v' (or_introl Hk) Hwf0 Hnorm)
      as (bs & Henc & Hlen & Hread).
    exists bs. split; [exact Henc|split; [exact Hlen|]].
    intros suffix. rewrite decodePacked_eq. cbv zeta.
    rewrite Hpass by (unfold requiredLength; rewrite Hk; lia).
    rewrite Hk. unfold requiredLength. rewrite Hk.
    apply scalar_branch_app; assumption.
  - (* Array *)
    rewrite Hsz', Hel' in *.
    apply andb_true_iff in Hwf as [Hsz Hwf]. apply Z.leb_le in Hsz.
    destruct el as [et|]; [|discriminate].
    apply andb_true_iff in Hpos as [Hp Hpos]. apply Z.ltb_lt in Hp.
    destruct v; try discriminate Hnorm.
    destruct (Z.eqb_spec sz (Z.of_nat (length l))) as [Hlen|]; [|discriminate].
    destruct (mapM (normalize et) l) as [l'|] eqn:Hl; [|discriminate].
    simpl in Hnorm. injection Hnorm as <-.
    destruct (roundtrip_elems (fun x => encodePacked x et) (decodePacked et)
                (normalize et) (prefixLength et)
                (IHel et eq_refl Hwf Hst Hpos) l l' Hl)
      as (bs & Henc & Hlenbs & Hdec).
    exists bs. unfold encodeSliceAndArrayPacked. rewrite Hk, Hsz'.
    simpl Kind_eqb. simpl negb. cbv iota.
    destruct (Z.eqb_spec sz (Z.of_nat (length l))); [|contradiction].
    simpl negb. cbv iota.
    split; [exact Henc|split; [lia|]].
    intros suffix. rewrite decodePacked_eq. cbv zeta.
    rewrite Hpass by (unfold requiredLength; rewrite Hk, Hsz'; nia).
    rewrite Hk. unfold decodeArraySlicePacked. rewrite Hel', Hsz', Hk.
    destruct (Z.ltb_spec sz 0); [lia|].
    pose proof (elemSize_bound et Hwf Hpos) as Hbound.
    destruct (Z.ltb_spec (Z.of_nat (length (bs ++ suffix)))
                (Z.quot (TSize et) 8 * sz)) as [Hbig|_].
    { rewrite length_app in Hbig. nia. }
    rewrite Hlen, Nat2Z.id.
    replace (fun data => decodePacked et data) with (decodePacked et)
      by reflexivity.
    rewrite Hdec. reflexivity.
  - (* Address *)
    rewrite Hsz' in *. apply Z.eqb_eq in Hwf. subst sz.
    destruct (bytes_or_text Address_UnmarshalText v) as [bs| |] eqn:Hb;
      try discriminate Hnorm.
    destruct (Nat.eqb_spec (length bs) 20) as [Hlen|]; [|discriminate].
    injection Hnorm as <-. exists bs.
    split; [exact Hb|split; [lia|]].
    intros suffix. rewrite decodePacked_eq. cbv zeta.
    rewrite Hpass by (unfold requiredLength; rewrite Hk, Hsz'; lia).
    rewrite Hk. unfold requiredLength. rewrite Hk, Hsz'.
    apply scalar_branch_app; [lia|].
    unfold readAddrPacked. rewrite Hlen. simpl.
    rewrite <- Hlen at 1. rewrite firstn_all. reflexivity.
  - (* FixedBytes *)
    rewrite Hsz' in *. apply Z.ltb_lt in Hwf.
    destruct (bytes_or_text decodeHex v) as [bs| |] eqn:Hb;
      try discriminate Hnorm.
    destruct (Z.leb_spec (Z.of_nat (length bs)) sz) as [Hlen|]; [|discriminate].
    injection Hnorm as <-.
    assert (encodeFixedBytesPacked v t = Ok (rightPad bs sz)) as Henc
      by (unfold encodeFixedBytesPacked; rewrite Hb, Hsz'; reflexivity).
    exists (rightPad bs sz).
    split; [exact Henc|split; [apply rightPad_length; exact Hlen|]].
    intros suffix. rewrite decodePacked_eq. cbv zeta.
    pose proof (rightPad_length bs sz Hlen) as Hrl.
    rewrite Hpass by (unfold requiredLength; rewrite Hk, Hsz'; lia).
    rewrite Hk. unfold requiredLength. rewrite Hk, Hsz'.
    apply scalar_branch_app; [exact Hrl|reflexivity].
  - (* Tuple *)
    rewrite Hsz', Htup' in *.
    apply andb_true_iff in Hwf as [Hsz Hwf]. apply Z.eqb_eq in Hsz.
    destruct (tupleInput v && (Z.of_nat (length tup) <=? Value_Len v)) eqn:Hin;
      [|discriminate].
    apply andb_true_iff in Hin as [Hin Hlen]. apply Z.leb_le in Hlen.
    destruct (normalizeFields normalize v 0 tup) as [kvs|] eqn:Hkvs;
      [|discriminate].
    simpl in Hnorm. destruct (bool_decide_reflect (NoDup kvs.*1)) as [Hnd|];
      [|discriminate].
    injection Hnorm as <-.
    destruct (roundtrip_fields v tup) with (i := 0%nat) (kvs := kvs)
      as (bs & Henc & Hlenbs & Hdec); [|exact Hkvs|].
    { rewrite forallb_forall in Hwf, Hst, Hpos.
      rewrite Forall_forall in IHtup |- *.
      intros f Hf. apply list_elem_of_In in Hf as Hf'.
      apply (IHtup f Hf (Hwf f Hf') (Hst f Hf') (Hpos f Hf')). }
    exists bs.
    pose proof (encodePacked_tuple v t Hk Hin) as Het.
    rewrite encodePacked_eq, Hk, Htup' in Het. rewrite Het.
    destruct (Z.ltb_spec (Value_Len v) (Z.of_nat (length tup))); [lia|].
    split; [exact Henc|split; [exact Hlenbs|]].
    intros suffix. rewrite decodePacked_eq. cbv zeta.
    rewrite Hpass by (unfold requiredLength; rewrite Hk, Hsz'; lia).
    rewrite Hk. unfold decodeTuplePacked. rewrite Htup'.
    rewrite Hdec; [|exact Hnd|intros; apply lookup_empty].
    rewrite (right_id ∅ (∪)). reflexivity.
  - (* Function *)
    rewrite Hsz' in *. apply Z.eqb_eq in Hwf. subst sz.
    destruct (bytes_or_text decodeHex v) as [bs| |] eqn:Hb;
      try discriminate Hnorm.
    destruct (Z.leb_spec (Z.of_nat (length bs)) 24) as [Hlen|]; [|discriminate].
    injection Hnorm as <-.
    assert (encodeFixedBytesPacked v t = Ok (rightPad bs 24)) as Henc
      by (unfold encodeFixedBytesPacked; rewrite Hb, Hsz'; reflexivity).
    exists (rightPad bs 24).
    pose proof (rightPad_length bs 24 Hlen) as Hrl.
    split; [exact Henc|split; [exact Hrl|]].
    intros suffix. rewrite decodePacked_eq. cbv zeta.
    rewrite Hpass by (unfold requiredLength; rewrite Hk, Hsz'; lia).
    rewrite Hk. unfold requiredLength. rewrite Hk, Hsz'.
    unfold slice_to, slice_from, readFunctionTypePacked. simpl.
    destruct (Nat.ltb_spec (length (rightPad bs 24 ++ suffix)) 24) as [Hs|_].
    { rewrite length_app in Hs. lia. }
    simpl. change (Pos.to_nat 24) with 24%nat.
    rewrite (take_app_length' _ _ 24), (drop_app_length' _ _ 24) by lia.
    reflexivity.
Qed.

(** C5, as the code has it.  For a well-formed descriptor without dynamic
    kind whose arrays have elements of at least one byte, and an input
    that has a normal form (its value at the canonical width and sign; see
    [normalize] for the inputs that have one), encoding succeeds, the
    decoder gives back the normal form and consumes all the bytes, and so
    does the top-level entry unless the encoding is empty. *)
Theorem C5_round_trip_of_normal_forms (t : Type_) (v v' : Value) :
  wellFormed t = true -> static t = true -> positiveElems t = true ->
  normalize t v = Some v' ->
  exists bs,
    EncodePacked v t = Ok bs
    /\ Z.of_nat (length bs) = prefixLength t
    /\ decodePacked t bs = Ok (v', [])
    /\ (bs <> [] -> DecodePacked t bs = Ok v').
Proof.
  intros Hwf Hst Hpos Hnorm.
  destruct (roundtrip_static t Hwf Hst Hpos v v' Hnorm) as (bs & Henc & Hlen & Hdec).
  specialize (Hdec []). rewrite app_nil_r in Hdec.
  exists bs. split; [exact Henc|split; [exact Hlen|split; [exact Hdec|]]].
  intros Hne. unfold DecodePacked. destruct bs; [contradiction|].
  simpl. rewrite Hdec. reflexivity.
Qed.

Lemma C5_witness :
  exists bs,
    EncodePacked keyedAB tupleAB = Ok bs
    /\ Z.of_nat (length bs) = prefixLength tupleAB
    /\ decodePacked tupleAB bs
       = Ok (VMap (list_to_map [("a"%string, VUint Sz8 1);
                                ("b"%string, VBool true)]), [])
    /\ (bs <> [] ->
        DecodePacked tupleAB bs
        = Ok (VMap (list_to_map [("a"%string, VUint Sz8 1);
                                 ("b"%string, VBool true)]))).
Proof.
  apply (C5_round_trip_of_normal_forms tupleAB keyedAB); vm_compute; reflexivity.
Defined.

(** The two's complement example of the round trip: the native integer
    [-1] against a signed 8-bit descriptor. *)
Lemma roundtrip_minus_one :
  EncodePacked (VInt Sz64 (-1)) (intT 8) = Ok [xff]
  /\ DecodePacked (intT 8) [xff] = Ok (VInt Sz8 (-1))
  /\ normalize (intT 8) (VInt Sz64 (-1)) = Some (VInt Sz8 (-1)).
Proof. repeat split; vm_compute; reflexivity. Qed.

(** C5, as stated, fails: the decoder refuses a tuple whose fields get
    the same name, here the first by its position and the second by its
    declaration, although the encoder accepts it. *)
Lemma C5_counterexample :
  EncodePacked (VSlice [VUint Sz8 1; VUint Sz8 2]) tupleCollision
  = Ok [x01; x02]
  /\ DecodePacked tupleCollision [x01; x02] = Err ErrRepeated.
Proof. split; vm_compute; reflexivity. Qed.

(** The round trip also stops at the inputs of C1, C2 and C4: [false], an
    arbitrary-precision integer against a width other than 256, a
    negative integer against a signed width that is neither native nor
    256. *)
Lemma roundtrip_broken_inputs :
  (EncodePacked (VBool false) boolT = Ok []
   /\ DecodePacked boolT [] = Err ErrEmptyInput)
  /\ (exists bs, EncodePacked (VBigInt 1) (uintT 8) = Ok bs
                 /\ DecodePacked (uintT 8) bs = Ok (VUint Sz8 0))
  /\ (EncodePacked (VInt Sz64 (-1)) (intT 24) = Ok [xff; xff; xff]
      /\ DecodePacked (intT 24) [xff; xff; xff] = Ok (VBigInt 16777215)).
Proof.
  split; [split; vm_compute; reflexivity|].
  split; [eexists; split; vm_compute; reflexivity|].
  split; vm_compute; reflexivity.
Qed.

(* ================================================================== *)
(** * Buffers that are too long *)

(** C10. Bytes behind the required prefix length [L] of a (well-formed,
    static) descriptor are dropped without an error.  A buffer that
    decodes with nothing left has exactly [L] bytes, and followed by any
    further bytes it still decodes, to the same value: [decodePacked]
    hands the further bytes back as the remainder and [DecodePacked]
    drops them.  So does the encoding of every input that has a normal
    form, followed by any bytes.  Conversely, when [DecodePacked] succeeds
    on a buffer longer than [L], the decoder has consumed exactly the
    first [L] bytes, bytes are left over, the value is the one of every
    buffer that starts with the same [L] bytes and decodes, and appending
    more bytes changes nothing. *)
Theorem C10_trailing_bytes_discarded (t : Type_) :
  wellFormed t = true -> static t = true ->
  (forall (b : list byte) (v : Value) (extra : list byte),
      decodePacked t b = Ok (v, []) -> b <> [] ->
      Z.of_nat (length b) = prefixLength t
      /\ decodePacked t (b ++ extra) = Ok (v, extra)
      /\ DecodePacked t (b ++ extra) = Ok v)
  /\ (forall (v v' : Value) (bs extra : list byte),
         positiveElems t = true -> normalize t v = Some v' ->
         EncodePacked v t = Ok bs -> bs <> [] ->
         DecodePacked t (bs ++ extra) = Ok v')
  /\ (forall (input : list byte) (v : Value),
         prefixLength t < Z.of_nat (length input) ->
         DecodePacked t input = Ok v ->
         let L := Z.to_nat (prefixLength t) in
         decodePacked t input = Ok (v, drop L input)
         /\ drop L input <> []
         /\ (forall extra, DecodePacked t (input ++ extra) = Ok v)
         /\ (forall input' v',
                take L input' = take L input ->
                DecodePacked t input' = Ok v' -> v' = v)).
Proof.
  intros Hwf Hst.
  pose proof (prefixLength_nonneg t Hwf) as Hnn.
  assert (forall i w, DecodePacked t i = Ok w ->
            exists rest, decodePacked t i = Ok (w, rest)) as Hinv.
  { intros i w Hi. unfold DecodePacked in Hi.
    destruct (length i =? 0)%nat; [discriminate|].
    destruct (decodePacked t i) as [[w' rest]| |]; simpl in Hi;
      [|discriminate..].
    injection Hi as ->. eauto. }
  assert (forall i w rest, i <> [] -> decodePacked t i = Ok (w, rest) ->
            DecodePacked t i = Ok w) as Hrev.
  { intros i w rest Hne Hi. unfold DecodePacked.
    destruct i; [contradiction|]. simpl. rewrite Hi. reflexivity. }
  split; [|split].
  - intros b v extra Hd Hne.
    destruct (decodePacked_static t Hwf Hst _ _ _ Hd) as (Hp & Hnil & Hframe).
    assert (length b = Z.to_nat (prefixLength t)) as Hlen.
    { apply (f_equal length) in Hnil. rewrite length_drop in Hnil.
      simpl in Hnil. lia. }
    assert (decodePacked t (b ++ extra) = Ok (v, extra)) as Hlong.
    { rewrite (Hframe (b ++ extra)).
      - rewrite <- Hlen, drop_app_length. reflexivity.
      - rewrite take_app_le by lia. reflexivity.
      - rewrite length_app. lia. }
    split; [lia|split; [exact Hlong|]].
    apply (Hrev _ _ extra); [|exact Hlong].
    destruct b; [contradiction|discriminate].
  - intros v v' bs extra Hpos Hnorm Henc Hne.
    destruct (roundtrip_static t Hwf Hst Hpos v v' Hnorm)
      as (bs' & Henc' & _ & Hdec).
    unfold EncodePacked in Henc. assert (bs' = bs) as -> by congruence.
    apply (Hrev _ _ extra); [|apply Hdec].
    destruct bs; [contradiction|discriminate].
  - intros input v Hlen H. cbv zeta.
    destruct (Hinv _ _ H) as [rest Hd].
    destruct (decodePacked_static t Hwf Hst _ _ _ Hd) as (Hp & -> & Hframe).
    split; [exact Hd|split; [|split]].
    + intros E. apply (f_equal length) in E. rewrite length_drop in E.
      simpl in E. lia.
    + intros extra.
      apply (Hrev _ _ (drop (Z.to_nat (prefixLength t)) (input ++ extra))).
      * destruct input; [simpl in Hlen; lia|discriminate].
      * apply Hframe.
        -- rewrite take_app_le by lia. reflexivity.
        -- rewrite length_app. lia.
    + intros input' v' Htake H'.
      destruct (Hinv _ _ H') as [rest' Hd'].
      destruct (decodePacked_static t Hwf Hst _ _ _ Hd') as (Hp' & -> & Hframe').
      destruct (Nat.le_gt_cases (length input) (length input')) as [Hle|Hgt].
      * rewrite (Hframe input' Htake Hle) in Hd'. congruence.
      * rewrite (Hframe' input (eq_sym Htake) ltac:(lia)) in Hd. congruence.
Qed.

Lemma C10_witness :
  Z.of_nat (length [x01; x02]) = prefixLength (uintT 16)
  /\ decodePacked (uintT 16) ([x01; x02] ++ [x03; x04])
     = Ok (VUint Sz16 258, [x03; x04])
  /\ DecodePacked (uintT 16) ([x01; x02] ++ [x03; x04]) = Ok (VUint Sz16 258).
Proof.
  apply (proj1 (C10_trailing_bytes_discarded (uintT 16) eq_refl eq_refl)
           [x01; x02] (VUint Sz16 258) [x03; x04]).
  - vm_compute. reflexivity.
  - discriminate.
Defined.

(* ================================================================== *)
(** * Further properties: sequences *)

Lemma encodeElems_app (enc : Value -> result (list byte)) (l1 l2 : list Value) :
  encodeElems enc (l1 ++ l2)
  = (b1 ← encodeElems enc l1; b2 ← encodeElems enc l2; Ok (b1 ++ b2)).
Proof.
  induction l1 as [|x l1 IH]; simpl.
  - destruct (encodeElems enc l2); reflexivity.
  - destruct (enc x) as [b| |]; simpl; [|reflexivity..].
    rewrite IH. destruct (encodeElems enc l1) as [b1| |]; simpl; [|reflexivity..].
    destruct (encodeElems enc l2) as [b2| |]; simpl; [|reflexivity..].
    rewrite app_assoc. reflexivity.
Qed.

Lemma encodePacked_slice (l : list Value) (t : Type_) :
  TKind t = KindSlice ->
  encodePacked (VSlice l) t
  = encodeElems (fun x => match TElem t with
                          | Some et => encodePacked x et
                          | None => Panic PanicNilDeref
                          end) l.
Proof.
  intros Hk. rewrite encodePacked_eq, Hk. unfold encodeSliceAndArrayPacked.
  rewrite Hk. reflexivity.
Qed.

(** X1. The encoding of a slice is the concatenation of the encodings of
    its elements, with nothing between or before them: the empty slice
    gives no byte, a slice of one element the bytes of the element, and
    the slice [l1 ++ l2] the bytes of [l1] followed by those of [l2] (or
    the first failure, in that order). *)
Theorem X1_slice_encoding_concatenates (t : Type_) :
  TKind t = KindSlice ->
  EncodePacked (VSlice []) t = Ok []
  /\ (forall x et, TElem t = Some et ->
        EncodePacked (VSlice [x]) t = EncodePacked x et)
  /\ (forall l1 l2,
        EncodePacked (VSlice (l1 ++ l2)) t
        = (b1 ← EncodePacked (VSlice l1) t;
           b2 ← EncodePacked (VSlice l2) t;
           Ok (b1 ++ b2))).
Proof.
  intros Hk. unfold EncodePacked. split; [|split].
  - rewrite encodePacked_slice by assumption. reflexivity.
  - intros x et Hel. rewrite encodePacked_slice by assumption. rewrite Hel.
    simpl. destruct (encodePacked x et); simpl; [|reflexivity..].
    rewrite app_nil_r. reflexivity.
  - intros l1 l2. rewrite !encodePacked_slice by assumption.
    apply encodeElems_app.
Qed.

Lemma X1_witness :
  EncodePacked (VSlice ([VUint Sz16 1] ++ [VUint Sz16 2])) (sliceT (uintT 16))
  = (b1 ← EncodePacked (VSlice [VUint Sz16 1]) (sliceT (uintT 16));
     b2 ← EncodePacked (VSlice [VUint Sz16 2]) (sliceT (uintT 16));
     Ok (b1 ++ b2)).
Proof.
  apply (proj2 (proj2 (X1_slice_encoding_concatenates (sliceT (uintT 16)) eq_refl))).
Defined.

(** X2. Against an array descriptor the encoder takes a Go array of
    exactly the declared length: another length is the error "array len
    incompatible", whatever the elements, and a Go slice is refused even
    at the right length; an array of the declared length is encoded as the
    slice of its elements is against the slice descriptor of the same
    element, the length leaving no trace in the output.  A slice
    descriptor refuses a Go array. *)
Theorem X2_array_needs_declared_length (t : Type_) (l : list Value) :
  TKind t = KindArray ->
  (TSize t <> Z.of_nat (length l) -> EncodePacked (VArray l) t = Err ErrArrayLen)
  /\ (TSize t = Z.of_nat (length l) ->
      EncodePacked (VArray l) t = EncodePacked (VSlice l) (asSlice t))
  /\ EncodePacked (VSlice l) t = Err ErrExpectedSlice
  /\ EncodePacked (VArray l) (asSlice t) = Err ErrExpectedArray.
Proof.
  intros Hk. unfold EncodePacked.
  rewrite (encodePacked_slice l (asSlice t)) by reflexivity.
  rewrite !encodePacked_eq, Hk. simpl TKind. cbv iota.
  unfold encodeSliceAndArrayPacked. rewrite Hk. simpl.
  split; [|split; [|split; reflexivity]].
  - intros Hne. destruct (Z.eqb_spec (TSize t) (Z.of_nat (length l)));
      [contradiction|reflexivity].
  - intros He. destruct (Z.eqb_spec (TSize t) (Z.of_nat (length l)));
      [reflexivity|contradiction].
Qed.

Lemma X2_witness :
  EncodePacked (VArray [VUint Sz8 1]) (arrayT 2 (uintT 8)) = Err ErrArrayLen
  /\ EncodePacked (VArray [VUint Sz8 1; VUint Sz8 2]) (arrayT 2 (uintT 8))
     = EncodePacked (VSlice [VUint Sz8 1; VUint Sz8 2]) (asSlice (arrayT 2 (uintT 8))).
Proof.
  split.
  - apply (proj1 (X2_array_needs_declared_length (arrayT 2 (uintT 8))
                    [VUint Sz8 1] eq_refl)).
    vm_compute. discriminate.
  - apply (proj1 (proj2 (X2_array_needs_declared_length (arrayT 2 (uintT 8))
                           [VUint Sz8 1; VUint Sz8 2] eq_refl))).
    reflexivity.
Defined.

(* ================================================================== *)
(** * Further properties: scalars *)

(** X3. Native integers are not range-checked but wrapped: against an
    integer descriptor of width [W], signed or not, two native integers
    (of any Go integer type) are encoded to the same bytes exactly when
    they are congruent modulo [2^W]. *)
Theorem X3_native_integers_wrap (t : Type_) (v v' : Value) (n n' : Z) :
  TKind t = KindInt \/ TKind t = KindUInt ->
  0 <= TSize t -> TSize t mod 8 = 0 ->
  nativeInteger v = Some n -> nativeInteger v' = Some n' ->
  (EncodePacked v t = EncodePacked v' t
   <-> n mod 2 ^ TSize t = n' mod 2 ^ TSize t).
Proof.
  intros Hk HW H8 Hv Hv'. unfold EncodePacked.
  assert (forall u m, nativeInteger u = Some m ->
            encodePacked u t = Ok (toUSize m (TSize t))) as Henc.
  { intros u m Hu. rewrite encodePacked_eq.
    destruct Hk as [-> | ->]; destruct u; try discriminate Hu;
      injection Hu as <-; reflexivity. }
  rewrite (Henc v n Hv), (Henc v' n' Hv'). split.
  - intros H. injection H as H. apply (f_equal SetBytes) in H.
    rewrite !SetBytes_toUSize in H by assumption. exact H.
  - intros H. rewrite !toUSize_spec by assumption. rewrite H. reflexivity.
Qed.

Lemma X3_witness :
  EncodePacked (VInt Sz64 (-1)) (uintT 8) = EncodePacked (VUint Sz16 255) (uintT 8)
  <-> (-1) mod 2 ^ TSize (uintT 8) = 255 mod 2 ^ TSize (uintT 8).
Proof.
  apply (X3_native_integers_wrap (uintT 8) (VInt Sz64 (-1)) (VUint Sz16 255)).
  - right. reflexivity.
  - vm_compute. discriminate.
  - reflexivity.
  - reflexivity.
  - reflexivity.
Defined.

Lemma byte_to_Z_inj (x y : byte) : byte_to_Z x = byte_to_Z y -> x = y.
Proof.
  intros H. rewrite <- (byte_of_to_Z x), <- (byte_of_to_Z y), H. reflexivity.
Qed.

(** X4. A boolean is decoded from one byte in front of the buffer: the
    result is [b] with remainder [rest] exactly when the buffer is the
    byte 0x01 (for true) or 0x00 (for false) followed by [rest]; any other
    first byte is the error "bad boolean", and the bytes behind it are not
    looked at. *)
Theorem X4_bool_decoding (t : Type_) :
  TKind t = KindBool ->
  (forall b input rest,
      decodePacked t input = Ok (VBool b, rest)
      <-> input = (if b then x01 else x00) :: rest)
  /\ (forall x rest, x <> x00 -> x <> x01 ->
        decodePacked t (x :: rest) = Err ErrBadBoolean).
Proof.
  intros Hk.
  assert (forall x rest,
             decodePacked t (x :: rest)
             = if byte_to_Z x =? 0 then Ok (VBool false, rest)
               else if byte_to_Z x =? 1 then Ok (VBool true, rest)
               else Err ErrBadBoolean) as Hdec.
  { intros x rest. rewrite decodePacked_eq. cbv zeta.
    unfold requiredLength. rewrite Hk.
    destruct (Z.ltb_spec (Z.of_nat (length (x :: rest))) 1) as [Hl|_];
      [simpl length in Hl; lia|].
    unfold slice_to, slice_from, decodeBoolPacked. simpl.
    destruct (byte_to_Z x =? 0); [reflexivity|].
    destruct (byte_to_Z x =? 1); reflexivity. }
  split.
  - intros b input rest. split.
    + intros H. destruct input as [|x input].
      { rewrite decodePacked_eq in H. cbv zeta in H.
        unfold requiredLength in H. rewrite Hk in H. discriminate H. }
      rewrite Hdec in H.
      destruct (Z.eqb_spec (byte_to_Z x) 0) as [E|_].
      { injection H as <- <-.
        rewrite (byte_to_Z_inj x x00 E). reflexivity. }
      destruct (Z.eqb_spec (byte_to_Z x) 1) as [E|_]; [|discriminate].
      injection H as <- <-. rewrite (byte_to_Z_inj x x01 E). reflexivity.
    + intros ->. rewrite Hdec. destruct b; reflexivity.
  - intros x rest H0 H1. rewrite Hdec.
    destruct (Z.eqb_spec (byte_to_Z x) 0) as [E|_].
    { exfalso. apply H0. apply byte_to_Z_inj. exact E. }
    destruct (Z.eqb_spec (byte_to_Z x) 1) as [E|_]; [|reflexivity].
    exfalso. apply H1. apply byte_to_Z_inj. exact E.
Qed.

Lemma X4_witness :
  decodePacked boolT [x02; x01] = Err ErrBadBoolean.
Proof.
  apply (proj2 (X4_bool_decoding boolT eq_refl)); discriminate.
Defined.

(* ================================================================== *)
(** * Further properties: texts and byte sequences *)

Lemma slice_from_all (input : list byte) :
  slice_from input (Z.of_nat (length input)) = [].
Proof. unfold slice_from. rewrite Nat2Z.id. apply drop_all. Qed.

Lemma decodePacked_takesAll (t : Type_) (input : list byte) :
  takesAll t = true ->
  decodePacked t input
  = Ok (match TKind t with
        | KindString => VString (string_of_list_byte input)
        | _ => VSlice (values_of_bytes input)
        end, []).
Proof.
  intros Hk. rewrite decodePacked_eq. cbv zeta. unfold takesAll in Hk.
  unfold requiredLength.
  destruct (TKind t); try discriminate Hk;
    rewrite Z.ltb_irrefl, slice_from_all; reflexivity.
Qed.

(** X5. A text makes the round trip: it is encoded as its bytes, the
    decoder reads the whole buffer back as the text and leaves nothing,
    and so does the top-level entry, except for the empty text, whose
    encoding is the empty buffer the entry rejects. *)
Theorem X5_string_round_trip (t : Type_) (s : string) :
  TKind t = KindString ->
  EncodePacked (VString s) t = Ok (bytes_of_string s)
  /\ decodePacked t (bytes_of_string s) = Ok (VString s, [])
  /\ (s <> EmptyString -> DecodePacked t (bytes_of_string s) = Ok (VString s))
  /\ (s = EmptyString -> DecodePacked t (bytes_of_string s) = Err ErrEmptyInput).
Proof.
  intros Hk.
  assert (decodePacked t (bytes_of_string s) = Ok (VString s, [])) as Hdec.
  { rewrite decodePacked_takesAll by (unfold takesAll; rewrite Hk; reflexivity).
    rewrite Hk. unfold bytes_of_string.
    rewrite string_of_list_byte_of_string. reflexivity. }
  split; [|split; [exact Hdec|split]].
  - unfold EncodePacked. rewrite encodePacked_eq, Hk. reflexivity.
  - intros Hne. unfold DecodePacked. rewrite Hdec.
    destruct s; [contradiction|reflexivity].
  - intros ->. reflexivity.
Qed.

Lemma X5_witness :
  DecodePacked (scalarType KindString 0) (bytes_of_string "abc") = Ok (VString "abc").
Proof.
  apply (proj1 (proj2 (proj2 (X5_string_round_trip (scalarType KindString 0)
                                "abc" eq_refl)))).
  discriminate.
Defined.

(** X6. A byte sequence makes the round trip: given as a byte slice, a
    byte array or a hexadecimal text, it is encoded as the bytes
    themselves, whatever their number; the decoder reads the whole buffer
    back as a byte slice and leaves nothing, and so does the top-level
    entry unless the sequence is empty. *)
Theorem X6_bytes_round_trip (t : Type_) (v : Value) (bs : list byte) :
  TKind t = KindBytes -> holdsBytes v bs ->
  EncodePacked v t = Ok bs
  /\ decodePacked t bs = Ok (VSlice (values_of_bytes bs), [])
  /\ (bs <> [] -> DecodePacked t bs = Ok (VSlice (values_of_bytes bs))).
Proof.
  intros Hk Hv.
  assert (decodePacked t bs = Ok (VSlice (values_of_bytes bs), [])) as Hdec.
  { rewrite decodePacked_takesAll by (unfold takesAll; rewrite Hk; reflexivity).
    rewrite Hk. reflexivity. }
  split; [|split; [exact Hdec|]].
  - unfold EncodePacked. rewrite encodePacked_eq, Hk.
    apply bytes_or_text_holds. exact Hv.
  - intros Hne. unfold DecodePacked. rewrite Hdec.
    destruct bs; [contradiction|reflexivity].
Qed.

Lemma X6_witness :
  DecodePacked (scalarType KindBytes 0) [xab; xcd]
  = Ok (VSlice (values_of_bytes [xab; xcd])).
Proof.
  apply (proj2 (proj2 (X6_bytes_round_trip (scalarType KindBytes 0)
                         (VString "0xabcd") [xab; xcd] eq_refl
                         (or_intror (or_intror
                            (ex_intro _ "0xabcd"%string (conj eq_refl eq_refl))))))).
  discriminate.
Defined.

(* ================================================================== *)
(** * Further properties: slices of elements without a declared size *)

Lemma decodeFields_app (dec : Type_ -> list byte -> result (Value * list byte))
    (pre post : list (string * Type_)) :
  forall i res data m rest,
    decodeFields dec i pre res data = Ok (VMap m, rest) ->
    decodeFields dec i (pre ++ post) res data
    = decodeFields dec (i + length pre) post m rest.
Proof.
  induction pre as [|[name et] pre IH]; intros i res data m rest H.
  - simpl in H. injection H as <- <-. simpl. rewrite Nat.add_0_r. reflexivity.
  - simpl in H |- *.
    destruct (dec et data) as [[val tail]| |]; simpl in H |- *;
      [|discriminate..].
    destruct (res !! fieldName i name); [discriminate|].
    rewrite (IH _ _ _ _ _ H). f_equal. lia.
Qed.

(** X8. A slice whose element has no declared size (a boolean, a text, a
    tuple, ...) is decoded, from a buffer that is not empty, as one single
    element: the element count is the buffer length divided by itself.
    What the element leaves is the remainder; no second element is
    read. *)
Theorem X8_slice_without_element_size (t et : Type_) (input : list byte) :
  TKind t = KindSlice -> TElem t = Some et ->
  TSize et = 0 -> TKind et <> KindInt -> TKind et <> KindUInt ->
  input <> [] ->
  decodePacked t input
  = ('(v, rest) ← decodePacked et input; Ok (VSlice [v], rest)).
Proof.
  intros Hk Hel Hsz Hni Hnu Hne.
  assert (0 < Z.of_nat (length input)) as Hlen
    by (destruct input; [contradiction|simpl; lia]).
  rewrite decodePacked_eq. cbv zeta. unfold requiredLength.
  rewrite Hk, Hel, Z.ltb_irrefl.
  assert (sliceElemSize et (Z.of_nat (length input)) = Z.of_nat (length input))
    as Hes.
  { unfold sliceElemSize. rewrite Hsz. simpl.
    destruct (TKind et); try reflexivity; contradiction. }
  rewrite Hes. destruct (Z.eqb_spec (Z.of_nat (length input)) 0); [lia|].
  rewrite Z.quot_same by lia.
  unfold decodeArraySlicePacked. rewrite Hel, Hk, Hsz.
  change (1 <? 0) with false. change (Z.quot 0 8 * 1) with 0.
  destruct (Z.ltb_spec (Z.of_nat (length input)) 0); [lia|].
  change (Z.to_nat 1) with 1%nat. simpl decodeElems.
  destruct (decodePacked et input) as [[v rest]| |]; reflexivity.
Qed.

Lemma X8_witness :
  decodePacked (sliceT boolT) [x01; x01]
  = ('(v, rest) ← decodePacked boolT [x01; x01]; Ok (VSlice [v], rest)).
Proof.
  apply (X8_slice_without_element_size (sliceT boolT) boolT [x01; x01]);
    (reflexivity || discriminate).
Defined.

(** X9. On the empty buffer the decoding of a slice whose element has no
    declared size divides by zero: the call panics.  The top-level entry
    never passes the empty buffer on, but a tuple does: when the fields
    before such a slice take the whole buffer, decoding the tuple
    panics. *)
Theorem X9_empty_buffer_for_slice_panics (t et : Type_) :
  TKind t = KindSlice -> TElem t = Some et -> TSize et = 0 ->
  decodePacked t [] = Panic PanicDivideByZero
  /\ (forall pre name input m,
         decodePacked (tupleT pre) input = Ok (VMap m, []) ->
         decodePacked (tupleT (pre ++ [(name, t)])) input
         = Panic PanicDivideByZero).
Proof.
  intros Hk Hel Hsz.
  assert (decodePacked t [] = Panic PanicDivideByZero) as Hp.
  { rewrite decodePacked_eq. cbv zeta. unfold requiredLength.
    rewrite Hk, Hel. simpl. unfold sliceElemSize. rewrite Hsz. simpl.
    destruct (TKind et); reflexivity. }
  split; [exact Hp|].
  intros pre name input m H.
  rewrite decodePacked_eq in H |- *. cbv zeta in H |- *.
  unfold requiredLength in H |- *. simpl TKind in H |- *. simpl TSize in H |- *.
  cbv iota in H |- *.
  destruct (Z.of_nat (length input) <? 0); [discriminate|].
  unfold decodeTuplePacked in H |- *. simpl TTupleElems in H |- *.
  rewrite (decodeFields_app _ _ _ _ _ _ _ _ H). simpl. rewrite Hp. reflexivity.
Qed.

Lemma X9_witness :
  decodePacked (tupleT ([("n"%string, uintT 8)] ++ [("l"%string, sliceT boolT)])) [x07]
  = Panic PanicDivideByZero.
Proof.
  apply (proj2 (X9_empty_buffer_for_slice_panics (sliceT boolT) boolT
                  eq_refl eq_refl eq_refl)
           [("n"%string, uintT 8)] "l"%string [x07]
           (<["n"%string := VUint Sz8 7]> ∅)).
  vm_compute. reflexivity.
Defined.

(* ================================================================== *)
(** * Further properties: what a decoded tuple and a decoded array hold *)

Lemma fieldNamesFrom_length (i : nat) (elems : list (string * Type_)) :
  length (fieldNamesFrom i elems) = length elems.
Proof.
  revert i. induction elems as [|[name et] elems IH]; intros i; simpl;
    [reflexivity|]. rewrite IH. reflexivity.
Qed.

Lemma decodeFields_VMap (dec : Type_ -> list byte -> result (Value * list byte))
    (elems : list (string * Type_)) :
  forall i res data v rest,
    decodeFields dec i elems res data = Ok (v, rest) -> exists m, v = VMap m.
Proof.
  induction elems as [|[name et] elems IH]; intros i res data v rest H.
  - simpl in H. injection H as <- <-. eauto.
  - simpl in H. destruct (dec et data) as [[val tail]| |]; simpl in H;
      [|discriminate..].
    destruct (res !! fieldName i name); [discriminate|]. eapply IH, H.
Qed.

(** The map the loop over the fields ends with: the entries it started
    with and one more for every field, under names that are new. *)
Lemma decodeFields_keys (dec : Type_ -> list byte -> result (Value * list byte))
    (elems : list (string * Type_)) :
  forall i (res : gmap string Value) data m rest,
    decodeFields dec i elems res data = Ok (VMap m, rest) ->
    NoDup (fieldNamesFrom i elems)
    /\ (forall k, k ∈ fieldNamesFrom i elems -> res !! k = None)
    /\ (forall k, is_Some (m !! k)
                  <-> is_Some (res !! k) \/ k ∈ fieldNamesFrom i elems)
    /\ size m = (size res + length elems)%nat.
Proof.
  induction elems as [|[name et] elems IH]; intros i res data m rest H.
  - simpl in H. injection H as <- <-. simpl.
    split; [constructor|split; [|split; [|lia]]].
    + intros k Hk. inversion Hk.
    + intros k. split; [auto|]. intros [Hs|Hk]; [exact Hs|inversion Hk].
  - simpl in H. destruct (dec et data) as [[val tail]| |]; simpl in H;
      [|discriminate..].
    destruct (res !! fieldName i name) eqn:Hres; [discriminate|].
    apply IH in H as (Hnd & Hfresh & Hiff & Hsize). simpl fieldNamesFrom.
    assert (fieldName i name ∉ fieldNamesFrom (S i) elems) as Hnotin.
    { intros Hin. apply Hfresh in Hin. rewrite lookup_insert_eq in Hin.
      discriminate. }
    split; [constructor; assumption|split; [|split]].
    + intros k Hk. apply elem_of_cons in Hk as [->|Hk]; [exact Hres|].
      pose proof (Hfresh k Hk) as Hn.
      destruct (decide (fieldName i name = k)) as [<-|Hne];
        [contradiction|].
      rewrite lookup_insert_ne in Hn by exact Hne. exact Hn.
    + intros k. rewrite Hiff, lookup_insert_is_Some, elem_of_cons.
      destruct (decide (fieldName i name = k)) as [<-|Hne]; [tauto|].
      assert (k <> fieldName i name) by congruence. tauto.
    + rewrite Hsize, map_size_insert_None by exact Hres. simpl. lia.
Qed.

(** X10. A decoded tuple is a map with exactly one entry per declared
    field, under the declared name or, for an unnamed field, its decimal
    index: the keys are these names and their number is the number of
    fields.  So the names are pairwise different whenever a tuple is
    decoded, and a descriptor in which two fields get the same name is
    decoded from no buffer. *)
Theorem X10_decoded_tuple_keys (t : Type_) :
  TKind t = KindTuple ->
  (forall input v rest,
      decodePacked t input = Ok (v, rest) ->
      exists m : gmap string Value,
        v = VMap m
        /\ (forall k, is_Some (m !! k) <-> k ∈ fieldNames t)
        /\ size m = length (TTupleElems t)
        /\ NoDup (fieldNames t))
  /\ (~ NoDup (fieldNames t) ->
      forall input, isOk (decodePacked t input) = false).
Proof.
  intros Hk.
  assert (forall input v rest,
             decodePacked t input = Ok (v, rest) ->
             exists m : gmap string Value,
               v = VMap m
               /\ (forall k, is_Some (m !! k) <-> k ∈ fieldNames t)
               /\ size m = length (TTupleElems t)
               /\ NoDup (fieldNames t)) as Hmain.
  { intros input v rest H. rewrite decodePacked_eq in H. cbv zeta in H.
    destruct (Z.of_nat (length input) <? requiredLength t input);
      [discriminate|].
    rewrite Hk in H. unfold decodeTuplePacked in H.
    destruct (decodeFields_VMap _ _ _ _ _ _ _ H) as [m ->].
    apply decodeFields_keys in H as (Hnd & _ & Hiff & Hsize).
    exists m. split; [reflexivity|split; [|split; [|exact Hnd]]].
    - intros k. rewrite Hiff, lookup_empty. unfold fieldNames.
      split; [intros [[x Hx]|Hin]; [discriminate|exact Hin]|auto].
    - rewrite Hsize, map_size_empty. reflexivity. }
  split; [exact Hmain|].
  intros Hdup input.
  destruct (decodePacked t input) as [[v rest]| |] eqn:E; [|reflexivity..].
  destruct (Hmain _ _ _ E) as (m & _ & _ & _ & Hnd). contradiction.
Qed.

Lemma X10_witness :
  exists m : gmap string Value,
    VMap (<["0"%string := VUint Sz8 1]> (<["b"%string := VUint Sz8 2]> ∅)) = VMap m
    /\ (forall k, is_Some (m !! k)
                  <-> k ∈ fieldNames (tupleT [(EmptyString, uintT 8);
                                              ("b"%string, uintT 8)]))
    /\ size m = length (TTupleElems (tupleT [(EmptyString, uintT 8);
                                              ("b"%string, uintT 8)]))
    /\ NoDup (fieldNames (tupleT [(EmptyString, uintT 8); ("b"%string, uintT 8)])).
Proof.
  apply (proj1 (X10_decoded_tuple_keys
                  (tupleT [(EmptyString, uintT 8); ("b"%string, uintT 8)]) eq_refl)
           [x01; x02] _ []).
  vm_compute. reflexivity.
Defined.

Lemma decodeElems_length (dec : list byte -> result (Value * list byte)) :
  forall n data vals rest,
    decodeElems dec n data = Ok (vals, rest) -> length vals = n.
Proof.
  induction n as [|n IH]; intros data vals rest H.
  - simpl in H. injection H as <- <-. reflexivity.
  - simpl in H. destruct (dec data) as [[val tail]| |]; simpl in H;
      [|discriminate..].
    destruct (decodeElems dec n tail) as [[vals' rest']| |] eqn:E; simpl in H;
      [|discriminate..].
    injection H as <- <-. simpl. f_equal. eapply IH, E.
Qed.

(** X11. A decoded array is a Go array of exactly the declared number of
    elements; a descriptor with a negative count is decoded from no
    buffer. *)
Theorem X11_decoded_array_count (t : Type_) :
  TKind t = KindArray ->
  (forall input v rest,
      decodePacked t input = Ok (v, rest) ->
      exists vals, v = VArray vals /\ Z.of_nat (length vals) = TSize t)
  /\ (TSize t < 0 -> forall input, isOk (decodePacked t input) = false).
Proof.
  intros Hk.
  assert (forall input v rest,
             decodePacked t input = Ok (v, rest) ->
             0 <= TSize t
             /\ exists vals, v = VArray vals /\ Z.of_nat (length vals) = TSize t)
    as Hmain.
  { intros input v rest H. rewrite decodePacked_eq in H. cbv zeta in H.
    destruct (Z.of_nat (length input) <? requiredLength t input);
      [discriminate|].
    rewrite Hk in H. unfold decodeArraySlicePacked in H.
    destruct (Z.ltb_spec (TSize t) 0); [discriminate|].
    destruct (TElem t) as [et|]; [|discriminate].
    destruct (Z.of_nat (length input) <? Z.quot (TSize et) 8 * TSize t);
      [discriminate|].
    destruct (decodeElems _ (Z.to_nat (TSize t)) input) as [[vals rest']| |] eqn:E;
      simpl in H; [|discriminate..].
    rewrite Hk in H. injection H as <- <-.
    apply decodeElems_length in E. split; [assumption|].
    exists vals. split; [reflexivity|lia]. }
  split.
  - intros input v rest H. apply (Hmain _ _ _ H).
  - intros Hneg input.
    destruct (decodePacked t input) as [[v rest]| |] eqn:E; [|reflexivity..].
    apply Hmain in E as [H0 _]. lia.
Qed.

Lemma X11_witness :
  exists vals,
    VArray [VUint Sz8 1; VUint Sz8 2] = VArray vals
    /\ Z.of_nat (length vals) = TSize (arrayT 2 (uintT 8)).
Proof.
  apply (proj1 (X11_decoded_array_count (arrayT 2 (uintT 8)) eq_refl)
           [x01; x02; x03] _ [x03]).
  vm_compute. reflexivity.
Defined.

(* ================================================================== *)
(** * Further properties: values of the wrong shape *)

(** X12. A value of the wrong shape is an error or a panic, by kind.
    Against a Bool or a String descriptor the encoder never panics: what
    is no boolean, or no text, is an error.  Against the byte kinds
    (Bytes, FixedBytes, Function, Address) a value that is neither a
    sequence nor a text (a boolean, a number, a map, ...) is handed to
    [v.Bytes()], and the call panics. *)
Theorem X12_wrong_shape (t : Type_) (v : Value) :
  (TKind t = KindBool \/ TKind t = KindString ->
   forall p, EncodePacked v t <> Panic p)
  /\ (TKind t = KindBytes \/ fixedByteKind t = true ->
      notByteLike v = true ->
      EncodePacked v t = Panic PanicReflect).
Proof.
  unfold EncodePacked. rewrite encodePacked_eq. split.
  - intros [-> | ->] p.
    + destruct v as [[|]| | | | | | | | | |]; discriminate.
    + destruct v; discriminate.
  - intros Hk Hv. unfold fixedByteKind in Hk.
    unfold encodeBytesPacked, encodeAddressPacked, encodeFixedBytesPacked,
      bytes_or_text.
    destruct (TKind t); try (destruct Hk; discriminate);
      destruct v; try discriminate Hv; reflexivity.
Qed.

Lemma X12_witness :
  EncodePacked (VBool true) addressT = Panic PanicReflect.
Proof.
  apply (proj2 (X12_wrong_shape addressT (VBool true))).
  - right. reflexivity.
  - reflexivity.
Defined.

(* ================================================================== *)
(** * Further properties: adjacent texts *)

Lemma bytes_of_string_app (s1 s2 : string) :
  bytes_of_string (s1 ++ s2) = bytes_of_string s1 ++ bytes_of_string s2.
Proof.
  unfold bytes_of_string, list_byte_of_string.
  induction s1 as [|c s1 IH]; simpl; [reflexivity|]. f_equal. exact IH.
Qed.

(** X13. Two texts next to each other in a tuple run together: the
    encoding is the bytes of their concatenation, so two pairs of texts
    with the same concatenation have the same encoding. *)
Theorem X13_adjacent_texts_run_together (t t1 t2 : Type_) (n1 n2 : string)
    (s1 s2 s1' s2' : string) :
  TKind t = KindTuple -> TTupleElems t = [(n1, t1); (n2, t2)] ->
  TKind t1 = KindString -> TKind t2 = KindString ->
  EncodePacked (VSlice [VString s1; VString s2]) t
  = Ok (bytes_of_string (s1 ++ s2))
  /\ ((s1 ++ s2)%string = (s1' ++ s2')%string ->
      EncodePacked (VSlice [VString s1; VString s2]) t
      = EncodePacked (VSlice [VString s1'; VString s2']) t).
Proof.
  intros Hk Hel Hk1 Hk2.
  assert (forall a b, EncodePacked (VSlice [VString a; VString b]) t
                      = Ok (bytes_of_string (a ++ b))) as Henc.
  { intros a b. unfold EncodePacked.
    rewrite encodePacked_tuple by (assumption || reflexivity). rewrite Hel.
    simpl. rewrite !encodePacked_eq, Hk1, Hk2. simpl.
    rewrite app_nil_r, bytes_of_string_app. reflexivity. }
  split; [apply Henc|]. intros H. rewrite !Henc, H. reflexivity.
Qed.

Lemma X13_witness :
  EncodePacked (VSlice [VString "ab"; VString "c"])
    (tupleT [("x"%string, scalarType KindString 0);
             ("y"%string, scalarType KindString 0)])
  = EncodePacked (VSlice [VString "a"; VString "bc"])
      (tupleT [("x"%string, scalarType KindString 0);
               ("y"%string, scalarType KindString 0)]).
Proof.
  apply (proj2 (X13_adjacent_texts_run_together
                  (tupleT [("x"%string, scalarType KindString 0);
                           ("y"%string, scalarType KindString 0)])
                  (scalarType KindString 0) (scalarType KindString 0)
                  "x" "y" "ab" "c" "a" "bc" eq_refl eq_refl eq_refl eq_refl)).
  reflexivity.
Defined.

(* ================================================================== *)
(** * Further properties: the remainder *)

Lemma decodeElems_suffix (dec : list byte -> result (Value * list byte)) :
  (forall data v rest, dec data = Ok (v, rest) -> rest `suffix_of` data) ->
  forall n data vals rest,
    decodeElems dec n data = Ok (vals, rest) -> rest `suffix_of` data.
Proof.
  intros Hdec. induction n as [|n IH]; intros data vals rest H.
  - simpl in H. injection H as <- <-. reflexivity.
  - simpl in H. destruct (dec data) as [[val tail]| |] eqn:E; simpl in H;
      [|discriminate..].
    destruct (decodeElems dec n tail) as [[vals' rest']| |] eqn:E'; simpl in H;
      [|discriminate..].
    injection H as <- <-. etrans; [eapply IH, E'|eapply Hdec, E].
Qed.

Lemma decodeFields_suffix (dec : Type_ -> list byte -> result (Value * list byte))
    (elems : list (string * Type_)) :
  Forall (fun f => forall data v rest,
            dec (snd f) data = Ok (v, rest) -> rest `suffix_of` data) elems ->
  forall i res data v rest,
    decodeFields dec i elems res data = Ok (v, rest) -> rest `suffix_of` data.
Proof.
  induction 1 as [|[name et] elems Hft _ IH]; intros i res data v rest H.
  - simpl in H. injection H as <- <-. reflexivity.
  - simpl in H. destruct (dec et data) as [[val tail]| |] eqn:E; simpl in H;
      [|discriminate..].
    destruct (res !! fieldName i name); [discriminate|].
    etrans; [eapply IH, H|eapply Hft, E].
Qed.

Lemma scalar_branch_suffix (r : result (list byte)) (read : list byte -> result Value)
    (input : list byte) (n : Z) (v : Value) (rest : list byte) :
  (word ← r; val ← read word; Ok (val, slice_from input n)) = Ok (v, rest) ->
  rest `suffix_of` input.
Proof.
  intros H. destruct r as [word| |]; simpl in H; [|discriminate..].
  destruct (read word); simpl in H; [|discriminate..].
  injection H as <- <-. apply suffix_drop.
Qed.

(** X14. Whatever the descriptor, what [decodePacked] returns as the
    remainder is the end of the buffer it was given: the buffer is some
    consumed bytes followed by the remainder, which is never longer than
    the buffer. *)
Theorem X14_remainder_is_suffix (t : Type_) (input : list byte) (v : Value)
    (rest : list byte) :
  decodePacked t input = Ok (v, rest) ->
  (exists consumed, input = consumed ++ rest)
  /\ (length rest <= length input)%nat.
Proof.
  intros H. assert (rest `suffix_of` input) as Hs;
    [|split; [exact Hs|apply suffix_length, Hs]].
  revert input v rest H.
  induction t as [k sz el tup gk IHel IHtup] using Type_induction.
  intros input v rest H. rewrite decodePacked_eq in H. cbv zeta in H.
  destruct (Z.of_nat (length input) <? _); [discriminate|].
  simpl TKind in H. simpl TElem in H. simpl TTupleElems in H. simpl TSize in H.
  assert (forall size,
             decodeArraySlicePacked
               (fun data => match el with
                            | Some et => decodePacked et data
                            | None => Panic PanicNilDeref
                            end) (mkType k sz el tup gk) input size
             = Ok (v, rest) -> rest `suffix_of` input) as Hseq.
  { intros size Hd. unfold decodeArraySlicePacked in Hd. simpl TElem in Hd.
    destruct (size <? 0); [discriminate|].
    destruct el as [et|]; [|discriminate].
    destruct (Z.of_nat (length input) <? _); [discriminate|].
    destruct (decodeElems _ (Z.to_nat size) input) as [[vals rest']| |] eqn:E;
      simpl in Hd; [|discriminate..].
    injection Hd as _ <-. eapply decodeElems_suffix, E.
    intros data v0 rest0. apply (IHel et eq_refl). }
  destruct k; try (eapply scalar_branch_suffix, H).
  - injection H as _ <-. apply suffix_drop.
  - eapply Hseq, H.
  - destruct el as [et|]; [|discriminate].
    destruct (sliceElemSize et _ =? 0); [discriminate|]. eapply Hseq, H.
  - injection H as _ <-. apply suffix_drop.
  - unfold decodeTuplePacked in H. simpl TTupleElems in H.
    eapply decodeFields_suffix, H.
    eapply Forall_impl; [exact IHtup|]. intros f Hf data v0 rest0. apply Hf.
Qed.

Lemma X14_witness :
  (exists consumed, [x01; x02; x03] = consumed ++ [x03])
  /\ (length [x03] <= length [x01; x02; x03])%nat.
Proof.
  apply (X14_remainder_is_suffix (uintT 16) [x01; x02; x03] (VUint Sz16 258) [x03]).
  vm_compute. reflexivity.
Defined.

(* ================================================================== *)
(** * Further properties: numeric text *)

(** X15. Of a text of two characters or more that is no decimal number,
    the first two characters are dropped unread and what follows is read
    as a hexadecimal number, encoded on 32 bytes: the text is an error
    exactly when what follows is no hexadecimal number, and two such texts
    that differ in their first two characters only have the same
    outcome. *)
Theorem X15_hex_prefix_unread (t : Type_) (a b a' b' : ascii) (s : string) :
  TKind t = KindInt \/ TKind t = KindUInt ->
  SetString (String a (String b s)) 10 = None ->
  SetString (String a' (String b' s)) 10 = None ->
  EncodePacked (VString (String a (String b s))) t
  = match SetString s 16 with
    | Some n => Ok (be_digits 32 (n mod 2 ^ 256))
    | None => Err (ErrEncode "number")
    end
  /\ EncodePacked (VString (String a (String b s))) t
     = EncodePacked (VString (String a' (String b' s))) t.
Proof.
  intros Hk Hs Hs'.
  assert (forall c d, SetString (String c (String d s)) 10 = None ->
            EncodePacked (VString (String c (String d s))) t
            = match SetString s 16 with
              | Some n => Ok (be_digits 32 (n mod 2 ^ 256))
              | None => Err (ErrEncode "number")
              end) as Henc.
  { intros c d Hcd. unfold EncodePacked. rewrite encodePacked_eq.
    destruct Hk as [-> | ->]; rewrite (encodeNumPacked_long_text c d s t Hcd);
      (destruct (SetString s 16); [|reflexivity]);
      rewrite toUSize_spec by (first [lia | reflexivity]); reflexivity. }
  split; [apply Henc, Hs|]. rewrite (Henc a b Hs), (Henc a' b' Hs'). reflexivity.
Qed.

Lemma X15_witness :
  EncodePacked (VString "zz10") (uintT 256) = EncodePacked (VString "0x10") (uintT 256).
Proof.
  apply (proj2 (X15_hex_prefix_unread (uintT 256) "z" "z" "0" "x" "10"
                  (or_intror eq_refl) eq_refl eq_refl)).
Defined.

(* ================================================================== *)
(** * Further properties: decoded integers and fixed byte sequences *)

Lemma decodePacked_integer (t : Type_) (input : list byte) (v : Value)
    (rest : list byte) :
  TKind t = KindInt \/ TKind t = KindUInt ->
  0 < TSize t -> TSize t mod 8 = 0 ->
  decodePacked t input = Ok (v, rest) ->
  let word := take (Z.to_nat (TSize t / 8)) input in
  Z.of_nat (length word) = TSize t / 8
  /\ readIntegerPacked t word = Ok v
  /\ rest = drop (Z.to_nat (TSize t / 8)) input.
Proof.
  intros Hk H0 H8 H. cbv zeta. rewrite decodePacked_eq in H. cbv zeta in H.
  unfold requiredLength in H.
  assert (0 <= TSize t / 8) by (apply Z.div_pos; lia).
  destruct Hk as [Hk|Hk]; rewrite Hk in H;
    rewrite Z.quot_div_nonneg in H by lia;
    (destruct (Z.ltb_spec (Z.of_nat (length input)) (TSize t / 8)) as [|Hlen];
     [discriminate|]);
    unfold slice_to, slice_from in H;
    (destruct (Z.ltb_spec (TSize t / 8) 0); [lia|]); simpl in H;
    (destruct (readIntegerPacked t _) as [val| |] eqn:E; simpl in H;
     [|discriminate..]);
    injection H as <- <-;
    (split; [rewrite length_take; lia|split; reflexivity]).
Qed.

Lemma wellFormed_integer (t : Type_) :
  TKind t = KindInt \/ TKind t = KindUInt -> wellFormed t = true ->
  0 < TSize t /\ TSize t mod 8 = 0
  /\ TGoKind t = goKindOf (TKind t) (TSize t).
Proof.
  intros Hk Hwf. rewrite wellFormed_eq in Hwf.
  destruct Hk as [Hk|Hk]; rewrite Hk in Hwf |- *;
    apply andb_true_iff in Hwf as [Hwf Hgo];
    apply andb_true_iff in Hwf as [H0 H8];
    apply Z.ltb_lt in H0; apply Z.eqb_eq in H8; apply GoKind_eqb_eq in Hgo;
    auto.
Qed.

Lemma pow256_width (W : Z) :
  0 < W -> W mod 8 = 0 -> 256 ^ (W / 8) = 2 ^ W.
Proof.
  intros H0 H8. rewrite pow256 by (apply Z.div_pos; lia). f_equal.
  pose proof (Z.div_mod W 8 ltac:(lia)). lia.
Qed.

(** X17. The integer the decoder returns is the one the first [W/8] bytes
    spell, big-endian: against an unsigned descriptor it is that number
    [m], which lies in [0, 2^W); against a signed descriptor of a native
    width or of width 256 it is the number of [-2^(W-1), 2^(W-1)) that is
    congruent to [m] modulo [2^W]. *)
Theorem X17_decoded_integer_range (t : Type_) (input : list byte) (v : Value)
    (rest : list byte) :
  wellFormed t = true ->
  decodePacked t input = Ok (v, rest) ->
  let m := SetBytes (take (Z.to_nat (TSize t / 8)) input) in
  (TKind t = KindUInt ->
   0 <= m < 2 ^ TSize t
   /\ match nativeWidth (TSize t) with
      | Some sz => v = VUint sz m
      | None => v = VBigInt m
      end)
  /\ (TKind t = KindInt ->
      nativeWidth (TSize t) <> None \/ TSize t = 256 ->
      exists n,
        - 2 ^ (TSize t - 1) <= n < 2 ^ (TSize t - 1)
        /\ n mod 2 ^ TSize t = m
        /\ match nativeWidth (TSize t) with
           | Some sz => v = VInt sz n
           | None => v = VBigInt n
           end).
Proof.
  intros Hwf H. cbv zeta.
  set (word := take (Z.to_nat (TSize t / 8)) input).
  assert (forall k, TKind t = k -> k = KindInt \/ k = KindUInt ->
            0 < TSize t /\ TSize t mod 8 = 0
            /\ 0 <= SetBytes word < 2 ^ TSize t
            /\ readIntegerPacked (scalarType k (TSize t)) word = Ok v) as Hint.
  { intros k Hk Hor. subst k.
    destruct (wellFormed_integer t ltac:(tauto) Hwf) as (H0 & H8 & Hgo).
    destruct (decodePacked_integer t input v rest ltac:(tauto) H0 H8 H)
      as (Hlen & Hread & _). fold word in Hlen, Hread.
    pose proof (SetBytes_range word) as Hr.
    rewrite Hlen, pow256_width in Hr by assumption.
    rewrite (readIntegerPacked_congr t (scalarType (TKind t) (TSize t)))
      in Hread by (simpl; auto).
    auto. }
  split.
  - intros Hk. destruct (Hint KindUInt Hk ltac:(tauto)) as (H0 & H8 & Hr & Hread).
    split; [exact Hr|].
    destruct (decodePacked_integer t input v rest ltac:(tauto) H0 H8 H)
      as (Hlen & _ & _). fold word in Hlen.
    destruct (nativeWidth (TSize t)) as [sz|] eqn:Hnw.
    + destruct (readIntegerPacked_native _ sz word Hnw Hlen) as [Hu _].
      congruence.
    + rewrite (readIntegerPacked_other KindUInt _ _ Hnw) in Hread by tauto.
      simpl in Hread. congruence.
  - intros Hk Hw. destruct (Hint KindInt Hk ltac:(tauto)) as (H0 & H8 & Hr & Hread).
    destruct (decodePacked_integer t input v rest ltac:(tauto) H0 H8 H)
      as (Hlen & _ & _). fold word in Hlen.
    assert (2 ^ TSize t = 2 * 2 ^ (TSize t - 1)) as Hpow.
    { rewrite <- Z.pow_succ_r by lia. f_equal. lia. }
    assert (0 < 2 ^ (TSize t - 1)) by (apply Z.pow_pos_nonneg; lia).
    set (m := SetBytes word) in *.
    exists (if 2 ^ (TSize t - 1) - 1 <? m then m - 2 ^ TSize t else m).
    assert ((if 2 ^ (TSize t - 1) - 1 <? m then m - 2 ^ TSize t else m)
            mod 2 ^ TSize t = m) as Hmod.
    { destruct (Z.ltb_spec (2 ^ (TSize t - 1) - 1) m).
      - replace (m - 2 ^ TSize t) with (m + (-1) * 2 ^ TSize t) by lia.
        rewrite Z.mod_add by lia. apply Z.mod_small. lia.
      - apply Z.mod_small. lia. }
    split; [destruct (Z.ltb_spec (2 ^ (TSize t - 1) - 1) m); lia|].
    split; [exact Hmod|].
    destruct (nativeWidth (TSize t)) as [sz|] eqn:Hnw.
    + destruct (readIntegerPacked_native _ sz word Hnw Hlen) as [_ Hs].
      fold m in Hs. congruence.
    + destruct Hw as [Hw|Hw]; [contradiction|].
      rewrite (readIntegerPacked_other KindInt _ _ Hnw) in Hread by tauto.
      simpl in Hread. fold m in Hread. rewrite Hw in *.
      change (256 - 1) with 255. congruence.
Qed.

Lemma X17_witness :
  0 <= SetBytes (take (Z.to_nat (TSize (uintT 16) / 8)) [x01; x02; x03])
    < 2 ^ TSize (uintT 16)
  /\ match nativeWidth (TSize (uintT 16)) with
     | Some sz => VUint Sz16 258
                  = VUint sz (SetBytes (take (Z.to_nat (TSize (uintT 16) / 8))
                                          [x01; x02; x03]))
     | None => VUint Sz16 258
               = VBigInt (SetBytes (take (Z.to_nat (TSize (uintT 16) / 8))
                                      [x01; x02; x03]))
     end.
Proof.
  apply (proj1 (X17_decoded_integer_range (uintT 16) [x01; x02; x03]
                  (VUint Sz16 258) [x03] eq_refl eq_refl)).
  reflexivity.
Defined.

(** X18. Against an address, a fixed byte sequence or a function value
    the decoder takes the first [L] bytes of the buffer as they are, [L]
    being 20, the declared length or 24: a buffer of [L] bytes or more
    gives the byte array of these bytes and leaves the others, a shorter
    one is an error.  An address descriptor declared with a size other than
    20 is decoded from no buffer. *)
Theorem X18_fixed_bytes_decoding (t : Type_) (input : list byte) :
  fixedByteKind t = true ->
  (wellFormed t = true ->
   let L := Z.to_nat (prefixLength t) in
   ((L <= length input)%nat ->
    decodePacked t input
    = Ok (VArray (values_of_bytes (take L input)), drop L input))
   /\ ((length input < L)%nat -> exists e, decodePacked t input = Err e))
  /\ (TKind t = KindAddress -> TSize t <> 20 ->
      isOk (decodePacked t input) = false).
Proof.
  intros Hfix. split.
  - intros Hwf. cbv zeta. rewrite wellFormed_eq in Hwf.
    rewrite prefixLength_eq, decodePacked_eq. cbv zeta.
    unfold fixedByteKind in Hfix. unfold requiredLength.
    destruct (TKind t) eqn:Hk; try discriminate Hfix.
    + apply Z.eqb_eq in Hwf. rewrite Hwf. split.
      * intros Hlen.
        destruct (Z.ltb_spec (Z.of_nat (length input)) 20); [lia|].
        unfold slice_to, slice_from, readAddrPacked. simpl.
        rewrite length_take.
        replace (Z.to_nat 20 `min` length input)%nat with 20%nat by lia.
        simpl. rewrite take_take. reflexivity.
      * intros Hlen.
        destruct (Z.ltb_spec (Z.of_nat (length input)) 20); [eauto|lia].
    + apply Z.ltb_lt in Hwf. split.
      * intros Hlen.
        destruct (Z.ltb_spec (Z.of_nat (length input)) (TSize t)); [lia|].
        unfold slice_to, slice_from, readFixedBytesPacked.
        destruct (Z.ltb_spec (TSize t) 0); [lia|]. reflexivity.
      * intros Hlen.
        destruct (Z.ltb_spec (Z.of_nat (length input)) (TSize t)); [eauto|lia].
    + apply Z.eqb_eq in Hwf. rewrite Hwf. split.
      * intros Hlen.
        destruct (Z.ltb_spec (Z.of_nat (length input)) 24); [lia|].
        unfold slice_to, slice_from, readFunctionTypePacked. simpl.
        destruct (Nat.ltb_spec (length input) 24); [lia|]. reflexivity.
      * intros Hlen.
        destruct (Z.ltb_spec (Z.of_nat (length input)) 24); [eauto|lia].
  - intros Hk Hsz. rewrite decodePacked_eq. cbv zeta. unfold requiredLength.
    rewrite Hk.
    destruct (Z.ltb_spec (Z.of_nat (length input)) (TSize t)); [reflexivity|].
    unfold slice_to. destruct (Z.ltb_spec (TSize t) 0); [reflexivity|].
    simpl. unfold readAddrPacked. rewrite length_take.
    destruct (Nat.eqb_spec (Z.to_nat (TSize t) `min` length input) 20);
      [lia|reflexivity].
Qed.

Lemma X18_witness :
  decodePacked (fixedBytesT 2) [xaa; xbb; xcc]
  = Ok (VArray (values_of_bytes (take (Z.to_nat (prefixLength (fixedBytesT 2)))
                                   [xaa; xbb; xcc])),
        drop (Z.to_nat (prefixLength (fixedBytesT 2))) [xaa; xbb; xcc]).
Proof.
  apply (proj1 (proj1 (X18_fixed_bytes_decoding (fixedBytesT 2) [xaa; xbb; xcc]
                         eq_refl) eq_refl)).
  simpl. lia.
Defined.

(* ================================================================== *)
(** * Further properties: round trip of a slice *)

(** X16. A slice of elements of fixed size makes the round trip: when
    every element has a normal form, the slice is encoded on as many bytes
    as its length times the element's size, the decoder gives back the
    slice of the normal forms and leaves nothing, and so does the
    top-level entry unless the slice is empty. *)
Theorem X16_slice_round_trip (t et : Type_) (l l' : list Value) :
  TKind t = KindSlice -> TElem t = Some et ->
  wellFormed et = true -> fixedSizeElem et = true ->
  mapM (normalize et) l = Some l' ->
  exists bs,
    EncodePacked (VSlice l) t = Ok bs
    /\ Z.of_nat (length bs) = Z.of_nat (length l) * prefixLength et
    /\ decodePacked t bs = Ok (VSlice l', [])
    /\ (l <> [] -> DecodePacked t bs = Ok (VSlice l')).
Proof.
  intros Hk Hel Hwf Hfix Hl.
  assert (static et = true) as Hst
    by (rewrite static_eq; unfold fixedSizeElem in Hfix;
        destruct (TKind et); (reflexivity || discriminate)).
  assert (positiveElems et = true) as Hpos
    by (rewrite positiveElems_eq; unfold fixedSizeElem in Hfix;
        destruct (TKind et); (reflexivity || discriminate)).
  destruct (roundtrip_elems (fun x => encodePacked x et) (decodePacked et)
              (normalize et) (prefixLength et)
              (roundtrip_static et Hwf Hst Hpos) l l' Hl)
    as (bs & Henc & Hlen & Hdec).
  specialize (Hdec []). rewrite app_nil_r in Hdec.
  destruct (sliceElemSize_fixed et (Z.of_nat (length bs)) Hwf Hfix)
    as (Hes & Hkpos & Hq).
  assert (decodePacked t bs = Ok (VSlice l', [])) as Hd.
  { rewrite decodePacked_eq. cbv zeta. unfold requiredLength. rewrite Hk, Hel.
    rewrite Z.ltb_irrefl, Hes.
    destruct (Z.eqb_spec (prefixLength et) 0); [lia|].
    unfold decodeArraySlicePacked. rewrite Hel, Hk.
    rewrite Z.quot_div_nonneg by lia.
    rewrite Hlen, Z.div_mul by lia.
    destruct (Z.ltb_spec (Z.of_nat (length l)) 0); [lia|].
    destruct (Z.ltb_spec (Z.of_nat (length l) * prefixLength et)
                (Z.quot (TSize et) 8 * Z.of_nat (length l))); [nia|].
    rewrite Nat2Z.id.
    replace (fun data => decodePacked et data) with (decodePacked et)
      by reflexivity.
    rewrite Hdec. reflexivity. }
  exists bs. split; [|split; [exact Hlen|split; [exact Hd|]]].
  - unfold EncodePacked. rewrite encodePacked_slice, Hel by assumption.
    exact Henc.
  - intros Hne. unfold DecodePacked.
    destruct bs as [|b bs].
    + destruct l; [contradiction|]. simpl length in Hlen. lia.
    + simpl. rewrite Hd. reflexivity.
Qed.

Lemma X16_witness :
  exists bs,
    EncodePacked (VSlice [VInt Sz64 (-1); VInt Sz64 258]) (sliceT (intT 16)) = Ok bs
    /\ Z.of_nat (length bs) = 2 * prefixLength (intT 16)
    /\ DecodePacked (sliceT (intT 16)) bs
       = Ok (VSlice [VInt Sz16 (-1); VInt Sz16 258]).
Proof.
  destruct (X16_slice_round_trip (sliceT (intT 16)) (intT 16)
              [VInt Sz64 (-1); VInt Sz64 258] [VInt Sz16 (-1); VInt Sz16 258]
              eq_refl eq_refl eq_refl eq_refl eq_refl)
    as (bs & H1 & H2 & _ & H4).
  exists bs. split; [exact H1|split; [exact H2|]].
  apply H4. discriminate.
Defined.

(* ================================================================== *)
(** * Further properties: from the decoded value back to the bytes *)

Lemma reencodable_eq (t : Type_) :
  reencodable t =
  match TKind t with
  | KindInt | KindUInt =>
      match nativeWidth (TSize t) with
      | Some _ => true
      | None => TSize t =? 256
      end
  | KindBool => false
  | KindSlice | KindArray =>
      match TElem t with Some et => reencodable et | None => false end
  | KindTuple => forallb (fun p => reencodable (snd p)) (TTupleElems t)
  | _ => true
  end.
Proof. destruct t; reflexivity. Qed.

(** The big-endian digits of the number some bytes spell are the bytes. *)
Lemma be_digits_SetBytes (w : list byte) :
  be_digits (length w) (SetBytes w) = w.
Proof.
  induction w as [|x w IH] using rev_ind; [reflexivity|].
  rewrite length_app. simpl length. rewrite Nat.add_1_r. cbn [be_digits].
  rewrite SetBytes_snoc. pose proof (byte_to_Z_range x) as Hx.
  rewrite Z.div_add_l by lia. rewrite (Z.div_small (byte_to_Z x)) by lia.
  rewrite Z.add_0_r, IH. do 2 f_equal. unfold byte_of_Z.
  rewrite Z.add_comm, Z.mod_add by lia. exact (byte_of_to_Z x).
Qed.

(** What [readIntegerPacked] returns for a word of a native width or of
    256 bits, [encodeNumPacked] writes as that word. *)
Lemma reencode_integer (t : Type_) (word : list byte) (v : Value) :
  TKind t = KindInt \/ TKind t = KindUInt ->
  0 < TSize t -> TSize t mod 8 = 0 ->
  TGoKind t = goKindOf (TKind t) (TSize t) ->
  match nativeWidth (TSize t) with
  | Some _ => true
  | None => TSize t =? 256
  end = true ->
  Z.of_nat (length word) = TSize t / 8 ->
  readIntegerPacked t word = Ok v ->
  encodeNumPacked v t = Ok word.
Proof.
  intros Hk H0 H8 Hgo Hw Hlen Hread.
  rewrite (readIntegerPacked_congr t (scalarType (TKind t) (TSize t)))
    in Hread by (simpl; auto).
  pose proof (SetBytes_range word) as Hr.
  rewrite Hlen, pow256_width in Hr by assumption.
  assert (be_digits (Z.to_nat (TSize t / 8)) (SetBytes word) = word) as Hword.
  { rewrite <- Hlen, Nat2Z.id. apply be_digits_SetBytes. }
  assert (2 ^ TSize t = 2 * 2 ^ (TSize t - 1)) as Hpow.
  { rewrite <- Z.pow_succ_r by lia. f_equal. lia. }
  assert (0 < 2 ^ (TSize t - 1)) by (apply Z.pow_pos_nonneg; lia).
  set (m := SetBytes word) in *.
  assert ((if 2 ^ (TSize t - 1) - 1 <? m then m - 2 ^ TSize t else m)
          mod 2 ^ TSize t = m) as Hmod.
  { destruct (Z.ltb_spec (2 ^ (TSize t - 1) - 1) m).
    - replace (m - 2 ^ TSize t) with (m + (-1) * 2 ^ TSize t) by lia.
      rewrite Z.mod_add by lia. apply Z.mod_small. lia.
    - apply Z.mod_small. lia. }
  destruct (nativeWidth (TSize t)) as [sz|] eqn:Hnw.
  - destruct (readIntegerPacked_native _ sz word Hnw Hlen) as [Hu Hs].
    fold m in Hu, Hs.
    destruct Hk as [Hk|Hk]; rewrite Hk in Hread.
    + rewrite Hs in Hread. injection Hread as <-.
      rewrite (encodeNumPacked_native (VInt sz _) t _ eq_refl) by lia.
      rewrite Hmod, Hword. reflexivity.
    + rewrite Hu in Hread. injection Hread as <-.
      rewrite (encodeNumPacked_native (VUint sz _) t _ eq_refl) by lia.
      rewrite Z.mod_small by lia. rewrite Hword. reflexivity.
  - apply Z.eqb_eq in Hw.
    rewrite (readIntegerPacked_other (TKind t) _ _ Hnw Hk) in Hread.
    fold m in Hread. injection Hread as <-.
    rewrite encodeNumPacked_bigint. rewrite Hw in *.
    change (Z.to_nat (256 / 8)) with 32%nat in Hword.
    change (256 - 1) with 255 in Hmod.
    destruct Hk as [Hk|Hk]; rewrite Hk; simpl Kind_eqb; cbv iota.
    + rewrite Hmod, Hword. reflexivity.
    + rewrite Z.mod_small by lia. rewrite Hword. reflexivity.
Qed.

(** The loop over the fields keeps the entries it started with. *)
Lemma decodeFields_extends
    (dec : Type_ -> list byte -> result (Value * list byte))
    (elems : list (string * Type_)) :
  forall i (res : gmap string Value) data m rest,
    decodeFields dec i elems res data = Ok (VMap m, rest) ->
    forall k x, res !! k = Some x -> m !! k = Some x.
Proof.
  induction elems as [|[name et] elems IH]; intros i res data m rest H k x Hk.
  - simpl in H. injection H as <- <-. exact Hk.
  - simpl in H. destruct (dec et data) as [[val tail]| |]; simpl in H;
      [|discriminate..].
    destruct (res !! fieldName i name) eqn:Hres; [discriminate|].
    eapply IH; [exact H|]. rewrite lookup_insert_ne; [exact Hk|].
    intros <-. congruence.
Qed.

Lemma reencode_elems (enc : Value -> result (list byte))
    (dec : list byte -> result (Value * list byte)) :
  (forall data v rest,
      dec data = Ok (v, rest) ->
      exists c, data = c ++ rest /\ enc v = Ok c) ->
  forall n data vals rest,
    decodeElems dec n data = Ok (vals, rest) ->
    exists c, data = c ++ rest /\ encodeElems enc vals = Ok c.
Proof.
  intros Hone. induction n as [|n IH]; intros data vals rest H.
  - simpl in H. injection H as <- <-. exists []. split; reflexivity.
  - simpl in H. destruct (dec data) as [[val tail]| |] eqn:E; simpl in H;
      [|discriminate..].
    destruct (decodeElems dec n tail) as [[vals' rest']| |] eqn:E'; simpl in H;
      [|discriminate..].
    injection H as <- <-.
    destruct (Hone _ _ _ E) as (c0 & Hc0 & He0).
    destruct (IH _ _ _ E') as (c1 & Hc1 & He1).
    exists (c0 ++ c1). split.
    + rewrite <- app_assoc, <- Hc1. exact Hc0.
    + simpl. rewrite He0. simpl. rewrite He1. reflexivity.
Qed.

Lemma reencode_fields (elems : list (string * Type_)) :
  Forall (fun f => forall data v rest,
            decodePacked (snd f) data = Ok (v, rest) ->
            exists c, data = c ++ rest /\ encodePacked v (snd f) = Ok c)
    elems ->
  forall i res data m rest,
    decodeFields decodePacked i elems res data = Ok (VMap m, rest) ->
    exists c, data = c ++ rest
              /\ encodeFields encodePacked (VMap m) i elems = Ok c.
Proof.
  induction 1 as [|[name ft] elems Hft _ IH]; intros i res data m rest H.
  - simpl in H. injection H as <- <-. exists []. split; reflexivity.
  - simpl in H.
    destruct (decodePacked ft data) as [[val tail]| |] eqn:E; simpl in H;
      [|discriminate..].
    destruct (res !! fieldName i name) eqn:Hres; [discriminate|].
    destruct (Hft _ _ _ E) as (c0 & Hc0 & He0). simpl snd in He0.
    destruct (IH _ _ _ _ _ H) as (c1 & Hc1 & He1).
    pose proof (decodeFields_extends _ _ _ _ _ _ _ H (fieldName i name) val
                  (lookup_insert_eq _ _ _)) as Hm.
    exists (c0 ++ c1). split.
    + rewrite <- app_assoc, <- Hc1. exact Hc0.
    + simpl encodeFields. unfold tupleEntry. rewrite Hm, He0. simpl.
      rewrite He1. reflexivity.
Qed.

(** Decoding, then encoding the value: the bytes the decoder consumed. *)
Lemma decode_then_encode (t : Type_) :
  wellFormed t = true -> reencodable t = true ->
  forall input v rest,
    decodePacked t input = Ok (v, rest) ->
    exists consumed,
      input = consumed ++ rest /\ encodePacked v t = Ok consumed.
Proof.
  induction t as [k sz el tup gk IHel IHtup] using Type_induction.
  intros Hwf Hre input v rest H.
  set (t := mkType k sz el tup gk) in *.
  assert (TKind t = k) as Hk by reflexivity.
  assert (TSize t = sz) as Hsz' by reflexivity.
  assert (TElem t = el) as Hel' by reflexivity.
  assert (TTupleElems t = tup) as Htup' by reflexivity.
  pose proof Hwf as Hwf0. pose proof H as H0.
  rewrite wellFormed_eq in Hwf. rewrite reencodable_eq in Hre.
  rewrite decodePacked_eq in H. cbv zeta in H. rewrite encodePacked_eq.
  unfold requiredLength in H.
  rewrite Hk in *. destruct k; try discriminate Hre.
  - (* UInt *)
    destruct (wellFormed_integer t (or_intror Hk) Hwf0) as (Hp & H8 & Hgo).
    destruct (decodePacked_integer t input v rest (or_intror Hk) Hp H8 H0)
      as (Hlen & Hread & Hrest).
    exists (take (Z.to_nat (TSize t / 8)) input).
    split; [rewrite Hrest; symmetry; apply take_drop|].
    apply reencode_integer; auto.
  - (* Int *)
    destruct (wellFormed_integer t (or_introl Hk) Hwf0) as (Hp & H8 & Hgo).
    destruct (decodePacked_integer t input v rest (or_introl Hk) Hp H8 H0)
      as (Hlen & Hread & Hrest).
    exists (take (Z.to_nat (TSize t / 8)) input).
    split; [rewrite Hrest; symmetry; apply take_drop|].
    apply reencode_integer; auto.
  - (* String *)
    rewrite decodePacked_takesAll in H0 by (unfold takesAll; rewrite Hk; reflexivity).
    rewrite Hk in H0. injection H0 as <- <-.
    exists input. split; [rewrite app_nil_r; reflexivity|].
    unfold encodeStringPacked, bytes_of_string.
    rewrite list_byte_of_string_of_list_byte. reflexivity.
  - (* Array *)
    rewrite Hsz', Hel' in *.
    apply andb_true_iff in Hwf as [Hsz Hwf]. apply Z.leb_le in Hsz.
    destruct el as [et|]; [|discriminate].
    destruct (Z.ltb_spec (Z.of_nat (length input)) sz); [discriminate|].
    unfold decodeArraySlicePacked in H. rewrite Hel', Hk in H.
    destruct (Z.ltb_spec sz 0); [lia|].
    destruct (Z.of_nat (length input) <? Z.quot (TSize et) 8 * sz);
      [discriminate|].
    destruct (decodeElems _ (Z.to_nat sz) input) as [[vals rest']| |] eqn:E;
      simpl in H; [|discriminate..].
    injection H as <- <-.
    pose proof (decodeElems_length _ _ _ _ _ E) as Hn.
    destruct (reencode_elems (fun x => encodePacked x et)
                (fun data => decodePacked et data)
                (IHel et eq_refl Hwf Hre) _ _ _ _ E) as (c & Hc & He).
    exists c. split; [exact Hc|].
    unfold encodeSliceAndArrayPacked. rewrite Hk, Hsz'. simpl Kind_eqb.
    simpl negb. cbv iota.
    destruct (Z.eqb_spec sz (Z.of_nat (length vals))); [|lia].
    simpl negb. cbv iota. exact He.
  - (* Slice *)
    rewrite Hsz', Hel' in *.
    apply andb_true_iff in Hwf as [Hsz Hwf].
    destruct el as [et|]; [|discriminate].
    rewrite Z.ltb_irrefl in H.
    destruct (sliceElemSize et (Z.of_nat (length input)) =? 0);
      [discriminate|].
    unfold decodeArraySlicePacked in H. rewrite Hel', Hk in H.
    destruct (_ <? 0); [discriminate|].
    destruct (Z.of_nat (length input) <? _); [discriminate|].
    destruct (decodeElems _ _ input) as [[vals rest']| |] eqn:E;
      simpl in H; [|discriminate..].
    injection H as <- <-.
    destruct (reencode_elems (fun x => encodePacked x et)
                (fun data => decodePacked et data)
                (IHel et eq_refl Hwf Hre) _ _ _ _ E) as (c & Hc & He).
    exists c. split; [exact Hc|].
    unfold encodeSliceAndArrayPacked. rewrite Hk. exact He.
  - (* Address *)
    rewrite Hsz' in *. apply Z.eqb_eq in Hwf. subst sz.
    destruct (Z.ltb_spec (Z.of_nat (length input)) 20); [discriminate|].
    unfold slice_to, slice_from, readAddrPacked in H. simpl in H.
    rewrite length_take in H.
    replace (Z.to_nat 20 `min` length input)%nat with 20%nat in H by lia.
    simpl in H. injection H as <- <-.
    exists (take 20 input). split; [symmetry; apply take_drop|].
    unfold encodeAddressPacked, bytes_or_text. simpl.
    rewrite bytes_of_values_of_bytes, take_take. reflexivity.
  - (* Bytes *)
    rewrite decodePacked_takesAll in H0 by (unfold takesAll; rewrite Hk; reflexivity).
    rewrite Hk in H0. injection H0 as <- <-.
    exists input. split; [rewrite app_nil_r; reflexivity|].
    unfold encodeBytesPacked, bytes_or_text. simpl.
    apply bytes_of_values_of_bytes.
  - (* FixedBytes *)
    rewrite Hsz' in *. apply Z.ltb_lt in Hwf.
    destruct (Z.ltb_spec (Z.of_nat (length input)) sz); [discriminate|].
    unfold slice_to, slice_from, readFixedBytesPacked in H.
    destruct (Z.ltb_spec sz 0); [lia|]. simpl in H. injection H as <- <-.
    exists (take (Z.to_nat sz) input). split; [symmetry; apply take_drop|].
    unfold encodeFixedBytesPacked, bytes_or_text. simpl.
    rewrite bytes_of_values_of_bytes. simpl.
    unfold rightPad. rewrite length_take.
    replace (Z.to_nat sz - Z.to_nat sz `min` length input)%nat with 0%nat by lia.
    simpl. rewrite app_nil_r. reflexivity.
  - (* Tuple *)
    rewrite Hsz', Htup' in *.
    apply andb_true_iff in Hwf as [Hsz Hwf].
    destruct (Z.ltb_spec (Z.of_nat (length input)) sz); [discriminate|].
    unfold decodeTuplePacked in H. rewrite Htup' in H.
    destruct (decodeFields_VMap _ _ _ _ _ _ _ H) as [m ->].
    destruct (reencode_fields tup) with (i := 0%nat) (res := (∅ : gmap string Value))
      (data := input) (m := m) (rest := rest) as (c & Hc & He); [|exact H|].
    { rewrite forallb_forall in Hwf, Hre.
      rewrite Forall_forall in IHtup |- *.
      intros f Hf. apply list_elem_of_In in Hf as Hf'.
      apply (IHtup f Hf (Hwf f Hf') (Hre f Hf')). }
    exists c. split; [exact Hc|].
    destruct (decodeFields_keys _ _ _ _ _ _ _ H) as (_ & _ & _ & Hsize).
    rewrite map_size_empty in Hsize.
    unfold encodeTuplePacked. simpl.
    destruct (Z.ltb_spec (Z.of_nat (size m)) (Z.of_nat (length tup))); [lia|].
    exact He.
  - (* Function *)
    rewrite Hsz' in *. apply Z.eqb_eq in Hwf. subst sz.
    destruct (Z.ltb_spec (Z.of_nat (length input)) 24); [discriminate|].
    unfold slice_to, slice_from, readFunctionTypePacked in H. simpl in H.
    destruct (Nat.ltb_spec (length input) 24); [lia|]. simpl in H.
    injection H as <- <-.
    exists (take 24 input). split; [symmetry; apply take_drop|].
    unfold encodeFixedBytesPacked, bytes_or_text. simpl.
    rewrite bytes_of_values_of_bytes. simpl.
    unfold rightPad. rewrite length_take.
    replace (Z.to_nat 24 - 24 `min` length input)%nat with 0%nat by lia.
    simpl. rewrite app_nil_r. reflexivity.
Qed.

(** X19. What the decoder returns, the encoder takes back: for a
    descriptor with integers of a native width or of 256 bits and no
    boolean (dynamic kinds included), the decoded value is encoded, against
    the same descriptor, as exactly the bytes the decoder consumed, the
    buffer being these bytes followed by the remainder; when nothing is
    left, the value is encoded as the buffer. *)
Theorem X19_decoded_value_encodes_back (t : Type_) (input : list byte)
    (v : Value) (rest : list byte) :
  wellFormed t = true -> reencodable t = true ->
  decodePacked t input = Ok (v, rest) ->
  (exists consumed,
      input = consumed ++ rest /\ EncodePacked v t = Ok consumed)
  /\ (rest = [] -> EncodePacked v t = Ok input).
Proof.
  intros Hwf Hre H.
  destruct (decode_then_encode t Hwf Hre input v rest H) as (c & Hc & He).
  split; [exists c; split; assumption|].
  intros ->. rewrite app_nil_r in Hc. subst c. exact He.
Qed.

Lemma X19_witness :
  exists consumed,
    [xff; xfe; x00; x01; x09] = consumed ++ [x09]
    /\ EncodePacked (VArray [VInt Sz16 (-2); VInt Sz16 1]) (arrayT 2 (intT 16))
       = Ok consumed.
Proof.
  apply (X19_decoded_value_encodes_back (arrayT 2 (intT 16))
           [xff; xfe; x00; x01; x09]);
    [reflexivity|reflexivity|vm_compute; reflexivity].
Defined.

(** X20. On such a descriptor the decoder tells buffers apart: two
    buffers decoded to the same value have the same consumed bytes, each
    followed by its own remainder; with equal remainders the buffers are
    equal. *)
Theorem X20_decoding_is_injective (t : Type_) (input1 input2 : list byte)
    (v : Value) (rest1 rest2 : list byte) :
  wellFormed t = true -> reencodable t = true ->
  decodePacked t input1 = Ok (v, rest1) ->
  decodePacked t input2 = Ok (v, rest2) ->
  (exists consumed, input1 = consumed ++ rest1 /\ input2 = consumed ++ rest2)
  /\ (rest1 = rest2 -> input1 = input2).
Proof.
  intros Hwf Hre H1 H2.
  destruct (decode_then_encode t Hwf Hre input1 v rest1 H1) as (c1 & Hc1 & He1).
  destruct (decode_then_encode t Hwf Hre input2 v rest2 H2) as (c2 & Hc2 & He2).
  assert (c1 = c2) as <- by congruence.
  split; [exists c1; split; assumption|].
  intros <-. congruence.
Qed.

Lemma X20_witness :
  exists consumed,
    [x01; x02; x03] = consumed ++ [x03] /\ [x01; x02] = consumed ++ [].
Proof.
  apply (X20_decoding_is_injective (uintT 16) [x01; x02; x03] [x01; x02]
           (VUint Sz16 258) [x03] []);
    reflexivity.
Defined.

(* ================================================================== *)
(** * Further properties: panics of the decoder *)

Lemma decodeElems_panics (dec : list byte -> result (Value * list byte))
    (Q : panic -> Prop) :
  (forall data p, dec data = Panic p -> Q p) ->
  forall n data p, decodeElems dec n data = Panic p -> Q p.
Proof.
  intros Hdec. induction n as [|n IH]; intros data p H; simpl in H;
    [discriminate|].
  destruct (dec data) as [[val tail]| |q] eqn:E; simpl in H; [|discriminate|].
  - destruct (decodeElems dec n tail) as [[vals rest]| |q] eqn:E'; simpl in H;
      [discriminate|discriminate|].
    injection H as <-. exact (IH _ _ E').
  - injection H as <-. exact (Hdec _ _ E).
Qed.

Lemma decodeFields_panics (dec : Type_ -> list byte -> result (Value * list byte))
    (Q : panic -> Prop) (elems : list (string * Type_)) :
  Forall (fun f => forall data p, dec (snd f) data = Panic p -> Q p) elems ->
  forall indx res data p, decodeFields dec indx elems res data = Panic p -> Q p.
Proof.
  induction 1 as [|[name ft] elems Hft _ IH]; intros indx res data p H;
    simpl in H; [discriminate|].
  destruct (dec ft data) as [[val tail]| |q] eqn:E; simpl in H; [|discriminate|].
  - destruct (res !! fieldName indx name); [discriminate|]. exact (IH _ _ _ _ H).
  - injection H as <-. exact (Hft _ _ E).
Qed.

Lemma decodePacked_panics (t : Type_) :
  wellFormed t = true ->
  forall input p, decodePacked t input = Panic p -> p = PanicDivideByZero.
Proof.
  induction t as [k sz el tup gk IHel IHtup] using Type_induction.
  intros Hwf input p H.
  set (t := mkType k sz el tup gk) in *.
  destruct (static t) eqn:Hst.
  { exfalso. exact (decodePacked_static_no_panic t Hwf Hst input p H). }
  assert (TKind t = k) as Hk by reflexivity.
  assert (TElem t = el) as Hel' by reflexivity.
  assert (TSize t = sz) as Hsz' by reflexivity.
  assert (TTupleElems t = tup) as Htup' by reflexivity.
  pose proof H as H0.
  rewrite wellFormed_eq in Hwf. rewrite static_eq in Hst.
  rewrite decodePacked_eq in H. cbv zeta in H. unfold requiredLength in H.
  rewrite Hk in *. destruct k; try discriminate Hst.
  - (* String *)
    rewrite decodePacked_takesAll in H0
      by (unfold takesAll; rewrite Hk; reflexivity). discriminate.
  - (* Array *)
    rewrite Hsz', Hel' in *.
    apply andb_true_iff in Hwf as [Hsz Hwf].
    destruct el as [et|]; [|discriminate].
    destruct (_ <? sz); [discriminate|].
    unfold decodeArraySlicePacked in H. rewrite Hel', Hk in H.
    destruct (sz <? 0); [discriminate|].
    destruct (_ <? _); [discriminate|].
    destruct (decodeElems _ _ input) as [[vals rest]| |q] eqn:E; simpl in H;
      [discriminate|discriminate|].
    injection H as <-.
    apply (decodeElems_panics (fun data => decodePacked et data)
             (fun q => q = PanicDivideByZero)
             (IHel et eq_refl Hwf) _ _ _ E).
  - (* Slice *)
    rewrite Hsz', Hel' in *.
    apply andb_true_iff in Hwf as [Hsz Hwf].
    destruct el as [et|]; [|discriminate].
    rewrite Z.ltb_irrefl in H.
    destruct (sliceElemSize et (Z.of_nat (length input)) =? 0);
      [injection H as <-; reflexivity|].
    unfold decodeArraySlicePacked in H. rewrite Hel', Hk in H.
    destruct (_ <? 0); [discriminate|].
    destruct (_ <? _); [discriminate|].
    destruct (decodeElems _ _ input) as [[vals rest]| |q] eqn:E; simpl in H;
      [discriminate|discriminate|].
    injection H as <-.
    apply (decodeElems_panics (fun data => decodePacked et data)
             (fun q => q = PanicDivideByZero)
             (IHel et eq_refl Hwf) _ _ _ E).
  - (* Bytes *)
    rewrite decodePacked_takesAll in H0
      by (unfold takesAll; rewrite Hk; reflexivity). discriminate.
  - (* Tuple *)
    rewrite Hsz', Htup' in *.
    apply andb_true_iff in Hwf as [Hsz Hwf].
    destruct (_ <? sz); [discriminate|].
    unfold decodeTuplePacked in H. rewrite Htup' in H.
    apply (decodeFields_panics decodePacked (fun q => q = PanicDivideByZero) tup)
      in H; [exact H|].
    rewrite forallb_forall in Hwf. rewrite Forall_forall in IHtup |- *.
    intros f Hf. apply list_elem_of_In in Hf as Hf'.
    apply (IHtup f Hf (Hwf f Hf')).
Qed.

(** X21. On a well-formed descriptor the decoder has one way to panic:
    the division by the element size when a slice whose elements have no
    declared size is given no byte.  A call that panics does so with a
    division by zero, and its descriptor has a dynamic kind in it; a
    descriptor without dynamic kind never panics, whatever the buffer. *)
Theorem X21_only_panic_is_division (t : Type_) (input : list byte) (p : panic) :
  wellFormed t = true ->
  decodePacked t input = Panic p ->
  p = PanicDivideByZero /\ static t = false.
Proof.
  intros Hwf H. split; [exact (decodePacked_panics t Hwf input p H)|].
  destruct (static t) eqn:Hst; [|reflexivity].
  exfalso. exact (decodePacked_static_no_panic t Hwf Hst input p H).
Qed.

Lemma X21_witness :
  PanicDivideByZero = PanicDivideByZero /\ static (sliceT boolT) = false.
Proof.
  apply (X21_only_panic_is_division (sliceT boolT) [] PanicDivideByZero);
    vm_compute; reflexivity.
Defined.

(* ================================================================== *)
(** * Further properties: where the elements and the fields are read *)

Lemma decodeElems_layout (et : Type_) :
  wellFormed et = true -> static et = true ->
  forall n data vals rest,
    decodeElems (decodePacked et) n data = Ok (vals, rest) ->
    let L := Z.to_nat (prefixLength et) in
    rest = drop (n * L) data
    /\ length vals = n
    /\ forall i x, vals !! i = Some x ->
         exists r, decodePacked et (drop (i * L) data) = Ok (x, r).
Proof.
  intros Hwf Hst. induction n as [|n IH]; intros data vals rest H; cbv zeta.
  - simpl in H. injection H as <- <-.
    split; [reflexivity|split; [reflexivity|]].
    intros i x Hi. rewrite lookup_nil in Hi. discriminate.
  - simpl in H. destruct (decodePacked et data) as [[val tail]| |] eqn:E;
      simpl in H; [|discriminate..].
    destruct (decodeElems (decodePacked et) n tail) as [[vals' rest']| |] eqn:E';
      simpl in H; [|discriminate..].
    injection H as <- <-.
    destruct (decodePacked_static et Hwf Hst _ _ _ E) as (_ & Htail & _).
    destruct (IH _ _ _ E') as (Hrest & Hlen & Hall).
    subst tail. split; [|split].
    + rewrite Hrest, drop_drop. f_equal.
    + simpl. f_equal. exact Hlen.
    + intros [|i] x Hi.
      * simpl in Hi. injection Hi as <-. simpl. eauto.
      * simpl in Hi. destruct (Hall i x Hi) as [r Hr]. exists r.
        rewrite drop_drop in Hr. exact Hr.
Qed.

(** X22. The elements of an array or a slice of elements without dynamic
    kind lie side by side in the buffer: element [i] of the decoded
    sequence is what the element descriptor decodes at byte [i * L] of the
    buffer, [L] being the element's required prefix length, and the
    remainder starts behind the last element. *)
Theorem X22_element_layout (t et : Type_) (input : list byte) (v : Value)
    (rest : list byte) :
  TKind t = KindArray \/ TKind t = KindSlice ->
  TElem t = Some et -> wellFormed et = true -> static et = true ->
  decodePacked t input = Ok (v, rest) ->
  let L := Z.to_nat (prefixLength et) in
  exists vals,
    (v = VArray vals \/ v = VSlice vals)
    /\ rest = drop (length vals * L) input
    /\ forall i x, vals !! i = Some x ->
         exists r, decodePacked et (drop (i * L) input) = Ok (x, r).
Proof.
  intros Hk Hel Hwf Hst H. cbv zeta.
  rewrite decodePacked_eq in H. cbv zeta in H. unfold requiredLength in H.
  assert (forall n vals,
            decodeElems (fun data => decodePacked et data) n input
            = Ok (vals, rest) ->
            rest = drop (length vals * Z.to_nat (prefixLength et)) input
            /\ forall i x, vals !! i = Some x ->
                 exists r, decodePacked et
                             (drop (i * Z.to_nat (prefixLength et)) input)
                           = Ok (x, r)) as Hlay.
  { intros n vals E.
    destruct (decodeElems_layout et Hwf Hst _ _ _ _ E) as (Hr & Hn & Hall).
    rewrite Hn. split; assumption. }
  destruct Hk as [Hk|Hk]; rewrite Hk, ?Hel in H.
  - destruct (_ <? TSize t); [discriminate|].
    unfold decodeArraySlicePacked in H. rewrite Hel, Hk in H.
    destruct (TSize t <? 0); [discriminate|].
    destruct (_ <? _); [discriminate|].
    destruct (decodeElems _ _ input) as [[vals rest']| |] eqn:E; simpl in H;
      [|discriminate..].
    injection H as <- <-. exists vals. split; [left; reflexivity|].
    exact (Hlay _ _ E).
  - rewrite Z.ltb_irrefl in H.
    destruct (sliceElemSize et (Z.of_nat (length input)) =? 0);
      [discriminate|].
    unfold decodeArraySlicePacked in H. rewrite Hel, Hk in H.
    destruct (_ <? 0); [discriminate|].
    destruct (_ <? _); [discriminate|].
    destruct (decodeElems _ _ input) as [[vals rest']| |] eqn:E; simpl in H;
      [|discriminate..].
    injection H as <- <-. exists vals. split; [right; reflexivity|].
    exact (Hlay _ _ E).
Qed.

Lemma X22_witness :
  exists vals,
    (VArray [VUint Sz16 258; VUint Sz16 772] = VArray vals
     \/ VArray [VUint Sz16 258; VUint Sz16 772] = VSlice vals)
    /\ [x05] = drop (length vals * Z.to_nat (prefixLength (uintT 16))) buffer5
    /\ forall i x, vals !! i = Some x ->
         exists r, decodePacked (uintT 16)
                     (drop (i * Z.to_nat (prefixLength (uintT 16))) buffer5)
                   = Ok (x, r).
Proof.
  apply (X22_element_layout (arrayT 2 (uintT 16)) (uintT 16) buffer5
           (VArray [VUint Sz16 258; VUint Sz16 772]) [x05]
           (or_introl eq_refl) eq_refl eq_refl eq_refl).
  vm_compute. reflexivity.
Defined.

Lemma prefixLength_sum_nonneg (elems : list (string * Type_)) :
  Forall (fun f => wellFormed (snd f) = true /\ static (snd f) = true) elems ->
  0 <= fold_right (fun p acc => prefixLength (snd p) + acc) 0 elems.
Proof.
  induction 1 as [|[name ft] elems [Hwf _] _ IH]; simpl; [lia|].
  pose proof (prefixLength_nonneg ft Hwf). lia.
Qed.

Lemma decodeFields_layout (elems : list (string * Type_)) :
  Forall (fun f => wellFormed (snd f) = true /\ static (snd f) = true) elems ->
  forall i res data m rest,
    decodeFields decodePacked i elems res data = Ok (VMap m, rest) ->
    forall j name ft,
      elems !! j = Some (name, ft) ->
      exists x r,
        decodePacked ft
          (drop (Z.to_nat (fold_right (fun p acc => prefixLength (snd p) + acc)
                             0 (take j elems))) data)
        = Ok (x, r)
        /\ m !! fieldName (i + j) name = Some x.
Proof.
  induction 1 as [|[name0 ft0] elems [Hwf Hst] Hall IH];
    intros i res data m rest H j name ft Hj.
  - rewrite lookup_nil in Hj. discriminate.
  - simpl in H. destruct (decodePacked ft0 data) as [[val tail]| |] eqn:E;
      simpl in H; [|discriminate..].
    destruct (res !! fieldName i name0) eqn:Hres; [discriminate|].
    destruct j as [|j].
    + simpl in Hj. injection Hj as <- <-. simpl. exists val, tail.
      split; [exact E|]. rewrite Nat.add_0_r.
      eapply decodeFields_extends; [exact H|]. apply lookup_insert_eq.
    + simpl in Hj. destruct (IH _ _ _ _ _ H j name ft Hj) as (x & r & Hx & Hm).
      exists x, r. split.
      * destruct (decodePacked_static ft0 Hwf Hst _ _ _ E) as (_ & Htail & _).
        subst tail. rewrite drop_drop in Hx.
        change (take (S j) ((name0, ft0) :: elems))
          with ((name0, ft0) :: take j elems).
        cbn [fold_right snd].
        pose proof (prefixLength_nonneg ft0 Hwf).
        pose proof (prefixLength_sum_nonneg (take j elems)
                      (Forall_take _ j _ Hall)).
        rewrite Z2Nat.inj_add by lia. exact Hx.
      * replace (i + S j)%nat with (S i + j)%nat by lia. exact Hm.
Qed.

(** X23. The fields of a tuple without dynamic kind lie side by side in
    the buffer, in descriptor order: the decoded map holds, under the name
    of field [j], what the field's descriptor decodes at the byte where the
    required prefix lengths of the fields before it end. *)
Theorem X23_field_layout (t : Type_) (input : list byte) (v : Value)
    (rest : list byte) :
  TKind t = KindTuple -> wellFormed t = true -> static t = true ->
  decodePacked t input = Ok (v, rest) ->
  exists m,
    v = VMap m
    /\ forall j name ft,
         TTupleElems t !! j = Some (name, ft) ->
         exists x r,
           decodePacked ft (drop (Z.to_nat (fieldOffset t j)) input) = Ok (x, r)
           /\ m !! fieldName j name = Some x.
Proof.
  intros Hk Hwf Hst H.
  rewrite wellFormed_eq in Hwf. rewrite static_eq in Hst.
  rewrite decodePacked_eq in H. cbv zeta in H. unfold requiredLength in H.
  rewrite Hk in *. apply andb_true_iff in Hwf as [_ Hwf].
  destruct (_ <? TSize t); [discriminate|].
  unfold decodeTuplePacked in H.
  destruct (decodeFields_VMap _ _ _ _ _ _ _ H) as [m ->].
  exists m. split; [reflexivity|].
  intros j name ft Hj. unfold fieldOffset.
  apply (decodeFields_layout (TTupleElems t)) with (i := 0%nat) (res := ∅)
    (rest := rest); [|exact H|exact Hj].
  rewrite forallb_forall in Hwf, Hst. rewrite Forall_forall.
  intros f Hf. apply list_elem_of_In in Hf. split; [apply Hwf|apply Hst]; exact Hf.
Qed.

Lemma X23_witness :
  exists m,
    VMap (<["b"%string := VBool true]> (<["a"%string := VUint Sz8 7]> ∅)) = VMap m
    /\ forall j name ft,
         TTupleElems tupleAB !! j = Some (name, ft) ->
         exists x r,
           decodePacked ft (drop (Z.to_nat (fieldOffset tupleAB j)) [x07; x01; x09])
           = Ok (x, r)
           /\ m !! fieldName j name = Some x.
Proof.
  apply (X23_field_layout tupleAB [x07; x01; x09]
           (VMap (<["b"%string := VBool true]> (<["a"%string := VUint Sz8 7]> ∅)))
           [x09] eq_refl eq_refl eq_refl).
  vm_compute. reflexivity.
Defined.

(* ================================================================== *)
(** * Further properties: the length of an address *)

(** X24. The encoder does not look at the length of an address given as
    bytes: a byte slice or a byte array of any length is encoded as its
    bytes.  The decoder does: fewer than 20 bytes are an error, and of more
    than 20 the first 20 are the address and the others are left. *)
Theorem X24_address_length_unchecked (t : Type_) (bs : list byte) :
  TKind t = KindAddress -> wellFormed t = true ->
  EncodePacked (VSlice (values_of_bytes bs)) t = Ok bs
  /\ EncodePacked (VArray (values_of_bytes bs)) t = Ok bs
  /\ ((length bs < 20)%nat -> exists e, decodePacked t bs = Err e)
  /\ ((20 < length bs)%nat ->
      decodePacked t bs
      = Ok (VArray (values_of_bytes (take 20 bs)), drop 20 bs)
      /\ drop 20 bs <> []).
Proof.
  intros Hk Hwf. rewrite wellFormed_eq, Hk in Hwf. apply Z.eqb_eq in Hwf.
  unfold EncodePacked. rewrite !encodePacked_eq, Hk.
  unfold encodeAddressPacked, bytes_or_text. simpl convertArrayToBytes.
  cbv iota. unfold Value_Bytes.
  split; [apply bytes_of_values_of_bytes|].
  split; [apply bytes_of_values_of_bytes|].
  rewrite decodePacked_eq. cbv zeta. unfold requiredLength. rewrite Hk, Hwf.
  split.
  - intros Hlen. destruct (Z.ltb_spec (Z.of_nat (length bs)) 20); [eauto|lia].
  - intros Hlen. destruct (Z.ltb_spec (Z.of_nat (length bs)) 20); [lia|].
    unfold slice_to, slice_from, readAddrPacked. simpl.
    rewrite length_take.
    replace (Z.to_nat 20 `min` length bs)%nat with 20%nat by lia.
    simpl. rewrite take_take. split; [reflexivity|].
    intros Hnil. apply (f_equal length) in Hnil. rewrite length_drop in Hnil.
    simpl in Hnil. lia.
Qed.

Lemma X24_witness :
  EncodePacked (VSlice (values_of_bytes [x01; x02])) addressT = Ok [x01; x02]
  /\ exists e, decodePacked addressT [x01; x02] = Err e.
Proof.
  destruct (X24_address_length_unchecked addressT [x01; x02] eq_refl eq_refl)
    as (H1 & _ & H3 & _).
  split; [exact H1|]. apply H3. simpl. lia.
Defined.

(* ================================================================== *)
(** * Further properties: fields behind a dynamic field *)

Lemma decodePacked_suffix (t : Type_) :
  forall input v rest,
    decodePacked t input = Ok (v, rest) -> rest `suffix_of` input.
Proof.
  induction t as [k sz el tup gk IHel IHtup] using Type_induction.
  intros input v rest H. rewrite decodePacked_eq in H. cbv zeta in H.
  destruct (Z.of_nat (length input) <? _); [discriminate|].
  simpl TKind in H. simpl TElem in H. simpl TTupleElems in H. simpl TSize in H.
  assert (forall size,
             decodeArraySlicePacked
               (fun data => match el with
                            | Some et => decodePacked et data
                            | None => Panic PanicNilDeref
                            end) (mkType k sz el tup gk) input size
             = Ok (v, rest) -> rest `suffix_of` input) as Hseq.
  { intros size Hd. unfold decodeArraySlicePacked in Hd. simpl TElem in Hd.
    destruct (size <? 0); [discriminate|].
    destruct el as [et|]; [|discriminate].
    destruct (Z.of_nat (length input) <? _); [discriminate|].
    destruct (decodeElems _ (Z.to_nat size) input) as [[vals rest']| |] eqn:E;
      simpl in Hd; [|discriminate..].
    injection Hd as _ <-. eapply decodeElems_suffix, E.
    intros data v0 rest0. apply (IHel et eq_refl). }
  destruct k; try (eapply scalar_branch_suffix, H).
  - injection H as _ <-. apply suffix_drop.
  - eapply Hseq, H.
  - destruct el as [et|]; [|discriminate].
    destruct (sliceElemSize et _ =? 0); [discriminate|]. eapply Hseq, H.
  - injection H as _ <-. apply suffix_drop.
  - unfold decodeTuplePacked in H. simpl TTupleElems in H.
    eapply decodeFields_suffix, H.
    eapply Forall_impl; [exact IHtup|]. intros f Hf data v0 rest0. apply Hf.
Qed.

(** Once the buffer is used up, a field that needs a byte fails, whatever
    the fields between. *)
Lemma decodeFields_from_nothing (ft : Type_) (name' : string)
    (post : list (string * Type_)) :
  wellFormed ft = true -> 0 < prefixLength ft ->
  forall mid i res,
    isOk (decodeFields decodePacked i (mid ++ (name', ft) :: post) res [])
    = false.
Proof.
  intros Hwf Hpos. induction mid as [|[n0 et] mid IH]; intros i res.
  - simpl. destruct (decodePacked ft []) as [[val tail]| |] eqn:E;
      [|reflexivity..].
    apply (decodePacked_min_length ft Hwf) in E. simpl in E. lia.
  - simpl. destruct (decodePacked et []) as [[val tail]| |] eqn:E; simpl;
      [|reflexivity..].
    apply decodePacked_suffix, suffix_nil_inv in E. subst tail.
    destruct (res !! fieldName i n0); [reflexivity|]. apply IH.
Qed.

Lemma decodeFields_behind_dynamic (dt ft : Type_) (name name' : string)
    (mid post : list (string * Type_)) :
  takesAll dt = true -> wellFormed ft = true -> 0 < prefixLength ft ->
  forall pre i res data,
    isOk (decodeFields decodePacked i
            (pre ++ (name, dt) :: mid ++ (name', ft) :: post) res data) = false.
Proof.
  intros Hdt Hwf Hpos. induction pre as [|[n0 et] pre IH]; intros i res data.
  - simpl. rewrite (decodePacked_takesAll dt data Hdt). simpl.
    destruct (res !! fieldName i name); [reflexivity|].
    apply decodeFields_from_nothing; assumption.
  - simpl. destruct (decodePacked et data) as [[val tail]| |]; simpl;
      [|reflexivity..].
    destruct (res !! fieldName i n0); [reflexivity|]. apply IH.
Qed.

(** X7. A text or a dynamic byte sequence is decoded from any buffer,
    also the empty one, and takes all of it; so a tuple with a field that
    needs at least one byte anywhere behind such a field (directly behind
    it, or with any fields between) is decoded from no buffer at all. *)
Theorem X7_dynamic_field_takes_all (dt : Type_) :
  takesAll dt = true ->
  (forall input, exists v, decodePacked dt input = Ok (v, []))
  /\ (forall t pre name mid name' ft post input,
         TKind t = KindTuple ->
         TTupleElems t = pre ++ (name, dt) :: mid ++ (name', ft) :: post ->
         wellFormed ft = true -> 0 < prefixLength ft ->
         isOk (decodePacked t input) = false).
Proof.
  intros Hdt. split.
  - intros input. rewrite (decodePacked_takesAll dt input Hdt). eauto.
  - intros t pre name mid name' ft post input Hk Hel Hwf Hpos.
    rewrite decodePacked_eq. cbv zeta.
    destruct (Z.of_nat (length input) <? requiredLength t input); [reflexivity|].
    rewrite Hk. unfold decodeTuplePacked. rewrite Hel.
    apply decodeFields_behind_dynamic; assumption.
Qed.

Lemma X7_witness :
  isOk (decodePacked (tupleT [("s"%string, scalarType KindString 0);
                              ("l"%string, sliceT (uintT 8));
                              ("n"%string, uintT 8)]) [x61; x01]) = false.
Proof.
  apply (proj2 (X7_dynamic_field_takes_all (scalarType KindString 0) eq_refl)
           (tupleT [("s"%string, scalarType KindString 0);
                    ("l"%string, sliceT (uintT 8));
                    ("n"%string, uintT 8)])
           [] "s"%string [("l"%string, sliceT (uintT 8))] "n"%string
           (uintT 8) [] [x61; x01]).
  - reflexivity.
  - reflexivity.
  - reflexivity.
  - vm_compute. reflexivity.
Defined.
